(** * leaf-segment: the in-process segment allocator

    A shallow embedding of package [core] of the leaf-segment ID service:
    the store advancer [Data.NextId], the per-tag allocator [BizAlloc]
    (double buffer, refill goroutine, waiter queue), the registry
    [Alloc], and the two HTTP handlers [handleAlloc] and [handleHealth].

    Conventions.
    - Go's [int64] is a [Z] kept in the signed 64-bit range; [+], [-] and
      [++] wrap around, written [add64] and [sub64].  Arithmetic in the
      statements below is this machine arithmetic.
    - A method with a pointer receiver takes the receiver's state and
      returns the new one.  A run-time panic (index out of range, closing
      a closed channel) is [None].
    - Code between [mutex.Lock()] and the matching [Unlock()] is one atomic
      step of the goroutine that runs it; goroutines interleave between
      such steps.
    - Results of calls that leave the process (the SQL driver, the clock,
      the timer) are inputs supplied by the environment.
    - Line numbers (l.95 and the like) are those of the source file that
      declares [BizAlloc]. *)

From Stdlib Require Import ZArith Lia List Bool.
From stdpp Require Import base gmap strings list.

Local Open Scope Z_scope.

(** * The program *)

(** ** Signed 64-bit integers *)

Definition modulus : Z := 2 ^ 64.
Definition min_int64 : Z := - 2 ^ 63.
Definition max_int64 : Z := 2 ^ 63 - 1.

(** A value of Go type [int64]. *)
Definition int64 (z : Z) : Prop := min_int64 <= z <= max_int64.

(** Two's complement wrap-around of an exact result. *)
Definition wrap (z : Z) : Z := (z + 2 ^ 63) mod modulus - 2 ^ 63.

Definition add64 (x y : Z) : Z := wrap (x + y).
Definition sub64 (x y : Z) : Z := wrap (x - y).

(** ** The store advancer: [Data] *)

(** Go's [error]: [None] is [nil], [Some msg] an error with that text. *)
Definition error := option string.

(** The answers of the SQL driver to the calls of one [Data.NextId], in
    the order the function makes them.  An answer is read only if the
    function gets as far as asking for it. *)
Record TxReplies := mkTxReplies {
  beginTx : error;              (* data.db.BeginTx(ctx, nil) *)
  prepareUpdate : error;        (* tx.PrepareContext(ctx, "UPDATE ...") *)
  execUpdate : error;           (* stmt.ExecContext(ctx, bizTag) *)
  rowsAffected : Z * error;     (* result.RowsAffected() *)
  prepareSelect : error;        (* tx.PrepareContext(ctx, "SELECT ...") *)
  scanRow : (Z * Z) + string;   (* QueryRowContext(...).Scan(&maxId, &step) *)
  commit : error                (* tx.Commit() *)
}.

(** [func (data *Data) NextId(bizTag string) (maxId, step int64, err error)].
    Every [goto ROLLBACK] returns the error met; [maxId] and [step] keep
    their zero values until [Scan] fills them, and the final [err] is
    that of [Commit]. *)
Definition Data_NextId (r : TxReplies) (bizTag : string) : Z * Z * error :=
  match beginTx r with
  | Some e => (0, 0, Some e)
  | None =>
  match prepareUpdate r with
  | Some e => (0, 0, Some e)
  | None =>
  match execUpdate r with
  | Some e => (0, 0, Some e)
  | None =>
  match rowsAffected r with
  | (_, Some e) => (0, 0, Some e)
  | (n, None) =>
  if n =? 0 then (0, 0, Some "biz_tag not found"%string) else
  match prepareSelect r with
  | Some e => (0, 0, Some e)
  | None =>
  match scanRow r with
  | inr e => (0, 0, Some e)
  | inl (maxId, step) => (maxId, step, commit r)
  end end end end end end.

(** ** The allocator of a tag: [Segment], [BizAlloc] *)

(** A wakeup handle: the identity of a [chan byte] made by a consumer. *)
Definition chan := nat.

(** [type Segment struct { offset, left, right int64 }] *)
Record Segment := mkSegment {
  offset : Z;   (* consumption cursor, relative to [left] *)
  left : Z;     (* inclusive lower bound *)
  right : Z     (* exclusive upper bound *)
}.

(** [type BizAlloc struct]; its mutex is the atomicity of the steps below. *)
Record BizAlloc := mkBizAlloc {
  bizTag : string;
  segments : list Segment;
  isAllocating : bool;
  waiting : list chan
}.

Definition set_segments (segs : list Segment) (b : BizAlloc) : BizAlloc :=
  mkBizAlloc (bizTag b) segs (isAllocating b) (waiting b).

Definition set_isAllocating (f : bool) (b : BizAlloc) : BizAlloc :=
  mkBizAlloc (bizTag b) (segments b) f (waiting b).

Definition set_waiting (w : list chan) (b : BizAlloc) : BizAlloc :=
  mkBizAlloc (bizTag b) (segments b) (isAllocating b) w.

(** The position a segment serves next: [left + offset]. *)
Definition cursor (s : Segment) : Z := add64 (left s) (offset s).

(** What one segment still holds: [right - left - offset]. *)
Definition remaining (s : Segment) : Z :=
  sub64 (sub64 (right s) (left s)) (offset s).

(** [func (bizAlloc *BizAlloc) leftCount() (count int64)] *)
Definition leftCount (b : BizAlloc) : Z :=
  fold_left (fun count s => add64 count (remaining s)) (segments b) 0.

(** [func (bizAlloc *BizAlloc) leftCountWithMutex() (count int64)]:
    [leftCount] as a critical section of its own. *)
Definition leftCountWithMutex (b : BizAlloc) : Z := leftCount b.

(** [func (bizAlloc *BizAlloc) newSegment() (seg *Segment, err error)]:
    on success the segment is [{offset: 0, left: maxId - step, right: maxId}]. *)
Definition newSegment (r : TxReplies) (b : BizAlloc) : Segment + string :=
  match Data_NextId r (bizTag b) with
  | (_, _, Some e) => inr e
  | (maxId, step, None) => inl (mkSegment 0 (sub64 maxId step) maxId)
  end.

(** [close(waitChan)] for each handle in turn; closing a closed channel
    panics. *)
Fixpoint close_all (cs : list chan) (closed : gset chan) : option (gset chan) :=
  match cs with
  | [] => Some closed
  | c :: cs' =>
      if decide (c ∈ closed) then None else close_all cs' ({[c]} ∪ closed)
  end.

(** [func (bizAlloc *BizAlloc) wakeup()]: close every queued handle and
    empty the queue. *)
Definition wakeup (closed : gset chan) (b : BizAlloc)
  : option (gset chan * BizAlloc) :=
  match close_all (waiting b) closed with
  | None => None
  | Some closed' => Some (closed', set_waiting [] b)
  end.

(** A segment after [offset++]. *)
Definition advanced (s : Segment) : Segment :=
  mkSegment (add64 (offset s) 1) (left s) (right s).

(** [func (bizAlloc *BizAlloc) popNextId() (nextId int64)]: read the front
    segment's [left + offset], advance its offset, and drop the segment
    from the front when [nextId+1 >= right].  Indexing an empty buffer
    panics. *)
Definition popNextId (b : BizAlloc) : option (Z * BizAlloc) :=
  match segments b with
  | [] => None
  | s0 :: rest =>
      let nextId := add64 (left s0) (offset s0) in
      if right s0 <=? add64 nextId 1
      then Some (nextId, set_segments rest b)
      else Some (nextId, set_segments (advanced s0 :: rest) b)
  end.

(** *** [nextId], in its two critical sections *)

(** How the first critical section of [nextId] ends. *)
Inductive Entered :=
| Served (nextId : Z)     (* [hasId]: return at l.164 *)
| Queued.                 (* handle appended to [waiting], mutex released *)

(** [nextId], from [Lock] (l.147) to the [return] of l.164 or the [Unlock]
    of l.172.  [c] is the channel [make] would return.  The boolean says
    whether [go bizAlloc.fillSegments()] ran. *)
Definition nextId_enter (c : chan) (b : BizAlloc)
  : option (BizAlloc * bool * Entered) :=
  match (if leftCount b =? 0 then Some (None, b)
         else match popNextId b with
              | Some (id, b1) => Some (Some id, b1)
              | None => None
              end) with
  | None => None
  | Some (got, b1) =>
      let spawn := (length (segments b1) <=? 1)%nat && negb (isAllocating b1) in
      let b2 := if spawn then set_isAllocating true b1 else b1 in
      match got with
      | Some id => Some (b2, spawn, Served id)
      | None => Some (set_waiting (waiting b2 ++ [c]) b2, spawn, Queued)
      end
  end.

(** [nextId], from the second [Lock] (l.181) to the return. *)
Definition nextId_retry (b : BizAlloc) : option (BizAlloc * (Z * error)) :=
  if leftCount b =? 0 then Some (b, (0, Some "no available id"%string))
  else match popNextId b with
       | Some (id, b') => Some (b', (id, None))
       | None => None
       end.

(** [time.Second], in nanoseconds, and the timer of l.174. *)
Definition time_Second : Z := 1000000000.
Definition waitTimeout : Z := 2 * time_Second.

(** The [select] of l.175-178: it returns when the handle is closed
    ([closedAfter] nanoseconds from now, if ever) or when the timer fires,
    whichever is first.  The result is the time spent waiting. *)
Definition select_wait (closedAfter : option Z) (timer : Z) : Z :=
  match closedAfter with
  | Some t => Z.min t timer
  | None => timer
  end.

(** What one call of [nextId] does, in order. *)
Inductive CallEvent :=
| CPop (id : Z)                      (* popNextId() *)
| CSpawn                             (* go bizAlloc.fillSegments() *)
| CEnqueue (c : chan)                (* waiting = append(waiting, waitChan) *)
| CWait (c : chan) (timer spent : Z) (* the select on waitChan and the timer *)
| CRetry (count : Z).                (* the leftCount() test of l.182 *)

(** What surrounds one call: the channel [make] returns, when that channel
    gets closed, what the other goroutines do to the allocator while the
    caller waits, and the clock read at l.219. *)
Record CallEnv := mkCallEnv {
  handle : chan;
  closedAfter : option Z;
  meanwhile : BizAlloc -> BizAlloc;
  now : Z
}.

Record CallResult := mkCallResult {
  ret_id : Z;
  ret_err : error;
  after : BizAlloc;
  log : list CallEvent
}.

(** [func (bizAlloc *BizAlloc) nextId() (nextId int64, err error)], whole. *)
Definition nextId (env : CallEnv) (b : BizAlloc) : option CallResult :=
  match nextId_enter (handle env) b with
  | None => None
  | Some (b1, spawn, Served id) =>
      Some (mkCallResult id None b1
              (CPop id :: (if spawn then [CSpawn] else [])))
  | Some (b1, spawn, Queued) =>
      let spent := select_wait (closedAfter env) waitTimeout in
      let b2 := meanwhile env b1 in
      let before := (if spawn then [CSpawn] else [])
                    ++ [CEnqueue (handle env);
                        CWait (handle env) waitTimeout spent;
                        CRetry (leftCount b2)] in
      match nextId_retry b2 with
      | None => None
      | Some (b3, (id, None)) =>
          Some (mkCallResult id None b3 (before ++ [CPop id]))
      | Some (b3, (id, Some e)) =>
          Some (mkCallResult id (Some e) b3 before)
      end
  end.

(** ** The registry: [Alloc] *)

(** [type Alloc struct]: [bizMap], from tag to allocator.  The map holds
    the allocators' states where the Go map holds pointers to them, so a
    call that changes an allocator stores its new state back. *)
Definition Alloc := gmap string BizAlloc.

(** [InitAlloc]: an empty registry. *)
Definition InitAlloc : Alloc := ∅.

(** The allocator [Alloc.NextId] makes for a tag it meets first. *)
Definition newBizAlloc (tag : string) : BizAlloc := mkBizAlloc tag [] false [].

(** [func (alloc *Alloc) NextId(bizTag string) (nextId int64, err error)]:
    look the tag up, creating its allocator if absent; draw from it; add
    [time.Now().UnixMilli()] to what was drawn. *)
Definition Alloc_NextId (env : CallEnv) (tag : string) (alloc : Alloc)
  : option (Alloc * (Z * error)) :=
  let '(alloc1, bizAlloc) :=
    match alloc !! tag with
    | Some b => (alloc, b)
    | None => (<[tag := newBizAlloc tag]> alloc, newBizAlloc tag)
    end in
  match nextId env bizAlloc with
  | None => None
  | Some r =>
      Some (<[tag := after r]> alloc1, (add64 (ret_id r) (now env), ret_err r))
  end.

(** [func (alloc *Alloc) LeftCount(bizTag string) (leftCount int64)]; the
    registry it leaves is returned with the count. *)
Definition Alloc_LeftCount (tag : string) (alloc : Alloc) : Alloc * Z :=
  match alloc !! tag with
  | Some b => (alloc, leftCountWithMutex b)
  | None => (alloc, 0)
  end.

(** ** The goroutines of one tag *)

(** Where a goroutine running [fillSegments] stands, with its locals. *)
Inductive Filler :=
| FLoop (failTimes : Z)     (* at l.95, about to lock and look at the buffer *)
| FFetch (failTimes : Z)    (* at l.100, mutex released, about to ask the store *)
| FGiveUp (failTimes : Z)   (* at l.103, [failTimes > 3] *)
| FAppend (seg : Segment).  (* at l.110, holding the new segment, [failTimes = 0] *)

(** What a step lets an observer see. *)
Inductive Event :=
| EvServe (id : Z) (retired : bool) (* a pop; did it drop the front segment *)
| EvReturn (id : Z) (err : error)   (* a call of [nextId] returns *)
| EvPark (c : chan)                 (* a caller starts waiting on [c] *)
| EvSpawn                           (* go bizAlloc.fillSegments() *)
| EvAdvance (ok : bool)             (* one call of the store advancer *)
| EvAppend (seg : Segment)          (* a segment joins the back of the buffer *)
| EvWake (cs : list chan)           (* wakeup() closed these handles *)
| EvExit.                           (* a [fillSegments] goroutine ends *)

(** One step of [fillSegments]: from a point where the goroutine holds no
    lock to the next such point, or to its end ([None] for the goroutine).
    At [FFetch] the step is the call of [newSegment] and needs the store's
    answer; the other steps are critical sections and take none. *)
Definition fillSegments_step (answer : option TxReplies) (f : Filler)
    (cl : gset chan) (b : BizAlloc)
  : option (option Filler * gset chan * BizAlloc * list Event) :=
  match f, answer with
  | FLoop failTimes, None =>
      if (length (segments b) <=? 1)%nat
      then Some (Some (FFetch failTimes), cl, b, [])
      else Some (None, cl, set_isAllocating false b, [EvExit])
  | FFetch failTimes, Some r =>
      match newSegment r b with
      | inr _ =>
          let failTimes' := add64 failTimes 1 in
          if 3 <? failTimes'
          then Some (Some (FGiveUp failTimes'), cl, b, [EvAdvance false])
          else Some (Some (FLoop failTimes'), cl, b, [EvAdvance false])
      | inl seg => Some (Some (FAppend seg), cl, b, [EvAdvance true])
      end
  | FGiveUp _, None =>
      match wakeup cl b with
      | None => None
      | Some (cl', b1) =>
          Some (None, cl', set_isAllocating false b1,
                [EvWake (waiting b); EvExit])
      end
  | FAppend seg, None =>
      let b1 := set_segments (segments b ++ [seg]) b in
      match wakeup cl b1 with
      | None => None
      | Some (cl', b2) =>
          if (1 <? length (segments b2))%nat
          then Some (None, cl', set_isAllocating false b2,
                     [EvAppend seg; EvWake (waiting b); EvExit])
          else Some (Some (FLoop 0), cl', b2,
                     [EvAppend seg; EvWake (waiting b)])
      end
  | _, _ => None
  end.

(** The allocator of one tag with the goroutines that work on it. *)
Record Sys := mkSys {
  biz : BizAlloc;          (* the shared object *)
  fillers : list Filler;   (* the goroutines running [fillSegments] *)
  closed : gset chan;      (* the channels closed so far *)
  parked : gset chan;      (* callers between l.172 and l.181, by handle *)
  made : nat               (* channels made so far; the next one's name *)
}.

(** The allocator as [Alloc.NextId] creates it, nothing running. *)
Definition initSys (tag : string) : Sys := mkSys (newBizAlloc tag) [] ∅ ∅ 0%nat.

Inductive Action :=
| ACall                             (* a goroutine enters [nextId] *)
| AResume (c : chan)                (* the caller parked on [c] goes on *)
| AFill (i : nat)                   (* refill goroutine [i] runs a critical section *)
| AFetch (i : nat) (r : TxReplies). (* refill goroutine [i] asks the store, which answers [r] *)

Definition spawned (spawn : bool) : list Event :=
  if spawn then [EvSpawn] else [].

Definition shrunk (b b' : BizAlloc) : bool :=
  (length (segments b') <? length (segments b))%nat.

(** Refill goroutine [i] takes its next step. *)
Definition fill_at (i : nat) (answer : option TxReplies) (s : Sys)
  : option (Sys * list Event) :=
  match fillers s !! i with
  | None => None
  | Some f =>
      match fillSegments_step answer f (closed s) (biz s) with
      | None => None
      | Some (f', cl', b', evs) =>
          Some (mkSys b'
                  (match f' with
                   | Some f1 => <[i := f1]> (fillers s)
                   | None => delete i (fillers s)
                   end)
                  cl' (parked s) (made s),
                evs)
      end
  end.

Definition step (a : Action) (s : Sys) : option (Sys * list Event) :=
  match a with
  | ACall =>
      match nextId_enter (made s) (biz s) with
      | None => None
      | Some (b', spawn, out) =>
          let fs := if spawn then fillers s ++ [FLoop 0] else fillers s in
          match out with
          | Served id =>
              Some (mkSys b' fs (closed s) (parked s) (made s),
                    EvServe id (shrunk (biz s) b') :: spawned spawn
                    ++ [EvReturn id None])
          | Queued =>
              Some (mkSys b' fs (closed s) ({[made s]} ∪ parked s) (S (made s)),
                    spawned spawn ++ [EvPark (made s)])
          end
      end
  | AResume c =>
      if decide (c ∈ parked s) then
        match nextId_retry (biz s) with
        | None => None
        | Some (b', (id, err)) =>
            Some (mkSys b' (fillers s) (closed s) (parked s ∖ {[c]}) (made s),
                  match err with
                  | None => [EvServe id (shrunk (biz s) b'); EvReturn id None]
                  | Some e => [EvReturn id (Some e)]
                  end)
        end
      else None
  | AFill i => fill_at i None s
  | AFetch i r => fill_at i (Some r) s
  end.

(** A schedule, run from a state; the events come out in order.  [None]
    when the schedule names a step that cannot be taken, or one panics. *)
Fixpoint run (acts : list Action) (s : Sys) : option (Sys * list Event) :=
  match acts with
  | [] => Some (s, [])
  | a :: acts' =>
      match step a s with
      | None => None
      | Some (s1, evs1) =>
          match run acts' s1 with
          | None => None
          | Some (s2, evs2) => Some (s2, evs1 ++ evs2)
          end
      end
  end.

(** ** The store advancer, call by call *)

(** A call of [Data.NextId] on the context, the transaction or one of its
    statements. *)
Inductive DbCall :=
| DbBeginTx                      (* data.db.BeginTx(ctx, nil) *)
| DbPrepare (query : string)     (* tx.PrepareContext(ctx, query) *)
| DbExec (arg : string)          (* stmt.ExecContext(ctx, bizTag) *)
| DbRowsAffected                 (* result.RowsAffected() *)
| DbQueryRowScan (arg : string)  (* stmt.QueryRowContext(ctx, bizTag).Scan(&maxId, &step) *)
| DbCommit                       (* tx.Commit() *)
| DbRollback                     (* tx.Rollback() *)
| DbStmtClose (query : string)   (* the deferred stmt.Close(), by the statement's query *)
| DbCancel.                      (* the deferred cancelFunc() *)

(** The two statements, for the table [DefaultConfig.Table]. *)
Definition update_query (table : string) : string :=
  String.append "UPDATE "
    (String.append table " SET max_id = max_id + step WHERE biz_tag = ? ").

Definition select_query (table : string) : string :=
  String.append (String.append "SELECT max_id , step " " FROM ")
    (String.append table " WHERE biz_tag = ? ").

(** [Data.NextId] again, this time with the calls it makes, in order, and
    the error it returns.  The deferred calls run at the return, last
    deferred first; [defer stmt.Close()] is reached once the first
    [PrepareContext] has succeeded and closes that statement. *)
Definition Data_NextId_calls (table : string) (r : TxReplies) (bizTag : string)
  : list DbCall * error :=
  let update := update_query table in
  let select := select_query table in
  let p1 := [DbBeginTx] in
  match beginTx r with
  | Some e => (p1 ++ [DbCancel], Some e)
  | None =>
  let p2 := p1 ++ [DbPrepare update] in
  match prepareUpdate r with
  | Some e => (p2 ++ [DbRollback; DbCancel], Some e)
  | None =>
  let ROLLBACK := [DbRollback; DbStmtClose update; DbCancel] in
  let p3 := p2 ++ [DbExec bizTag] in
  match execUpdate r with
  | Some e => (p3 ++ ROLLBACK, Some e)
  | None =>
  let p4 := p3 ++ [DbRowsAffected] in
  match rowsAffected r with
  | (_, Some e) => (p4 ++ ROLLBACK, Some e)
  | (n, None) =>
  if n =? 0 then (p4 ++ ROLLBACK, Some "biz_tag not found"%string) else
  let p5 := p4 ++ [DbPrepare select] in
  match prepareSelect r with
  | Some e => (p5 ++ ROLLBACK, Some e)
  | None =>
  let p6 := p5 ++ [DbQueryRowScan bizTag] in
  match scanRow r with
  | inr e => (p6 ++ ROLLBACK, Some e)
  | inl _ => (p6 ++ [DbCommit; DbStmtClose update; DbCancel], commit r)
  end end end end end end.

(** ** The HTTP handlers *)

(** [type AllocResponse struct] and [type HealthResponse struct]. *)
Record AllocResponse := mkAllocResponse {
  ErrNo : Z;        (* json:"err_no" *)
  Msg : string;     (* json:"msg" *)
  ID : Z            (* json:"id" *)
}.

Record HealthResponse := mkHealthResponse {
  Health_ErrNo : Z;     (* json:"err_no" *)
  Health_Msg : string;  (* json:"msg" *)
  Left : Z              (* json:"left" *)
}.

(** What a handler reads of its [*http.Request]: the result of
    [r.ParseForm()] and [r.Form] as that call leaves it. *)
Record Request := mkRequest {
  ParseForm : error;
  Form : gmap string (list string)
}.

(** [url.Values.Get]: the first value of the key, the empty string when
    there is none. *)
Definition Values_Get (v : gmap string (list string)) (key : string) : string :=
  match v !! key with
  | Some (x :: _) => x
  | _ => ""%string
  end.

(** The calls a handler makes on its [http.ResponseWriter]. *)
Inductive Written :=
| WriteHeader (statusCode : Z)
| Write (bytes : string).

Definition StatusInternalServerError : Z := 500.

(** [handleAlloc] from the label [RESP] on.  [json_Marshal] is
    [json.Marshal] on this struct: the bytes, or [None] for an error. *)
Definition handleAlloc_RESP (json_Marshal : AllocResponse -> option string)
    (id : Z) (err : error) : list Written :=
  let resp := match err with
              | Some e => mkAllocResponse (-1) e id
              | None => mkAllocResponse 0 "success" id
              end in
  match err with
  | Some _ => [WriteHeader StatusInternalServerError]
  | None => []
  end ++
  match json_Marshal resp with
  | Some bytes => [Write bytes]
  | None => [WriteHeader StatusInternalServerError]
  end.

(** The loop of [handleAlloc]: call [DefaultAlloc.NextId] until it fails
    or returns an ID other than 0.  [envs] are the surroundings of the
    calls, one for each; the inner [None] is the loop still going when
    they are used up. *)
Fixpoint handleAlloc_loop (envs : list CallEnv) (bizTag : string) (alloc : Alloc)
  : option (Alloc * option (Z * error)) :=
  match envs with
  | [] => Some (alloc, None)
  | env :: envs' =>
      match Alloc_NextId env bizTag alloc with
      | None => None
      | Some (alloc', (id, Some e)) => Some (alloc', Some (id, Some e))
      | Some (alloc', (id, None)) =>
          if id =? 0 then handleAlloc_loop envs' bizTag alloc'
          else Some (alloc', Some (id, None))
      end
  end.

(** How a handler ends: with the registry it leaves and what it wrote, or
    still in its loop. *)
Inductive Handled :=
| Responded (alloc : Alloc) (w : list Written)
| Looping (alloc : Alloc).

(** [func handleAlloc(w http.ResponseWriter, r *http.Request)], on the
    registry [DefaultAlloc]. *)
Definition handleAlloc (json_Marshal : AllocResponse -> option string)
    (req : Request) (envs : list CallEnv) (alloc : Alloc) : option Handled :=
  match ParseForm req with
  | Some e => Some (Responded alloc (handleAlloc_RESP json_Marshal 0 (Some e)))
  | None =>
      let bizTag := Values_Get (Form req) "biz_tag" in
      if decide (bizTag = ""%string)
      then Some (Responded alloc
                   (handleAlloc_RESP json_Marshal 0
                      (Some "need biz_tag param"%string)))
      else
        match handleAlloc_loop envs bizTag alloc with
        | None => None
        | Some (alloc', None) => Some (Looping alloc')
        | Some (alloc', Some (id, err)) =>
            Some (Responded alloc' (handleAlloc_RESP json_Marshal id err))
        end
  end.

(** [handleHealth] from the label [RESP] on. *)
Definition handleHealth_RESP (json_Marshal : HealthResponse -> option string)
    (count : Z) (err : error) : list Written :=
  let resp := match err with
              | Some e => mkHealthResponse (-1) e count
              | None => mkHealthResponse 0 "success" count
              end in
  match err with
  | Some _ => [WriteHeader StatusInternalServerError]
  | None => []
  end ++
  match json_Marshal resp with
  | Some bytes => [Write bytes]
  | None => [WriteHeader StatusInternalServerError]
  end.

(** [func handleHealth(w http.ResponseWriter, r *http.Request)]. *)
Definition handleHealth (json_Marshal : HealthResponse -> option string)
    (req : Request) (alloc : Alloc) : Alloc * list Written :=
  match ParseForm req with
  | Some e => (alloc, handleHealth_RESP json_Marshal 0 (Some e))
  | None =>
      let bizTag := Values_Get (Form req) "biz_tag" in
      if decide (bizTag = ""%string)
      then (alloc, handleHealth_RESP json_Marshal 0
                     (Some "need biz_tag param"%string))
      else
        let '(alloc', count) := Alloc_LeftCount bizTag alloc in
        if count =? 0
        then (alloc', handleHealth_RESP json_Marshal count
                        (Some "no available id"%string))
        else (alloc', handleHealth_RESP json_Marshal count None)
  end.

(** * Notions used in the statements *)

(** ** Segments *)

(** The precondition of taking from a segment: [left + offset < right]. *)
Definition live (s : Segment) : Prop := cursor s < right s.

(** The fields hold [int64] values, as their Go type says. *)
Definition typed (s : Segment) : Prop :=
  int64 (offset s) /\ int64 (left s) /\ int64 (right s).

(** The right bound alone is an [int64]. *)
Definition bounded (s : Segment) : Prop := int64 (right s).

(** The invariant of a segment in the buffer:
    [left <= left + offset < right]. *)
Definition seg_ok (s : Segment) : Prop :=
  typed s /\ left s <= cursor s < right s.

(** The exact sum of [right - left - offset] over a buffer. *)
Definition exact_remaining (segs : list Segment) : Z :=
  fold_right Z.add 0 (map (fun s => right s - left s - offset s) segs).

(** [n] calls of [nextId] in a row, each served at once, nothing else
    running in between. *)
Fixpoint serve (n : nat) (c : chan) (b : BizAlloc)
  : option (list Z * BizAlloc) :=
  match n with
  | O => Some ([], b)
  | S n' =>
      match nextId_enter c b with
      | Some (b1, _, Served id) =>
          match serve n' c b1 with
          | Some (ids, b2) => Some (id :: ids, b2)
          | None => None
          end
      | _ => None
      end
  end.

(** ** What the store answers *)

(** A store answer that grants a window grants a non-empty one:
    [maxId - step < maxId], with [maxId] an [int64]. *)
Definition grant_ok (tag : string) (r : TxReplies) : Prop :=
  match Data_NextId r tag with
  | (maxId, step, None) => int64 maxId /\ sub64 maxId step < maxId
  | _ => True
  end.

(** The values [Scan] stored are [int64] values, as the variables'
    type says. *)
Definition reply_typed (tag : string) (r : TxReplies) : Prop :=
  match Data_NextId r tag with
  | (maxId, step, None) => int64 maxId /\ int64 step
  | _ => True
  end.

(** An action whose store answer, if it carries one, satisfies [ok]. *)
Definition answers (ok : string -> TxReplies -> Prop) (tag : string)
    (a : Action) : Prop :=
  match a with
  | AFetch _ r => ok tag r
  | _ => True
  end.

Definition action_ok (tag : string) : Action -> Prop := answers grant_ok tag.

Definition action_typed (tag : string) : Action -> Prop :=
  answers reply_typed tag.

(** Store answers used in the examples: an advance that returns
    [(maxId, step)], and one that fails at [BeginTx]. *)
Definition granted (maxId step : Z) : TxReplies :=
  mkTxReplies None None None (1, None) None (inl (maxId, step)) None.

Definition refused : TxReplies :=
  mkTxReplies (Some "connection refused"%string) None None (0, None) None
    (inl (0, 0)) None.

(** ** What the events tell *)

Definition is_serve (e : Event) : bool :=
  match e with EvServe _ _ => true | _ => false end.

Definition is_exit (e : Event) : bool :=
  match e with EvExit => true | _ => false end.

(** The IDs served, each with the ordinal of the segment it came from:
    the front segment's ordinal is the number of segments retired before. *)
Fixpoint attributed (ord : nat) (evs : list Event) : list (nat * Z) :=
  match evs with
  | [] => []
  | EvServe id retired :: evs' =>
      (ord, id) :: attributed (if retired then S ord else ord) evs'
  | _ :: evs' => attributed ord evs'
  end.

(** Of two IDs that came from the same segment, the later is the larger. *)
Definition increasing_per_segment (out : list (nat * Z)) : Prop :=
  forall i j o a b,
    (i < j)%nat -> out !! i = Some (o, a) -> out !! j = Some (o, b) -> a < b.

(** The same, unless the earlier ID is the largest [int64]. *)
Definition increasing_unless_wrapped (out : list (nat * Z)) : Prop :=
  forall i j o a b,
    (i < j)%nat -> out !! i = Some (o, a) -> out !! j = Some (o, b) ->
    a < b \/ a = max_int64.

(** The store calls among the events, [true] for a success. *)
Fixpoint advances (evs : list Event) : list bool :=
  match evs with
  | [] => []
  | EvAdvance ok :: evs' => ok :: advances evs'
  | _ :: evs' => advances evs'
  end.

(** Whether the store answers an advance with a nil error. *)
Definition store_ok (tag : string) (r : TxReplies) : bool :=
  match Data_NextId r tag with
  | (_, _, None) => true
  | _ => false
  end.

(** The answers of the store that a schedule carries, in order: for each
    call of the store, [true] when [Data.NextId] returns a nil error. *)
Fixpoint store_outcomes (tag : string) (acts : list Action) : list bool :=
  match acts with
  | [] => []
  | AFetch _ r :: acts' => store_ok tag r :: store_outcomes tag acts'
  | _ :: acts' => store_outcomes tag acts'
  end.

(** How many failures in a row the list of outcomes ends with. *)
Fixpoint failures_in_a_row (acc : Z) (oks : list bool) : Z :=
  match oks with
  | [] => acc
  | true :: oks' => failures_in_a_row 0 oks'
  | false :: oks' => failures_in_a_row (acc + 1) oks'
  end.

Definition is_enqueue (e : CallEvent) : bool :=
  match e with CEnqueue _ => true | _ => false end.

Definition is_wait (e : CallEvent) : bool :=
  match e with CWait _ _ _ => true | _ => false end.

Definition is_retry (e : CallEvent) : bool :=
  match e with CRetry _ => true | _ => false end.

(** ** Invariants of the goroutines *)

(** Single flight: at most one refill goroutine, running exactly when
    [isAllocating] is set, and while it runs the buffer holds at most one
    segment. *)
Definition single_flight (s : Sys) : Prop :=
  match fillers s with
  | [] => isAllocating (biz s) = false /\ (length (segments (biz s)) <= 2)%nat
  | [_] => isAllocating (biz s) = true /\ (length (segments (biz s)) <= 1)%nat
  | _ => False
  end.

(** The queued handles are distinct, open, and were made by [make]. *)
Definition handles_ok (s : Sys) : Prop :=
  NoDup (waiting (biz s)) /\
  (forall c, c ∈ waiting (biz s) -> (c ∉ closed s) /\ (c < made s)%nat) /\
  (forall c, c ∈ closed s -> (c < made s)%nat).

(** [P] holds of every segment in the buffer and of the one a refill
    goroutine is about to append. *)
Definition filler_holds (P : Segment -> Prop) (f : Filler) : Prop :=
  match f with
  | FAppend seg => P seg
  | _ => True
  end.

Definition everywhere (P : Segment -> Prop) (s : Sys) : Prop :=
  Forall P (segments (biz s)) /\ Forall (filler_holds P) (fillers s).

Definition buffer_ok (s : Sys) : Prop := everywhere seg_ok s.

(** The local [failTimes] of a refill goroutine. *)
Definition failTimes_of (f : Filler) : Z :=
  match f with
  | FLoop n | FFetch n | FGiveUp n => n
  | FAppend _ => 0
  end.

(** One refill goroutine is at work, and its [failTimes] is the number of
    store failures in a row that the events so far end with. *)
Definition refilling (s : Sys) (evs : list Event) : Prop :=
  exists f,
    fillers s = [f] /\
    failTimes_of f = failures_in_a_row 0 (advances evs) /\
    match f with
    | FLoop n | FFetch n => 0 <= n <= 3
    | FGiveUp n => n = 4
    | FAppend _ => True
    end.

(** ** The run of the goroutines, seen from outside *)

Definition is_spawn (e : Event) : bool :=
  match e with EvSpawn => true | _ => false end.

Definition is_wake (e : Event) : bool :=
  match e with EvWake _ => true | _ => false end.

(** The IDs served, in the order of the pops. *)
Fixpoint served_ids (evs : list Event) : list Z :=
  match evs with
  | [] => []
  | EvServe id _ :: evs' => id :: served_ids evs'
  | _ :: evs' => served_ids evs'
  end.

(** Each number of the list is below those that follow it. *)
Definition ascending (ids : list Z) : Prop :=
  forall i j a b,
    (i < j)%nat -> ids !! i = Some a -> ids !! j = Some b -> a < b.

(** The segment a refill goroutine holds between the store's answer and
    the append. *)
Definition pending (f : Filler) : list Segment :=
  match f with
  | FAppend seg => [seg]
  | _ => []
  end.

(** The segments the process holds, in the order it will serve them: the
    buffer, then what is about to be appended to it. *)
Definition chain (s : Sys) : list Segment :=
  segments (biz s) ++ flat_map pending (fillers s).

(** The segments lie one above the other between [lo] and [hi]: each
    satisfies the segment invariant, its cursor is at or above [lo] and the
    [right] of the segment before it, and the last [right] is at most
    [hi]. *)
Fixpoint rising (lo : Z) (segs : list Segment) (hi : Z) : Prop :=
  match segs with
  | [] => lo <= hi
  | s :: segs' => lo <= cursor s /\ seg_ok s /\ rising (right s) segs' hi
  end.

(** The windows the store grants along a schedule are not empty and each
    starts at or above the end of the one granted before, as they do when
    the store adds a positive [step] to [max_id] at each advance.  [hw] is
    the end of the last window granted so far. *)
Fixpoint grants_ascend (tag : string) (hw : Z) (acts : list Action) : Prop :=
  match acts with
  | [] => True
  | AFetch _ r :: acts' =>
      match Data_NextId r tag with
      | (maxId, step, None) =>
          int64 maxId /\ hw <= sub64 maxId step < maxId /\
          grants_ascend tag maxId acts'
      | _ => grants_ascend tag hw acts'
      end
  | _ :: acts' => grants_ascend tag hw acts'
  end.

(** The number of IDs a buffer still holds: the sum of [right - cursor]. *)
Definition ids_left (segs : list Segment) : Z :=
  fold_right Z.add 0 (map (fun s => right s - cursor s) segs).

(** What an observer sees when no ID is given out: no pop, no append, and
    calls that return 0 with the error. *)
Definition shows_no_id (e : Event) : Prop :=
  match e with
  | EvServe _ _ | EvAppend _ => False
  | EvReturn id err => id = 0 /\ err = Some "no available id"%string
  | _ => True
  end.

(** The store answers with an error. *)
Definition store_fails (tag : string) (r : TxReplies) : Prop :=
  match Data_NextId r tag with
  | (_, _, Some _) => True
  | _ => False
  end.


(** The parked callers' handles are still queued or already closed. *)
Definition parked_ok (s : Sys) : Prop :=
  forall c, c ∈ parked s -> c ∈ waiting (biz s) \/ c ∈ closed s.





(** ** The IDs of a window *)

(** The IDs from [l] up to, not including, [r], in order. *)
Definition window_ids (l r : Z) : list Z :=
  map (fun k => l + Z.of_nat k) (seq 0 (Z.to_nat (r - l))).

(** The IDs the segments still hold, in the order they will be served. *)
Definition held (segs : list Segment) : list Z :=
  flat_map (fun s => window_ids (cursor s) (right s)) segs.

(** The IDs of the windows the store grants along a schedule, in order. *)
Fixpoint granted_ids (tag : string) (acts : list Action) : list Z :=
  match acts with
  | [] => []
  | AFetch _ r :: acts' =>
      match Data_NextId r tag with
      | (maxId, step, None) =>
          window_ids (sub64 maxId step) maxId ++ granted_ids tag acts'
      | _ => granted_ids tag acts'
      end
  | _ :: acts' => granted_ids tag acts'
  end.

(** How many of the events satisfy [p]. *)
Definition count_events (p : Event -> bool) (evs : list Event) : nat :=
  length (List.filter p evs).

(** ** What the client of a handler sees *)

(** The status code of the response: that of the first [WriteHeader], or
    200 when the handler writes the body without one. *)
Definition status_of (w : list Written) : Z :=
  match w with
  | WriteHeader code :: _ => code
  | _ => 200
  end.

(** The bodies written. *)
Fixpoint bodies (w : list Written) : list string :=
  match w with
  | [] => []
  | Write bytes :: w' => bytes :: bodies w'
  | WriteHeader _ :: w' => bodies w'
  end.

(** ** What [Data.NextId] does to the transaction *)

Definition ends_tx (c : DbCall) : bool :=
  match c with
  | DbCommit | DbRollback => true
  | _ => false
  end.

(** * Properties *)

(** ** Machine arithmetic *)

Lemma wrap_range z : int64 (wrap z).
Proof.
  unfold int64, wrap, min_int64, max_int64, modulus.
  pose proof (Z.mod_pos_bound (z + 2 ^ 63) (2 ^ 64) ltac:(lia)). lia.
Qed.

Lemma wrap_exact z : int64 z -> wrap z = z.
Proof.
  unfold int64, wrap, min_int64, max_int64, modulus. intros Hz.
  rewrite Z.mod_small by lia. lia.
Qed.

Lemma wrap_add_l a b : wrap (wrap a + b) = wrap (a + b).
Proof.
  unfold wrap.
  replace ((a + 2 ^ 63) mod modulus - 2 ^ 63 + b + 2 ^ 63)
    with ((a + 2 ^ 63) mod modulus + b) by lia.
  rewrite Zplus_mod_idemp_l. f_equal. f_equal. lia.
Qed.

Lemma wrap_add_r a b : wrap (a + wrap b) = wrap (a + b).
Proof. rewrite (Z.add_comm a), wrap_add_l. f_equal. lia. Qed.

Lemma wrap_sub_l a b : wrap (wrap a - b) = wrap (a - b).
Proof. unfold Z.sub. apply wrap_add_l. Qed.

Lemma wrap_sub_r a b : wrap (a - wrap b) = wrap (a - b).
Proof.
  unfold wrap.
  replace (a - ((b + 2 ^ 63) mod modulus - 2 ^ 63) + 2 ^ 63)
    with ((a + 2 ^ 64) - (b + 2 ^ 63) mod modulus) by lia.
  rewrite Zminus_mod_idemp_r. f_equal. f_equal. lia.
Qed.

Lemma add64_exact x y : int64 (x + y) -> add64 x y = x + y.
Proof. apply wrap_exact. Qed.

Lemma sub64_exact x y : int64 (x - y) -> sub64 x y = x - y.
Proof. apply wrap_exact. Qed.

(** Adding one below the top of the range does not wrap. *)
Lemma add64_succ x bound :
  int64 x -> x < bound -> int64 bound -> add64 x 1 = x + 1.
Proof. unfold int64. intros. apply add64_exact. unfold int64. lia. Qed.

(** If [x < bound <= x+1] in machine arithmetic, the increment did not
    wrap, whatever [bound] is. *)
Lemma add64_succ_meets x bound :
  int64 x -> x < bound -> bound <= add64 x 1 -> bound = x + 1.
Proof.
  unfold int64, max_int64, min_int64. intros Hx Hlt Hle.
  destruct (Z.eq_dec x (2 ^ 63 - 1)) as [->|Hne].
  - exfalso. revert Hle. unfold add64, wrap, modulus.
    replace (2 ^ 63 - 1 + 1 + 2 ^ 63) with (0 + 1 * 2 ^ 64) by lia.
    rewrite Z.mod_add by lia. rewrite Z.mod_0_l by lia. lia.
  - rewrite add64_exact in Hle by (unfold int64, max_int64, min_int64; lia).
    lia.
Qed.

Lemma cursor_range s : int64 (cursor s).
Proof. apply wrap_range. Qed.

(** The cursor after [offset++] is the cursor before, plus one. *)
Lemma cursor_advance s : cursor (advanced s) = add64 (cursor s) 1.
Proof.
  unfold cursor, advanced, add64; simpl. rewrite wrap_add_l, wrap_add_r.
  f_equal. lia.
Qed.

(** ** Popping an ID *)

Lemma cons_neq_self {A} (x : A) (l : list A) : x :: l <> l.
Proof. intros H. apply (f_equal (@length A)) in H. simpl in H. lia. Qed.

Lemma popNextId_front b s0 rest :
  segments b = s0 :: rest ->
  popNextId b =
    Some (cursor s0,
          set_segments
            (if right s0 <=? add64 (cursor s0) 1 then rest
             else advanced s0 :: rest)
            b).
Proof.
  intros Hb. unfold popNextId. rewrite Hb.
  fold (cursor s0). now destruct (right s0 <=? add64 (cursor s0) 1).
Qed.

Lemma popNextId_nonempty b : segments b <> [] -> is_Some (popNextId b).
Proof.
  destruct (segments b) as [|s0 rest] eqn:Hb; [congruence|]. intros _.
  rewrite (popNextId_front b s0 rest Hb). eauto.
Qed.

(** C1.  With a live front segment ([left + offset < right]),
    [popNextId] returns [left + offset] and advances that segment's offset
    by one, bounds untouched; the segment leaves the buffer exactly when
    its cursor after the increment has reached [right], and stays at the
    front, advanced, otherwise.  Nothing else of the allocator changes. *)
Theorem popNextId_takes_front (b : BizAlloc) (s0 : Segment) (rest : list Segment) :
  segments b = s0 :: rest ->
  live s0 ->
  exists b',
    popNextId b = Some (add64 (left s0) (offset s0), b') /\
    add64 (left s0) (offset s0) < right s0 /\
    offset (advanced s0) = add64 (offset s0) 1 /\
    left (advanced s0) = left s0 /\ right (advanced s0) = right s0 /\
    (segments b' = rest <-> right s0 <= cursor (advanced s0)) /\
    (segments b' = advanced s0 :: rest <-> cursor (advanced s0) < right s0) /\
    bizTag b' = bizTag b /\ isAllocating b' = isAllocating b /\
    waiting b' = waiting b.
Proof.
  intros Hb Hlive. rewrite (popNextId_front b s0 rest Hb).
  eexists. split; [reflexivity|]. split; [exact Hlive|].
  rewrite cursor_advance. cbn [segments set_segments].
  destruct (Z.leb_spec (right s0) (add64 (cursor s0) 1)) as [Hge|Hlt].
  - repeat split; try (intros; lia); auto.
    intros H. symmetry in H. exfalso. eapply cons_neq_self, H.
  - repeat split; try (intros; lia); auto.
    intros H. exfalso. eapply cons_neq_self, H.
Qed.

Lemma popNextId_takes_front_witness :
  exists b',
    popNextId (mkBizAlloc "t" [mkSegment 1 10 12; mkSegment 0 12 14] false [])
    = Some (11, b') /\
    segments b' = [mkSegment 0 12 14].
Proof.
  destruct (popNextId_takes_front
              (mkBizAlloc "t" [mkSegment 1 10 12; mkSegment 0 12 14] false [])
              (mkSegment 1 10 12) [mkSegment 0 12 14] eq_refl)
    as (b' & Hpop & _ & _ & _ & _ & Hgone & _).
  - vm_compute. reflexivity.
  - exists b'. split; [exact Hpop|]. apply Hgone. vm_compute. discriminate.
Defined.

(** ** The store advance and the segment made from it *)

(** The only way [Data.NextId] returns a nil error: every driver call
    succeeded, a row was affected, and the values are those scanned. *)
Lemma Data_NextId_success r tag maxId step :
  Data_NextId r tag = (maxId, step, None) <->
  beginTx r = None /\ prepareUpdate r = None /\ execUpdate r = None /\
  (exists n, rowsAffected r = (n, None) /\ n <> 0) /\
  prepareSelect r = None /\ scanRow r = inl (maxId, step) /\ commit r = None.
Proof.
  unfold Data_NextId. split.
  - destruct (beginTx r), (prepareUpdate r), (execUpdate r),
      (rowsAffected r) as [n [?|]], (prepareSelect r),
      (scanRow r) as [[? ?]|?];
      try destruct (Z.eqb_spec n 0); intros H; try discriminate H.
    inversion H; subst. repeat split; eauto.
  - intros (Hb & Hp & He & (n & Hr & Hn) & Hps & Hs & Hc).
    rewrite Hb, Hp, He, Hr, Hps, Hs, Hc.
    now destruct (Z.eqb_spec n 0).
Qed.

(** A failed advance leaves [newSegment] with the error only. *)
Lemma newSegment_failure r b maxId step e :
  Data_NextId r (bizTag b) = (maxId, step, Some e) -> newSegment r b = inr e.
Proof. unfold newSegment. now intros ->. Qed.

(** C3. After a successful advance returning [(maxId, step)] the segment
    built is the window [[maxId - step, maxId)]: left bound [maxId - step],
    right bound [maxId], offset 0, so that the first ID it serves is its
    left bound. *)
Theorem newSegment_window (r : TxReplies) (b : BizAlloc) (maxId step : Z) :
  Data_NextId r (bizTag b) = (maxId, step, None) ->
  exists seg,
    newSegment r b = inl seg /\
    left seg = sub64 maxId step /\
    right seg = maxId /\
    offset seg = 0 /\
    cursor seg = left seg /\
    (int64 (maxId - step) -> left seg = maxId - step).
Proof.
  intros Hadv. unfold newSegment. rewrite Hadv.
  eexists. split; [reflexivity|]. cbn [left right offset].
  repeat split.
  - unfold cursor, add64. cbn [left offset]. rewrite Z.add_0_r.
    apply wrap_exact, wrap_range.
  - apply sub64_exact.
Qed.

Lemma newSegment_window_witness :
  exists seg,
    newSegment (mkTxReplies None None None (1, None) None (inl (200, 100)) None)
               (newBizAlloc "t") = inl seg /\
    left seg = 100 /\ right seg = 200 /\ offset seg = 0.
Proof.
  destruct (newSegment_window
              (mkTxReplies None None None (1, None) None (inl (200, 100)) None)
              (newBizAlloc "t") 200 100 eq_refl)
    as (seg & Hnew & Hl & Hr & Ho & _ & Hexact).
  exists seg. split; [exact Hnew|]. split; [|split; [exact Hr|exact Ho]].
  apply Hexact. vm_compute. split; discriminate.
Defined.

(** ** Remaining *)

Lemma remaining_exact s : remaining s = wrap (right s - left s - offset s).
Proof. unfold remaining, sub64. apply wrap_sub_l. Qed.

Lemma leftCount_fold segs acc :
  fold_left (fun count s => add64 count (remaining s)) segs (wrap acc)
  = wrap (acc + exact_remaining segs).
Proof.
  revert acc. induction segs as [|s segs IH]; intros acc.
  - cbn. f_equal. lia.
  - cbn [fold_left]. unfold add64. rewrite remaining_exact, wrap_add_l, wrap_add_r.
    rewrite IH. f_equal. unfold exact_remaining. cbn [map fold_right]. lia.
Qed.

(** [leftCount] is the sum of [right - left - offset] over the buffer,
    brought into [int64]. *)
Lemma leftCount_sum b : leftCount b = wrap (exact_remaining (segments b)).
Proof.
  unfold leftCount. change 0 with (wrap 0) at 1. now rewrite leftCount_fold.
Qed.

Lemma leftCount_empty b : segments b = [] -> leftCount b = 0.
Proof. unfold leftCount. now intros ->. Qed.

Lemma leftCount_nonzero b : leftCount b <> 0 -> segments b <> [].
Proof. intros H Hnil. now apply H, leftCount_empty. Qed.

(** A pop from a live front segment: the segments that remain are live
    if they were, and the count goes down by one. *)
Lemma popNextId_live b id b' :
  Forall live (segments b) ->
  popNextId b = Some (id, b') ->
  Forall live (segments b') /\ leftCount b' = sub64 (leftCount b) 1.
Proof.
  intros Hlive Hpop.
  destruct (segments b) as [|s0 rest] eqn:Hb.
  { unfold popNextId in Hpop. now rewrite Hb in Hpop. }
  rewrite (popNextId_front b s0 rest Hb) in Hpop. inversion Hpop; subst; clear Hpop.
  inversion Hlive as [|? ? Hs0 Hrest]; subst.
  rewrite !leftCount_sum, Hb. cbn [segments set_segments]. unfold sub64.
  rewrite wrap_sub_l. unfold live in Hs0.
  destruct (Z.leb_spec (right s0) (add64 (cursor s0) 1)) as [Hge|Hlt].
  - split; [assumption|].
    pose proof (add64_succ_meets _ _ (cursor_range s0) Hs0 Hge) as Hr.
    unfold exact_remaining; simpl. rewrite Hr. unfold cursor, add64.
    fold (exact_remaining rest).
    replace (wrap (left s0 + offset s0) + 1 - left s0 - offset s0
             + exact_remaining rest - 1)
      with (wrap (left s0 + offset s0)
            + (exact_remaining rest - left s0 - offset s0)) by lia.
    rewrite wrap_add_l. f_equal. lia.
  - split.
    + constructor; [|assumption]. unfold live. now rewrite cursor_advance.
    + unfold exact_remaining; simpl. fold (exact_remaining rest).
      unfold add64.
      replace (right s0 - left s0 - wrap (offset s0 + 1) + exact_remaining rest)
        with (right s0 - left s0 + exact_remaining rest - wrap (offset s0 + 1))
        by lia.
      rewrite wrap_sub_r. f_equal. lia.
Qed.

(** [nextId] always gets through its first critical section: it pops only
    when the count is not zero, and then the buffer is not empty. *)
Lemma nextId_enter_total c b : is_Some (nextId_enter c b).
Proof.
  unfold nextId_enter. destruct (Z.eqb_spec (leftCount b) 0) as [Hz|Hnz].
  - eauto.
  - destruct (popNextId_nonempty b (leftCount_nonzero b Hnz)) as [[id b1] ->].
    eauto.
Qed.

Lemma nextId_retry_total b : is_Some (nextId_retry b).
Proof.
  unfold nextId_retry. destruct (Z.eqb_spec (leftCount b) 0) as [Hz|Hnz].
  - eauto.
  - destruct (popNextId_nonempty b (leftCount_nonzero b Hnz)) as [[id b1] ->].
    eauto.
Qed.

(** What the first critical section does when it serves an ID: a pop,
    then at most the raising of [isAllocating]. *)
Lemma nextId_enter_served c b b1 spawn id :
  nextId_enter c b = Some (b1, spawn, Served id) ->
  leftCount b <> 0 /\
  exists bp, popNextId b = Some (id, bp) /\
    spawn = ((length (segments bp) <=? 1)%nat && negb (isAllocating bp)) /\
    b1 = (if spawn then set_isAllocating true bp else bp).
Proof.
  unfold nextId_enter. destruct (Z.eqb_spec (leftCount b) 0) as [Hz|Hnz].
  - discriminate.
  - destruct (popNextId b) as [[id' bp]|]; [|discriminate].
    intros H. inversion H; subst. split; [assumption|].
    exists bp. repeat split.
Qed.

Lemma nextId_enter_queued c b b1 spawn :
  nextId_enter c b = Some (b1, spawn, Queued) ->
  leftCount b = 0 /\
  spawn = ((length (segments b) <=? 1)%nat && negb (isAllocating b)) /\
  b1 = set_waiting (waiting b ++ [c])
         (if spawn then set_isAllocating true b else b).
Proof.
  unfold nextId_enter. destruct (Z.eqb_spec (leftCount b) 0) as [Hz|Hnz].
  - intros H. inversion H; subst. repeat split; try assumption.
    now destruct ((length (segments b) <=? 1)%nat && negb (isAllocating b)).
  - destruct (popNextId b) as [[id' bp]|]; discriminate.
Qed.

Lemma segments_if_set_isAllocating (t : bool) b :
  segments (if t then set_isAllocating true b else b) = segments b.
Proof. now destruct t. Qed.

Lemma leftCount_if_set_isAllocating (t : bool) b :
  leftCount (if t then set_isAllocating true b else b) = leftCount b.
Proof. now destruct t. Qed.

Lemma serve_live n c b ids b' :
  Forall live (segments b) ->
  serve n c b = Some (ids, b') ->
  Forall live (segments b') /\
  length ids = n /\
  leftCount b' = wrap (leftCount b - Z.of_nat n).
Proof.
  revert b ids b'. induction n as [|n IH]; intros b ids b' Hlive Hserve.
  - simpl in Hserve. inversion Hserve; subst. repeat split; auto.
    rewrite Z.sub_0_r. symmetry. apply wrap_exact. rewrite leftCount_sum.
    apply wrap_range.
  - cbn [serve] in Hserve.
    destruct (nextId_enter c b) as [[[b1 spawn] [id|]]|] eqn:Henter;
      try discriminate.
    destruct (serve n c b1) as [[ids1 b2]|] eqn:Hrest; [|discriminate].
    inversion Hserve; subst; clear Hserve.
    apply nextId_enter_served in Henter as (_ & bp & Hpop & _ & ->).
    destruct (popNextId_live b id bp Hlive Hpop) as [Hlive' Hcount].
    rewrite <- (segments_if_set_isAllocating spawn) in Hlive'.
    destruct (IH _ _ _ Hlive' Hrest) as (Hl & Hlen & Hc).
    repeat split; [assumption|simpl; congruence|].
    rewrite Hc, leftCount_if_set_isAllocating, Hcount. unfold sub64.
    rewrite wrap_sub_l. f_equal. lia.
Qed.

(** C6.  [leftCount] is the sum of [right - left - offset] over the
    segments in the buffer (in [int64]; the exact sum when that fits).
    When every segment in the buffer is live, a pop lowers it by exactly
    one, and after [n] IDs served in a row with no refill in between it is
    the initial count minus [n]. *)
Theorem leftCount_after_serving
    (b : BizAlloc) (n : nat) (c : chan) (ids : list Z) (b' : BizAlloc) :
  Forall live (segments b) ->
  serve n c b = Some (ids, b') ->
  leftCount b = wrap (exact_remaining (segments b)) /\
  (int64 (exact_remaining (segments b)) ->
   leftCount b = exact_remaining (segments b)) /\
  (forall id bp, popNextId b = Some (id, bp) ->
   leftCount bp = sub64 (leftCount b) 1) /\
  length ids = n /\
  leftCount b' = sub64 (leftCount b) (Z.of_nat n) /\
  (int64 (leftCount b - Z.of_nat n) ->
   leftCount b' = leftCount b - Z.of_nat n).
Proof.
  intros Hlive Hserve.
  destruct (serve_live n c b ids b' Hlive Hserve) as (_ & Hlen & Hcount).
  split; [apply leftCount_sum|].
  split; [intros Hfit; rewrite leftCount_sum; now apply wrap_exact|].
  split; [intros id bp Hpop; now apply (popNextId_live b id bp Hlive)|].
  split; [assumption|].
  split; [exact Hcount|].
  intros Hfit. rewrite Hcount. now apply wrap_exact.
Qed.

Lemma leftCount_after_serving_witness :
  exists b',
    serve 3 0%nat
      (mkBizAlloc "t" [mkSegment 8 0 10; mkSegment 0 10 20] false [])
    = Some ([8; 9; 10], b') /\
    leftCount b' = 12 - 3.
Proof.
  exists (mkBizAlloc "t" [mkSegment 1 10 20] true []).
  split; [reflexivity|].
  apply (leftCount_after_serving
           (mkBizAlloc "t" [mkSegment 8 0 10; mkSegment 0 10 20] false [])
           3 0%nat [8; 9; 10]).
  - repeat constructor.
  - reflexivity.
  - vm_compute. split; discriminate.
Defined.

(** ** What a step does to the allocator *)

Lemma popNextId_shape b id b' :
  popNextId b = Some (id, b') ->
  exists s0 rest,
    segments b = s0 :: rest /\ id = cursor s0 /\
    b' = set_segments
           (if right s0 <=? add64 (cursor s0) 1 then rest
            else advanced s0 :: rest) b.
Proof.
  intros Hpop. destruct (segments b) as [|s0 rest] eqn:Hb.
  - unfold popNextId in Hpop. now rewrite Hb in Hpop.
  - rewrite (popNextId_front b s0 rest Hb) in Hpop. inversion Hpop.
    now exists s0, rest.
Qed.

Lemma popNextId_frame b id b' :
  popNextId b = Some (id, b') ->
  (tail (segments b') = tail (segments b) \/ segments b' = tail (segments b)) /\
  (length (segments b') <= length (segments b))%nat /\
  isAllocating b' = isAllocating b /\ waiting b' = waiting b /\
  bizTag b' = bizTag b.
Proof.
  intros (s0 & rest & Hb & _ & ->)%popNextId_shape. rewrite Hb.
  cbn [segments set_segments isAllocating waiting bizTag tail].
  destruct (right s0 <=? add64 (cursor s0) 1); cbn [tail length];
    repeat split; auto.
Qed.

Lemma nextId_enter_frame c b b1 spawn out :
  nextId_enter c b = Some (b1, spawn, out) ->
  (tail (segments b1) = tail (segments b) \/ segments b1 = tail (segments b)) /\
  (length (segments b1) <= length (segments b))%nat /\
  spawn = ((length (segments b1) <=? 1)%nat && negb (isAllocating b)) /\
  isAllocating b1 = (isAllocating b || spawn) /\
  bizTag b1 = bizTag b /\
  waiting b1 = match out with
               | Served _ => waiting b
               | Queued => waiting b ++ [c]
               end.
Proof.
  destruct out as [id|]; intros H.
  - apply nextId_enter_served in H as (_ & bp & Hpop & -> & ->).
    apply popNextId_frame in Hpop as (Hfront & Hlen & Hflag & Hw & Htag).
    rewrite <- Hflag.
    destruct ((length (segments bp) <=? 1)%nat && negb (isAllocating bp))
      eqn:Hspawn;
      cbn [segments set_isAllocating isAllocating waiting bizTag];
      rewrite ?Hspawn, ?orb_true_r, ?orb_false_r; repeat split; auto.
  - apply nextId_enter_queued in H as (_ & -> & ->).
    destruct ((length (segments b) <=? 1)%nat && negb (isAllocating b))
      eqn:Hspawn;
      cbn [segments set_isAllocating set_waiting isAllocating waiting bizTag];
      rewrite ?Hspawn, ?orb_true_r, ?orb_false_r; repeat split; auto.
Qed.

Lemma nextId_retry_frame b b' r :
  nextId_retry b = Some (b', r) ->
  (tail (segments b') = tail (segments b) \/ segments b' = tail (segments b)) /\
  (length (segments b') <= length (segments b))%nat /\
  isAllocating b' = isAllocating b /\ waiting b' = waiting b /\
  bizTag b' = bizTag b.
Proof.
  unfold nextId_retry. destruct (leftCount b =? 0).
  - intros H. inversion H; subst. repeat split; auto.
  - destruct (popNextId b) as [[id bp]|] eqn:Hpop; [|discriminate].
    intros H. inversion H; subst. now apply popNextId_frame in Hpop.
Qed.

Lemma wakeup_frame cl b cl' b' :
  wakeup cl b = Some (cl', b') ->
  segments b' = segments b /\ isAllocating b' = isAllocating b /\
  bizTag b' = bizTag b /\ waiting b' = [].
Proof.
  unfold wakeup. destruct (close_all (waiting b) cl); [|discriminate].
  intros H. inversion H; subst. repeat split.
Qed.

(** What a step of the refill goroutine does to the buffer and the flag. *)
Lemma fillSegments_step_frame answer f cl b f' cl' b' evs :
  fillSegments_step answer f cl b = Some (f', cl', b', evs) ->
  bizTag b' = bizTag b /\
  match f with
  | FLoop n =>
      answer = None /\ segments b' = segments b /\
      ((length (segments b) <= 1)%nat /\ f' = Some (FFetch n) /\
       isAllocating b' = isAllocating b
       \/ (1 < length (segments b))%nat /\ f' = None /\
          isAllocating b' = false)
  | FFetch n =>
      b' = b /\ exists r, answer = Some r /\
        match newSegment r b with
        | inl seg => f' = Some (FAppend seg)
        | inr _ =>
            f' = Some (if 3 <? add64 n 1 then FGiveUp (add64 n 1)
                       else FLoop (add64 n 1))
        end
  | FGiveUp _ =>
      answer = None /\ segments b' = segments b /\ f' = None /\
      isAllocating b' = false
  | FAppend seg =>
      answer = None /\ segments b' = segments b ++ [seg] /\
      ((1 < length (segments b'))%nat /\ f' = None /\ isAllocating b' = false
       \/ (length (segments b') <= 1)%nat /\ f' = Some (FLoop 0) /\
          isAllocating b' = isAllocating b)
  end.
Proof.
  destruct f as [n|n|n|seg], answer as [r|]; cbn [fillSegments_step];
    try discriminate.
  - destruct (Nat.leb_spec (length (segments b)) 1) as [Hle|Hgt]; intros H;
      inversion H; subst; cbn; repeat split; auto; right; repeat split; auto.
  - intros H. assert (b' = b) as ->.
    { destruct (newSegment r b); [|destruct (3 <? add64 n 1)];
        now inversion H. }
    repeat split. exists r. split; [reflexivity|].
    destruct (newSegment r b); [|destruct (3 <? add64 n 1)]; now inversion H.
  - destruct (wakeup cl b) as [[cl1 b1]|] eqn:Hw; [|discriminate].
    apply wakeup_frame in Hw as (Hs & Hf & Ht & _).
    intros H; inversion H; subst. cbn. repeat split; auto.
  - destruct (wakeup cl (set_segments (segments b ++ [seg]) b))
      as [[cl1 b1]|] eqn:Hw; [|discriminate].
    apply wakeup_frame in Hw as (Hs & Hf & Ht & _). cbn in Hs, Hf, Ht.
    destruct (Nat.ltb_spec 1 (length (segments b1))) as [Hgt|Hle];
      intros H; inversion H; subst; cbn; rewrite <- ?Hs; repeat split; auto;
      right; repeat split; auto.
Qed.

(** The shape of a step of refill goroutine [i]. *)
Lemma fill_at_inv i answer s s' evs :
  fill_at i answer s = Some (s', evs) ->
  exists f f' cl' b',
    fillers s !! i = Some f /\
    fillSegments_step answer f (closed s) (biz s) = Some (f', cl', b', evs) /\
    s' = mkSys b'
           (match f' with
            | Some f1 => <[i := f1]> (fillers s)
            | None => delete i (fillers s)
            end)
           cl' (parked s) (made s).
Proof.
  unfold fill_at. destruct (fillers s !! i) as [f|]; [|discriminate].
  destruct (fillSegments_step answer f (closed s) (biz s))
    as [[[[f' cl'] b'] evs']|] eqn:Hf; [|discriminate].
  intros H. inversion H; subst. now exists f, f', cl', b'.
Qed.

(** ** Single flight and the bound on the buffer *)

Lemma initSys_single_flight tag : single_flight (initSys tag).
Proof. unfold single_flight; cbn. split; [reflexivity|lia]. Qed.

(** Under single flight the only refill goroutine is number 0. *)
Lemma single_flight_lookup s i f :
  single_flight s -> fillers s !! i = Some f ->
  i = 0%nat /\ fillers s = [f] /\ isAllocating (biz s) = true /\
  (length (segments (biz s)) <= 1)%nat.
Proof.
  unfold single_flight. intros Hinv Hi.
  destruct (fillers s) as [|f0 [|f2 fs]]; [discriminate| |contradiction].
  destruct i as [|i]; [|discriminate]. cbn in Hi. inversion Hi; subst.
  destruct Hinv. auto.
Qed.

Lemma fill_at_single_flight i answer s s' evs :
  single_flight s -> fill_at i answer s = Some (s', evs) -> single_flight s'.
Proof.
  intros Hinv (f & f' & cl' & b' & Hi & Hf & ->)%fill_at_inv.
  destruct (single_flight_lookup s i f Hinv Hi) as (-> & Hfs & Hflag & Hlen).
  apply fillSegments_step_frame in Hf as [_ Hf].
  unfold single_flight. cbn [biz fillers]. rewrite Hfs.
  destruct f as [n|n|n|seg].
  - destruct Hf as (_ & Hs & [(_ & -> & Ha)|(Hgt & _)]); [|lia].
    cbn. rewrite Hs, Ha. auto.
  - destruct Hf as (-> & r & _ & Hf').
    destruct (newSegment r (biz s)); rewrite Hf'; cbn; auto.
  - destruct Hf as (_ & Hs & -> & Ha). cbn. rewrite Hs. split; [assumption|lia].
  - destruct Hf as (_ & Hs & [(Hgt & -> & Ha)|(Hle & -> & Ha)]); cbn;
      rewrite Hs, ?length_app in *; cbn [length] in *;
      split; try congruence; lia.
Qed.

Lemma step_single_flight a s s' evs :
  single_flight s -> step a s = Some (s', evs) -> single_flight s'.
Proof.
  intros Hinv Hstep. destruct a as [|c|i|i r]; cbn [step] in Hstep;
    [| |eapply fill_at_single_flight; eassumption..].
  - unfold single_flight in *.
    destruct (nextId_enter (made s) (biz s)) as [[[b1 spawn] out]|] eqn:He;
      [|discriminate].
    apply nextId_enter_frame in He as (_ & Hlen & Hsp & Hflag & _ & _).
    assert (Hs' : biz s' = b1 /\
                  fillers s' = if spawn then fillers s ++ [FLoop 0] else fillers s)
      by (destruct out; inversion Hstep; subst; auto).
    destruct Hs' as [-> ->]. clear Hstep.
    destruct (fillers s) as [|f [|f2 fs]]; [| |contradiction];
      destruct Hinv as [Hf Hl]; rewrite Hf in Hsp, Hflag;
      destruct spawn; cbn [app] in *; symmetry in Hsp;
      rewrite ?andb_true_iff, ?Nat.leb_le in Hsp;
      try (destruct Hsp; discriminate); split; try assumption; try lia.
  - unfold single_flight in *.
    destruct (decide (c ∈ parked s)); [|discriminate].
    destruct (nextId_retry (biz s)) as [[b1 [id err]]|] eqn:He; [|discriminate].
    apply nextId_retry_frame in He as (_ & Hlen & Hflag & _ & _).
    inversion Hstep; subst; clear Hstep. cbn [biz fillers].
    destruct (fillers s) as [|f [|f2 fs]]; [| |contradiction];
      destruct Hinv as [Hf Hl]; split; try congruence; lia.
Qed.

Lemma step_bizTag a s s' evs :
  step a s = Some (s', evs) -> bizTag (biz s') = bizTag (biz s).
Proof.
  assert (Hfill : forall i answer, fill_at i answer s = Some (s', evs) ->
                                   bizTag (biz s') = bizTag (biz s)).
  { intros i answer (f & f' & cl' & b' & _ & Hf & ->)%fill_at_inv.
    now apply fillSegments_step_frame in Hf as [Ht _]. }
  intros Hstep. destruct a as [|c|i|i r]; cbn [step] in Hstep; eauto.
  - destruct (nextId_enter (made s) (biz s)) as [[[b1 spawn] out]|] eqn:He;
      [|discriminate].
    apply nextId_enter_frame in He as (_ & _ & _ & _ & Ht & _).
    destruct out; inversion Hstep; subst; auto.
  - destruct (decide (c ∈ parked s)); [|discriminate].
    destruct (nextId_retry (biz s)) as [[b1 [id err]]|] eqn:He; [|discriminate].
    apply nextId_retry_frame in He as (_ & _ & _ & _ & Ht).
    inversion Hstep; subst; auto.
Qed.

(** Induction over a schedule: what every step keeps, every run keeps. *)
Lemma run_invariant (P : Sys -> Prop) (ok : Action -> Prop) :
  (forall a s s' evs, ok a -> P s -> step a s = Some (s', evs) -> P s') ->
  forall acts s s' evs,
    Forall ok acts -> P s -> run acts s = Some (s', evs) -> P s'.
Proof.
  intros Hstep acts. induction acts as [|a acts IH]; intros s s' evs Hok HP Hrun.
  - inversion Hrun; subst. exact HP.
  - cbn [run] in Hrun. inversion Hok as [|? ? Ha Hacts]; subst.
    destruct (step a s) as [[s1 evs1]|] eqn:Hs; [|discriminate].
    destruct (run acts s1) as [[s2 evs2]|] eqn:Hr; [|discriminate].
    inversion Hrun; subst.
    exact (IH s1 s' evs2 Hacts (Hstep a s s1 evs1 Ha HP Hs) Hr).
Qed.

(** Checks a condition on the store's answers along a concrete schedule. *)
Ltac check_schedule :=
  repeat first
    [ apply List.Forall_nil
    | apply List.Forall_cons;
      [ first [ exact I | vm_compute; repeat split; discriminate ] | ] ].

(** Every state a schedule passes through is the end of a schedule. *)
Lemma run_app acts1 acts2 s s2 evs :
  run (acts1 ++ acts2) s = Some (s2, evs) ->
  exists s1 evs1 evs2,
    run acts1 s = Some (s1, evs1) /\ run acts2 s1 = Some (s2, evs2) /\
    evs = evs1 ++ evs2.
Proof.
  revert s evs. induction acts1 as [|a acts1 IH]; intros s evs Hrun.
  - now exists s, [], evs.
  - cbn [app run] in *.
    destruct (step a s) as [[s' evs0]|]; [|discriminate].
    destruct (run (acts1 ++ acts2) s') as [[s3 evs3]|] eqn:Hrest;
      [|discriminate].
    inversion Hrun; subst; clear Hrun.
    destruct (IH _ _ Hrest) as (s1 & evs1 & evs2 & -> & Hr2 & ->).
    exists s1, (evs0 ++ evs1), evs2. now rewrite app_assoc.
Qed.

Lemma Forall_True_actions (acts : list Action) : Forall (fun _ => True) acts.
Proof. induction acts; constructor; auto. Qed.

Lemma run_single_flight acts s s' evs :
  single_flight s -> run acts s = Some (s', evs) -> single_flight s'.
Proof.
  intros Hs Hrun.
  apply (run_invariant single_flight (fun _ => True)
           (fun a s0 s1 evs0 _ => step_single_flight a s0 s1 evs0)
           acts s s' evs (Forall_True_actions acts) Hs Hrun).
Qed.

Lemma single_flight_bound s :
  single_flight s ->
  (length (segments (biz s)) <= 2)%nat /\ (length (fillers s) <= 1)%nat /\
  (isAllocating (biz s) = true <-> fillers s <> []).
Proof.
  unfold single_flight. destruct (fillers s) as [|f [|f2 fs]]; cbn [length].
  - intros [Hf Hl]. rewrite Hf. repeat split; try lia; try congruence.
  - intros [Hf Hl]. rewrite Hf. repeat split; try lia; try congruence.
  - contradiction.
Qed.

Lemma step_buffer a s s' evs :
  single_flight s ->
  step a s = Some (s', evs) ->
  match a with
  | AFill _ | AFetch _ _ =>
      segments (biz s') = segments (biz s) \/
      (length (segments (biz s)) <= 1)%nat /\
      exists seg, segments (biz s') = segments (biz s) ++ [seg]
  | _ =>
      tail (segments (biz s')) = tail (segments (biz s)) \/
      segments (biz s') = tail (segments (biz s))
  end.
Proof.
  intros Hinv.
  assert (Hfill : forall i answer, fill_at i answer s = Some (s', evs) ->
            segments (biz s') = segments (biz s) \/
            (length (segments (biz s)) <= 1)%nat /\
            exists seg, segments (biz s') = segments (biz s) ++ [seg]).
  { intros i answer (f & f' & cl' & b' & Hi & Hf & ->)%fill_at_inv.
    destruct (single_flight_lookup s i f Hinv Hi) as (_ & _ & _ & Hlen).
    apply fillSegments_step_frame in Hf as [_ Hf]. cbn [biz].
    destruct f as [n|n|n|seg].
    - left. apply Hf.
    - left. destruct Hf as [-> _]. reflexivity.
    - left. apply Hf.
    - right. split; [assumption|]. exists seg. apply Hf. }
  intros Hstep. destruct a as [|c|i|i r]; cbn [step] in Hstep; eauto.
  - destruct (nextId_enter (made s) (biz s)) as [[[b1 spawn] out]|] eqn:He;
      [|discriminate].
    apply nextId_enter_frame in He as (Hfront & _).
    destruct out; inversion Hstep; subst; exact Hfront.
  - destruct (decide (c ∈ parked s)); [|discriminate].
    destruct (nextId_retry (biz s)) as [[b1 [id err]]|] eqn:He; [|discriminate].
    apply nextId_retry_frame in He as (Hfront & _).
    inversion Hstep; subst; exact Hfront.
Qed.

(** C4.  In every state the allocator of a tag can reach (the end of a
    schedule, hence every state on the way), its buffer holds between 0
    and 2 segments: it starts empty; a step of [nextId]
    leaves the segments behind the front alone or drops the front one; a
    step of the refill goroutine, of which there is at most one, leaves
    the buffer alone or appends one segment to a buffer that holds at
    most one. *)
Theorem buffer_bounded
    (tag : string) (acts : list Action) (s : Sys) (evs : list Event) :
  run acts (initSys tag) = Some (s, evs) ->
  segments (biz (initSys tag)) = [] /\
  (0 <= length (segments (biz s)) <= 2)%nat /\
  (length (fillers s) <= 1)%nat /\
  (forall a s' evs',
     step a s = Some (s', evs') ->
     match a with
     | AFill _ | AFetch _ _ =>
         segments (biz s') = segments (biz s) \/
         (length (segments (biz s)) <= 1)%nat /\
         exists seg, segments (biz s') = segments (biz s) ++ [seg]
     | _ =>
         tail (segments (biz s')) = tail (segments (biz s)) \/
         segments (biz s') = tail (segments (biz s))
     end).
Proof.
  intros Hrun.
  pose proof (run_single_flight acts _ _ _ (initSys_single_flight tag) Hrun)
    as Hinv.
  destruct (single_flight_bound s Hinv) as (Hlen & Hfill & _).
  split; [reflexivity|]. split; [lia|]. split; [assumption|].
  intros a s' evs'. now apply step_buffer.
Qed.

(** A cold start: the first caller parks, the refill goroutine fetches
    two segments and ends, the caller resumes and is served. *)
Lemma buffer_bounded_witness :
  exists s evs,
    run [ACall; AFill 0; AFetch 0 (granted 100 100); AFill 0;
         AFill 0; AFetch 0 (granted 200 100); AFill 0; AResume 0%nat]
        (initSys "t") = Some (s, evs) /\
    (0 <= length (segments (biz s)) <= 2)%nat.
Proof.
  destruct (run [ACall; AFill 0; AFetch 0 (granted 100 100); AFill 0;
                 AFill 0; AFetch 0 (granted 200 100); AFill 0; AResume 0%nat]
                (initSys "t"))
    as [[s evs]|] eqn:Hrun.
  - exists s, evs. split; [reflexivity|].
    exact (proj1 (proj2 (buffer_bounded "t" _ s evs Hrun))).
  - vm_compute in Hrun. discriminate Hrun.
Defined.

(** ** The segment invariant *)

(** Below [right] the cursor moves by exactly one, without wrapping. *)
Lemma seg_ok_cursor_advanced s :
  seg_ok s -> cursor (advanced s) = cursor s + 1.
Proof.
  intros [(_ & _ & Hr) [_ Hlt]]. rewrite cursor_advance.
  apply (add64_succ _ (right s)); auto using cursor_range.
Qed.

Lemma seg_ok_advanced s :
  seg_ok s -> cursor (advanced s) < right s -> seg_ok (advanced s).
Proof.
  intros Hok Hlt. pose proof (seg_ok_cursor_advanced s Hok) as Hc.
  destruct Hok as [(Ho & Hl & Hr) [Hle _]].
  split; [|cbn [left right advanced] in *; lia].
  repeat split; try apply Hl; try apply Hr; apply wrap_range.
Qed.

(** What holds of every segment when it is made, and still holds when a
    segment is advanced and kept, holds everywhere in every state reached. *)
Section SegmentInvariant.

Variable P : Segment -> Prop.
Variable ok : string -> TxReplies -> Prop.

Hypothesis P_advanced :
  forall s0, P s0 -> add64 (cursor s0) 1 < right s0 -> P (advanced s0).
Hypothesis P_newSegment :
  forall r b seg, ok (bizTag b) r -> newSegment r b = inl seg -> P seg.

Lemma popNextId_keeps b id b' :
  Forall P (segments b) ->
  popNextId b = Some (id, b') ->
  Forall P (segments b').
Proof.
  intros Hok (s0 & rest & Hb & _ & ->)%popNextId_shape.
  rewrite Hb in Hok. inversion Hok as [|? ? Hs0 Hrest]; subst.
  cbn [segments set_segments].
  destruct (Z.leb_spec (right s0) (add64 (cursor s0) 1)) as [Hge|Hlt];
    [assumption|].
  constructor; [|assumption]. now apply P_advanced.
Qed.

Lemma nextId_enter_keeps c b b1 spawn out :
  Forall P (segments b) ->
  nextId_enter c b = Some (b1, spawn, out) ->
  Forall P (segments b1).
Proof.
  intros Hok He. destruct out as [id|].
  - apply nextId_enter_served in He as (_ & bp & Hpop & _ & ->).
    rewrite segments_if_set_isAllocating. eapply popNextId_keeps; eauto.
  - apply nextId_enter_queued in He as (_ & _ & ->). cbn [segments set_waiting].
    now rewrite segments_if_set_isAllocating.
Qed.

Lemma nextId_retry_keeps b b' r :
  Forall P (segments b) ->
  nextId_retry b = Some (b', r) ->
  Forall P (segments b').
Proof.
  intros Hok. unfold nextId_retry. destruct (leftCount b =? 0).
  - intros H; inversion H; subst; assumption.
  - destruct (popNextId b) as [[id bp]|] eqn:Hpop; [|discriminate].
    intros H; inversion H; subst. eapply popNextId_keeps; eauto.
Qed.

Lemma fill_at_keeps i answer s s' evs :
  match answer with Some r => ok (bizTag (biz s)) r | None => True end ->
  everywhere P s ->
  fill_at i answer s = Some (s', evs) ->
  everywhere P s'.
Proof.
  intros Ha [Hsegs Hfill] (f & f' & cl' & b' & Hi & Hf & ->)%fill_at_inv.
  pose proof (Forall_lookup_1 _ _ _ _ Hfill Hi) as Hfi.
  apply fillSegments_step_frame in Hf as [_ Hf].
  unfold everywhere. cbn [biz fillers].
  destruct f as [n|n|n|seg].
  - destruct Hf as (_ & -> & [(_ & -> & _)|(_ & -> & _)]);
      (split; [assumption|]);
      [apply Forall_insert; [assumption|exact I]
      |apply Forall_delete; assumption].
  - destruct Hf as (-> & r & -> & Hf'). split; [assumption|].
    destruct (newSegment r (biz s)) as [seg|e] eqn:Hnew; rewrite Hf';
      apply Forall_insert; auto.
    + exact (P_newSegment r (biz s) seg Ha Hnew).
    + now destruct (3 <? add64 n 1).
  - destruct Hf as (_ & -> & -> & _).
    split; [assumption|apply Forall_delete; assumption].
  - destruct Hf as (_ & -> & Hf'). split.
    + apply Forall_app. split; [assumption|]. constructor; [exact Hfi|constructor].
    + destruct Hf' as [(_ & -> & _)|(_ & -> & _)];
        [apply Forall_delete; assumption
        |apply Forall_insert; [assumption|exact I]].
Qed.

Lemma step_keeps tag a s s' evs :
  answers ok tag a ->
  bizTag (biz s) = tag /\ everywhere P s ->
  step a s = Some (s', evs) ->
  bizTag (biz s') = tag /\ everywhere P s'.
Proof.
  intros Ha [Htag Hok] Hstep.
  split; [rewrite (step_bizTag _ _ _ _ Hstep); exact Htag|].
  destruct a as [|c|i|i r]; cbn [step] in Hstep.
  - destruct Hok as [Hsegs Hfill].
    destruct (nextId_enter (made s) (biz s)) as [[[b1 spawn] out]|] eqn:He;
      [|discriminate].
    pose proof (nextId_enter_keeps _ _ _ _ _ Hsegs He) as Hok1.
    assert (Hfill' : Forall (filler_holds P)
                       (if spawn then fillers s ++ [FLoop 0] else fillers s)).
    { destruct spawn; [|assumption]. apply Forall_app. split; [assumption|].
      repeat constructor. }
    destruct out; inversion Hstep; subst; split; assumption.
  - destruct Hok as [Hsegs Hfill].
    destruct (decide (c ∈ parked s)); [|discriminate].
    destruct (nextId_retry (biz s)) as [[b1 [id err]]|] eqn:He; [|discriminate].
    pose proof (nextId_retry_keeps _ _ _ Hsegs He) as Hok1.
    inversion Hstep; subst; split; assumption.
  - exact (fill_at_keeps i None s s' evs I Hok Hstep).
  - refine (fill_at_keeps i (Some r) s s' evs _ Hok Hstep).
    cbn in Ha. now rewrite Htag.
Qed.

Lemma initSys_everywhere tag :
  bizTag (biz (initSys tag)) = tag /\ everywhere P (initSys tag).
Proof. split; [reflexivity|]. split; constructor. Qed.

Lemma run_keeps tag acts s s' evs :
  Forall (answers ok tag) acts ->
  bizTag (biz s) = tag /\ everywhere P s ->
  run acts s = Some (s', evs) ->
  bizTag (biz s') = tag /\ everywhere P s'.
Proof.
  apply (run_invariant (fun s => bizTag (biz s) = tag /\ everywhere P s)
           (answers ok tag)).
  intros a s0 s1 evs0. apply step_keeps.
Qed.

End SegmentInvariant.

Lemma seg_ok_kept s0 :
  seg_ok s0 -> add64 (cursor s0) 1 < right s0 -> seg_ok (advanced s0).
Proof.
  intros Hok Hlt. apply seg_ok_advanced; [assumption|].
  now rewrite cursor_advance.
Qed.

Lemma newSegment_seg_ok r b seg :
  grant_ok (bizTag b) r -> newSegment r b = inl seg -> seg_ok seg.
Proof.
  unfold grant_ok, newSegment.
  destruct (Data_NextId r (bizTag b)) as [[maxId step] [e|]]; [discriminate|].
  intros [Hm Hlt] Hseg. inversion Hseg; subst; clear Hseg.
  assert (Hc : cursor (mkSegment 0 (sub64 maxId step) maxId) = sub64 maxId step).
  { unfold cursor, add64. cbn [left offset]. rewrite Z.add_0_r.
    apply wrap_exact, wrap_range. }
  split.
  - repeat split; cbn [offset left right]; try apply wrap_range; try apply Hm;
      vm_compute; discriminate.
  - rewrite Hc. cbn [left right]. lia.
Qed.

Lemma step_buffer_ok tag a s s' evs :
  action_ok tag a ->
  bizTag (biz s) = tag /\ buffer_ok s ->
  step a s = Some (s', evs) ->
  bizTag (biz s') = tag /\ buffer_ok s'.
Proof. exact (step_keeps seg_ok grant_ok seg_ok_kept newSegment_seg_ok tag a s s' evs). Qed.

Lemma initSys_buffer_ok tag :
  bizTag (biz (initSys tag)) = tag /\ buffer_ok (initSys tag).
Proof. exact (initSys_everywhere seg_ok tag). Qed.

Lemma run_buffer_ok tag acts s s' evs :
  Forall (action_ok tag) acts ->
  bizTag (biz s) = tag /\ buffer_ok s ->
  run acts s = Some (s', evs) ->
  bizTag (biz s') = tag /\ buffer_ok s'.
Proof. exact (run_keeps seg_ok grant_ok seg_ok_kept newSegment_seg_ok tag acts s s' evs). Qed.

Lemma popNextId_seg_ok b id b' :
  Forall seg_ok (segments b) ->
  popNextId b = Some (id, b') ->
  Forall seg_ok (segments b').
Proof. exact (popNextId_keeps seg_ok seg_ok_kept b id b'). Qed.

(** C5, with its proviso.  Provided every window the store grants is not
    empty ([maxId - step < maxId], [maxId] an [int64]), every segment in
    the buffer of a reachable state satisfies
    [left <= left + offset < right]; and a pop that brings the front
    segment's cursor to [right] removes that segment in the same step, so
    that the invariant holds again of what remains. *)
Theorem buffer_segments_ok
    (tag : string) (acts : list Action) (s : Sys) (evs : list Event) :
  Forall (action_ok tag) acts ->
  run acts (initSys tag) = Some (s, evs) ->
  Forall seg_ok (segments (biz s)) /\
  (forall id b',
     popNextId (biz s) = Some (id, b') ->
     exists s0 rest,
       segments (biz s) = s0 :: rest /\
       cursor (advanced s0) = id + 1 /\
       (right s0 <= cursor (advanced s0) -> segments b' = rest) /\
       (cursor (advanced s0) < right s0 -> segments b' = advanced s0 :: rest) /\
       Forall seg_ok (segments b')).
Proof.
  intros Hacts Hrun.
  destruct (run_buffer_ok tag acts _ _ _ Hacts (initSys_buffer_ok tag) Hrun)
    as [_ [Hsegs _]].
  split; [assumption|].
  intros id b' Hpop.
  pose proof (popNextId_seg_ok _ _ _ Hsegs Hpop) as Hok'.
  apply popNextId_shape in Hpop as (s0 & rest & Hb & -> & ->).
  exists s0, rest. rewrite Hb in Hsegs.
  inversion Hsegs as [|? ? Hs0 Hrest]; subst.
  pose proof (seg_ok_cursor_advanced s0 Hs0) as Hadv.
  assert (Hplus : add64 (cursor s0) 1 = cursor s0 + 1).
  { rewrite <- Hadv. now rewrite cursor_advance. }
  cbn [segments set_segments] in *. rewrite Hplus in *.
  repeat split; try assumption.
  - intros Hge. destruct (Z.leb_spec (right s0) (cursor s0 + 1)); [reflexivity|lia].
  - intros Hlt. destruct (Z.leb_spec (right s0) (cursor s0 + 1)); [lia|reflexivity].
Qed.

Lemma buffer_segments_ok_witness :
  exists s evs,
    run [ACall; AFill 0; AFetch 0 (granted 2 2); AFill 0; AResume 0%nat;
         AFill 0; AFetch 0 (granted 4 2); AFill 0; ACall]
        (initSys "t") = Some (s, evs) /\
    segments (biz s) = [mkSegment 0 2 4] /\
    Forall seg_ok (segments (biz s)).
Proof.
  destruct (run [ACall; AFill 0; AFetch 0 (granted 2 2); AFill 0; AResume 0%nat;
                 AFill 0; AFetch 0 (granted 4 2); AFill 0; ACall]
                (initSys "t"))
    as [[s evs]|] eqn:Hrun.
  - exists s, evs. split; [reflexivity|]. split.
    + vm_compute in Hrun. inversion Hrun. reflexivity.
    + refine (proj1 (buffer_segments_ok "t" _ s evs _ Hrun)).
      check_schedule.
  - vm_compute in Hrun. discriminate Hrun.
Defined.

(** The claim of C5 without the proviso fails.  A store row with step -1
    answers the advance with [(9, -1)]; the refill goroutine appends the
    segment [{offset 0, left 10, right 9}], which is in the buffer with
    its cursor beyond [right]. *)
Lemma buffer_segments_ok_negative_step :
  exists s evs,
    run [ACall; AFill 0; AFetch 0 (granted 9 (-1)); AFill 0] (initSys "t")
    = Some (s, evs) /\
    segments (biz s) = [mkSegment 0 10 9] /\
    ~ (left (mkSegment 0 10 9) <= cursor (mkSegment 0 10 9)
       < right (mkSegment 0 10 9)).
Proof.
  eexists _, _. split; [vm_compute; reflexivity|]. split; [reflexivity|].
  vm_compute. intros [_ H]. discriminate H.
Qed.

(** The claim of C6 without the proviso fails.  After the same cold
    start on a store row with step -1 the buffer holds
    [{offset 0, left 10, right 9}] and the count is -1.  The next caller
    finds the count not 0, is served 10 from that segment, which is
    dropped, and the count is then 0, not -2. *)
Lemma leftCount_after_serving_dead_front :
  exists s evs,
    run [ACall; AFill 0; AFetch 0 (granted 9 (-1)); AFill 0] (initSys "t")
    = Some (s, evs) /\
    segments (biz s) = [mkSegment 0 10 9] /\
    leftCount (biz s) = -1 /\
    exists b',
      serve 1 (made s) (biz s) = Some ([10], b') /\
      leftCount b' = 0 /\
      leftCount b' <> sub64 (leftCount (biz s)) 1.
Proof.
  eexists _, _. split; [vm_compute; reflexivity|].
  split; [reflexivity|]. split; [reflexivity|].
  eexists. split; [vm_compute; reflexivity|]. split; [reflexivity|].
  vm_compute. discriminate.
Qed.

(** ** The order of the IDs of one segment *)

Lemma attributed_skip ord evs1 evs2 :
  forallb (fun e => negb (is_serve e)) evs1 = true ->
  attributed ord (evs1 ++ evs2) = attributed ord evs2.
Proof.
  induction evs1 as [|e evs1 IH]; [reflexivity|].
  cbn [forallb]. rewrite andb_true_iff. intros [He Hrest].
  destruct e; try discriminate He; cbn [app attributed]; auto.
Qed.

Lemma spawned_no_serve spawn :
  forallb (fun e => negb (is_serve e)) (spawned spawn) = true.
Proof. now destruct spawn. Qed.

(** What a pop shows: the ID is the front segment's cursor; the segment
    is dropped, or stays, advanced and still below [right]. *)
Lemma popNextId_served b id b' :
  popNextId b = Some (id, b') ->
  exists s0 rest,
    segments b = s0 :: rest /\ id = cursor s0 /\
    (shrunk b b' = true /\ segments b' = rest /\
     right s0 <= add64 (cursor s0) 1
     \/ shrunk b b' = false /\ segments b' = advanced s0 :: rest /\
        add64 (cursor s0) 1 < right s0).
Proof.
  intros (s0 & rest & Hb & -> & ->)%popNextId_shape.
  exists s0, rest. repeat split; try assumption.
  unfold shrunk. rewrite Hb. cbn [segments set_segments].
  destruct (Z.leb_spec (right s0) (add64 (cursor s0) 1)); cbn [length].
  - left. repeat split; [apply Nat.ltb_lt; lia|assumption].
  - right. repeat split; [apply Nat.ltb_ge; lia|assumption].
Qed.

Lemma shrunk_if_set_isAllocating (t : bool) b b' :
  shrunk b (if t then set_isAllocating true b' else b') = shrunk b b'.
Proof. now destruct t. Qed.

(** The two shapes of a step, seen from the buffer: it serves one ID from
    the front segment, or it serves none and leaves the segments that are
    there in place. *)
Lemma step_serves a s s' evs :
  step a s = Some (s', evs) ->
  (exists id retired evs' s0 rest,
      evs = EvServe id retired :: evs' /\
      forallb (fun e => negb (is_serve e)) evs' = true /\
      segments (biz s) = s0 :: rest /\ id = cursor s0 /\
      (retired = true /\ segments (biz s') = rest /\
       right s0 <= add64 (cursor s0) 1
       \/ retired = false /\ segments (biz s') = advanced s0 :: rest /\
          add64 (cursor s0) 1 < right s0))
  \/ (forallb (fun e => negb (is_serve e)) evs = true /\
      exists more, segments (biz s') = segments (biz s) ++ more).
Proof.
  assert (Hfill : forall i answer, fill_at i answer s = Some (s', evs) ->
            forallb (fun e => negb (is_serve e)) evs = true /\
            exists more, segments (biz s') = segments (biz s) ++ more).
  { intros i answer (f & f' & cl' & b' & Hi & Hf & ->)%fill_at_inv.
    pose proof (fillSegments_step_frame _ _ _ _ _ _ _ _ Hf) as [_ Hfr].
    cbn [biz]. destruct f as [n|n|n|seg], answer as [r|];
      cbn [fillSegments_step] in Hf; try discriminate Hf.
    - destruct Hfr as (_ & -> & _).
      split; [|exists []; now rewrite app_nil_r].
      destruct (length (segments (biz s)) <=? 1)%nat; now inversion Hf.
    - destruct Hfr as (-> & _).
      split; [|exists []; now rewrite app_nil_r].
      destruct (newSegment r (biz s)); [|destruct (3 <? add64 n 1)];
        now inversion Hf.
    - destruct Hfr as (_ & -> & _).
      split; [|exists []; now rewrite app_nil_r].
      destruct (wakeup (closed s) (biz s)) as [[? ?]|]; now inversion Hf.
    - destruct Hfr as (_ & -> & _). split; [|now exists [seg]].
      destruct (wakeup (closed s) _) as [[? b2]|]; [|discriminate].
      destruct (1 <? length (segments b2))%nat; now inversion Hf. }
  intros Hstep. destruct a as [|c|i|i r]; cbn [step] in Hstep; eauto.
  - destruct (nextId_enter (made s) (biz s)) as [[[b1 spawn] [id|]]|] eqn:He;
      try discriminate; inversion Hstep; subst; clear Hstep; cbn [biz].
    + left. apply nextId_enter_served in He as (_ & bp & Hpop & _ & ->).
      apply popNextId_served in Hpop as (s0 & rest & Hb & -> & Hcase).
      eexists _, _, _, s0, rest. split; [reflexivity|].
      rewrite shrunk_if_set_isAllocating, segments_if_set_isAllocating.
      repeat split; auto.
      rewrite forallb_app, spawned_no_serve. reflexivity.
    + right. apply nextId_enter_queued in He as (_ & _ & ->).
      cbn [segments set_waiting]. rewrite segments_if_set_isAllocating.
      split; [|exists []; now rewrite app_nil_r].
      rewrite forallb_app, spawned_no_serve. reflexivity.
  - destruct (decide (c ∈ parked s)); [|discriminate].
    unfold nextId_retry in Hstep. destruct (leftCount (biz s) =? 0).
    + inversion Hstep; subst. right. cbn.
      split; [reflexivity|exists []; now rewrite app_nil_r].
    + destruct (popNextId (biz s)) as [[id bp]|] eqn:Hpop; [|discriminate].
      inversion Hstep; subst; clear Hstep. left. cbn [biz].
      apply popNextId_served in Hpop as (s0 & rest & Hb & -> & Hcase).
      eexists _, _, _, s0, rest. split; [reflexivity|]. repeat split; auto.
Qed.

(** From a state whose buffer satisfies the segment invariant: every ID
    served later carries an ordinal from [ord] on; those of the current
    front segment are at or beyond its cursor; and per segment the IDs
    increase. *)
Lemma served_increasing_from tag acts :
  forall s s' evs ord,
    Forall (action_ok tag) acts ->
    bizTag (biz s) = tag /\ buffer_ok s ->
    run acts s = Some (s', evs) ->
    (forall i o a,
        attributed ord evs !! i = Some (o, a) ->
        (ord <= o)%nat /\
        (o = ord -> forall s0 rest,
            segments (biz s) = s0 :: rest -> cursor s0 <= a)) /\
    increasing_per_segment (attributed ord evs).
Proof.
  induction acts as [|act acts IH]; intros s s' evs ord Hacts Hs Hrun.
  { inversion Hrun; subst. split; [|intros i j o a b _ Hi]; discriminate. }
  cbn [run] in Hrun. inversion Hacts as [|? ? Hact Hacts']; subst.
  destruct (step act s) as [[s1 evs1]|] eqn:Hstep; [|discriminate].
  destruct (run acts s1) as [[s2 evs2]|] eqn:Hrest; [|discriminate].
  inversion Hrun; subst; clear Hrun.
  pose proof (step_buffer_ok _ _ _ _ _ Hact Hs Hstep) as Hs1.
  destruct Hs as [_ [Hsegs _]].
  destruct (step_serves _ _ _ _ Hstep)
    as [(id & retired & evs' & s0 & rest & -> & Hno & Hb & -> & Hcase)
       |(Hno & more & Hmore)].
  - (* the step served [cursor s0] from the front segment [s0] *)
    cbn [app attributed]. rewrite (attributed_skip _ _ _ Hno).
    set (ord' := if retired then S ord else ord).
    destruct (IH s1 s' evs2 ord' Hacts' Hs1 Hrest) as [Hlater Hincr].
    assert (Hord : (ord <= ord')%nat) by (subst ord'; destruct retired; lia).
    rewrite Hb in Hsegs. inversion Hsegs as [|? ? Hs0 _]; subst.
    assert (Hnext : forall i a,
               attributed ord' evs2 !! i = Some (ord, a) -> cursor s0 < a).
    { intros i a Hi. destruct (Hlater i ord a Hi) as [Hle Hfront].
      destruct Hcase as [(-> & _)|(-> & Hs1segs & _)]; subst ord'; [lia|].
      specialize (Hfront eq_refl _ _ Hs1segs).
      rewrite (seg_ok_cursor_advanced s0 Hs0) in Hfront. lia. }
    split.
    + intros [|i] o a Hi; cbn in Hi.
      * inversion Hi; subst. split; [lia|].
        intros _ s0' rest' Hb'. rewrite Hb in Hb'. inversion Hb'; subst. lia.
      * destruct (Hlater i o a Hi) as [Hle _]. split; [lia|].
        intros -> s0' rest' Hb'. rewrite Hb in Hb'. inversion Hb'; subst.
        specialize (Hnext i a Hi). lia.
    + intros [|i] [|j] o a b Hij Hi Hj; cbn in Hi, Hj; try lia.
      * inversion Hi; subst. exact (Hnext j b Hj).
      * apply (Hincr i j o a b); [lia|assumption..].
  - (* the step served nothing, and what it left in front is the same *)
    rewrite (attributed_skip _ _ _ Hno).
    destruct (IH s1 s' evs2 ord Hacts' Hs1 Hrest) as [Hlater Hincr].
    split; [|exact Hincr].
    intros i o a Hi. destruct (Hlater i o a Hi) as [Hle Hfront].
    split; [assumption|]. intros -> s0 rest Hb.
    apply (Hfront eq_refl s0 (rest ++ more)). now rewrite Hmore, Hb.
Qed.

(** When every window the store grants is non-empty, the IDs of one
    segment increase without exception. *)
Lemma served_increasing
    (tag : string) (acts : list Action) (s : Sys) (evs : list Event) :
  Forall (action_ok tag) acts ->
  run acts (initSys tag) = Some (s, evs) ->
  increasing_per_segment (attributed 0 evs).
Proof.
  intros Hacts Hrun.
  exact (proj2 (served_increasing_from tag acts _ _ _ 0%nat Hacts
                  (initSys_buffer_ok tag) Hrun)).
Qed.

(** For instance, two segments of two IDs each. *)
Lemma served_increasing_example :
  exists s evs,
    run [ACall; AFill 0; AFetch 0 (granted 2 2); AFill 0; AResume 0%nat;
         AFill 0; AFetch 0 (granted 4 2); AFill 0; ACall; ACall; ACall]
        (initSys "t") = Some (s, evs) /\
    attributed 0 evs = [(0%nat, 0); (0%nat, 1); (1%nat, 2); (1%nat, 3)] /\
    increasing_per_segment (attributed 0 evs).
Proof.
  destruct (run [ACall; AFill 0; AFetch 0 (granted 2 2); AFill 0; AResume 0%nat;
                 AFill 0; AFetch 0 (granted 4 2); AFill 0; ACall; ACall; ACall]
                (initSys "t"))
    as [[s evs]|] eqn:Hrun.
  - exists s, evs. split; [reflexivity|]. split.
    + vm_compute in Hrun. inversion Hrun. reflexivity.
    + refine (served_increasing "t" _ s evs _ Hrun).
      check_schedule.
  - vm_compute in Hrun. discriminate Hrun.
Defined.

Lemma bounded_kept s0 :
  bounded s0 -> add64 (cursor s0) 1 < right s0 -> bounded (advanced s0).
Proof. intros H _. exact H. Qed.

Lemma newSegment_bounded r b seg :
  reply_typed (bizTag b) r -> newSegment r b = inl seg -> bounded seg.
Proof.
  unfold reply_typed, newSegment, bounded.
  destruct (Data_NextId r (bizTag b)) as [[maxId step] [e|]]; [discriminate|].
  intros [Hm _] Hseg. inversion Hseg; subst. exact Hm.
Qed.

(** A live segment kept after a pop has moved its cursor by one. *)
Lemma live_advanced s0 :
  cursor s0 <> max_int64 -> add64 (cursor s0) 1 < right s0 ->
  live (advanced s0) /\ cursor (advanced s0) = cursor s0 + 1.
Proof.
  intros Hne Hlt. pose proof (cursor_range s0) as [Hlo Hhi].
  assert (Hplus : add64 (cursor s0) 1 = cursor s0 + 1).
  { apply add64_exact. unfold int64 in *. lia. }
  unfold live. rewrite cursor_advance. cbn [right advanced].
  rewrite Hplus in *. lia.
Qed.

(** Whatever the store grants: every ID served later carries an ordinal
    from [ord] on; those of a live current front segment are at or beyond
    its cursor; and per segment the IDs increase, except after the
    largest [int64]. *)
Lemma served_increasing_unless_wrapped_from tag acts :
  forall s s' evs ord,
    Forall (action_typed tag) acts ->
    bizTag (biz s) = tag /\ everywhere bounded s ->
    run acts s = Some (s', evs) ->
    (forall i o a,
        attributed ord evs !! i = Some (o, a) ->
        (ord <= o)%nat /\
        (o = ord -> forall s0 rest,
            segments (biz s) = s0 :: rest -> live s0 -> cursor s0 <= a)) /\
    increasing_unless_wrapped (attributed ord evs).
Proof.
  induction acts as [|act acts IH]; intros s s' evs ord Hacts Hs Hrun.
  { inversion Hrun; subst. split; [|intros i j o a b _ Hi]; discriminate. }
  cbn [run] in Hrun. inversion Hacts as [|? ? Hact Hacts']; subst.
  destruct (step act s) as [[s1 evs1]|] eqn:Hstep; [|discriminate].
  destruct (run acts s1) as [[s2 evs2]|] eqn:Hrest; [|discriminate].
  inversion Hrun; subst; clear Hrun.
  pose proof (step_keeps bounded reply_typed bounded_kept newSegment_bounded
                _ _ _ _ _ Hact Hs Hstep) as Hs1.
  destruct Hs as [_ [Hsegs _]].
  destruct (step_serves _ _ _ _ Hstep)
    as [(id & retired & evs' & s0 & rest & -> & Hno & Hb & -> & Hcase)
       |(Hno & more & Hmore)].
  - (* the step served [cursor s0] from the front segment [s0] *)
    cbn [app attributed]. rewrite (attributed_skip _ _ _ Hno).
    set (ord' := if retired then S ord else ord).
    destruct (IH s1 s' evs2 ord' Hacts' Hs1 Hrest) as [Hlater Hincr].
    rewrite Hb in Hsegs. inversion Hsegs as [|? ? Hs0 _]; subst.
    assert (Hnext : forall i a,
               attributed ord' evs2 !! i = Some (ord, a) ->
               cursor s0 <> max_int64 -> cursor s0 < a).
    { intros i a Hi Hne. destruct (Hlater i ord a Hi) as [Hle Hfront].
      destruct Hcase as [(-> & _)|(-> & Hs1segs & Hkept)]; subst ord'; [lia|].
      destruct (live_advanced s0 Hne Hkept) as [Hlive Hplus].
      specialize (Hfront eq_refl _ _ Hs1segs Hlive). lia. }
    split.
    + intros [|i] o a Hi; cbn in Hi.
      * inversion Hi; subst. split; [lia|].
        intros _ s0' rest' Hb'. rewrite Hb in Hb'. inversion Hb'; subst. lia.
      * destruct (Hlater i o a Hi) as [Hle _].
        split; [subst ord'; destruct retired; lia|].
        intros -> s0' rest' Hb' Hlive. rewrite Hb in Hb'. inversion Hb'; subst.
        assert (Hne : cursor s0' <> max_int64).
        { unfold live in Hlive. unfold bounded, int64 in Hs0. lia. }
        specialize (Hnext i a Hi Hne). lia.
    + intros [|i] [|j] o a b Hij Hi Hj; cbn in Hi, Hj; try lia.
      * inversion Hi; subst.
        destruct (Z.eq_dec (cursor s0) max_int64) as [Heq|Hne]; [now right|].
        left. exact (Hnext j b Hj Hne).
      * apply (Hincr i j o a b); [lia|assumption..].
  - (* the step served nothing, and what it left in front is the same *)
    rewrite (attributed_skip _ _ _ Hno).
    destruct (IH s1 s' evs2 ord Hacts' Hs1 Hrest) as [Hlater Hincr].
    split; [|exact Hincr].
    intros i o a Hi. destruct (Hlater i o a Hi) as [Hle Hfront].
    split; [assumption|]. intros -> s0 rest Hb.
    apply (Hfront eq_refl s0 (rest ++ more)). now rewrite Hmore, Hb.
Qed.

(** C2, with its exception.  The store's answers being [int64] values,
    of any two IDs the allocator of a tag serves from the same segment the
    one served first is the smaller, unless it is the largest [int64],
    [2^63 - 1], after which the cursor wraps around. *)
Theorem served_increasing_unless_wrapped
    (tag : string) (acts : list Action) (s : Sys) (evs : list Event) :
  Forall (action_typed tag) acts ->
  run acts (initSys tag) = Some (s, evs) ->
  increasing_unless_wrapped (attributed 0 evs).
Proof.
  intros Hacts Hrun.
  exact (proj2 (served_increasing_unless_wrapped_from tag acts _ _ _ 0%nat Hacts
                  (initSys_everywhere bounded tag) Hrun)).
Qed.

Lemma served_increasing_unless_wrapped_witness :
  exists s evs,
    run [ACall; AFill 0; AFetch 0 (granted 2 2); AFill 0; AResume 0%nat;
         AFill 0; AFetch 0 (granted 4 2); AFill 0; ACall; ACall; ACall]
        (initSys "t") = Some (s, evs) /\
    attributed 0 evs = [(0%nat, 0); (0%nat, 1); (1%nat, 2); (1%nat, 3)] /\
    increasing_unless_wrapped (attributed 0 evs).
Proof.
  destruct (run [ACall; AFill 0; AFetch 0 (granted 2 2); AFill 0; AResume 0%nat;
                 AFill 0; AFetch 0 (granted 4 2); AFill 0; ACall; ACall; ACall]
                (initSys "t"))
    as [[s evs]|] eqn:Hrun.
  - exists s, evs. split; [reflexivity|]. split.
    + vm_compute in Hrun. inversion Hrun. reflexivity.
    + refine (served_increasing_unless_wrapped "t" _ s evs _ Hrun).
      check_schedule.
  - vm_compute in Hrun. discriminate Hrun.
Defined.

(** The claim of C2 without the exception fails.  A store row with step -1
    answers the advance with [(2^63 - 2, -1)]; the segment made of it has
    [left = 2^63 - 1] and [right = 2^63 - 2].  The first pop returns
    [2^63 - 1]; [nextId+1] wraps to [-2^63], which is below [right], so
    the segment stays; the second pop, from the same segment, returns
    [-2^63]. *)
Lemma served_increasing_wraps :
  exists s evs,
    run [ACall; AFill 0; AFetch 0 (granted 9223372036854775806 (-1)); AFill 0;
         AResume 0%nat; ACall]
        (initSys "t") = Some (s, evs) /\
    attributed 0 evs
    = [(0%nat, 9223372036854775807); (0%nat, -9223372036854775808)] /\
    ~ increasing_per_segment (attributed 0 evs).
Proof.
  eexists _, _. split; [vm_compute; reflexivity|]. split; [reflexivity|].
  intros H. specialize (H 0%nat 1%nat 0%nat _ _ ltac:(lia) eq_refl eq_refl).
  vm_compute in H. discriminate H.
Qed.

(** ** Wakeup handles: no channel is closed twice *)

Lemma close_all_closes cs : forall cl cl',
  close_all cs cl = Some cl' -> cl' = list_to_set cs ∪ cl.
Proof.
  induction cs as [|c cs IH]; intros cl cl'; cbn [close_all].
  - intros H; inversion H; subst. cbn. now rewrite (left_id_L ∅ (∪)).
  - destruct (decide (c ∈ cl)); [discriminate|].
    intros H%IH. subst. rewrite list_to_set_cons.
    rewrite (assoc_L (∪) (list_to_set cs)). f_equal. apply (comm_L (∪)).
Qed.

Lemma close_all_open cs : forall cl,
  NoDup cs -> (forall c, c ∈ cs -> c ∉ cl) -> is_Some (close_all cs cl).
Proof.
  induction cs as [|c cs IH]; intros cl Hnd Hopen; cbn [close_all]; [eauto|].
  inversion Hnd as [|? ? Hc Hnd']; subst.
  destruct (decide (c ∈ cl)) as [Hin|_].
  - exfalso. apply (Hopen c); [left|assumption].
  - apply IH; [assumption|]. intros c' Hc'.
    intros [->%elem_of_singleton|Hin]%elem_of_union; [contradiction|].
    apply (Hopen c'); [now right|assumption].
Qed.

Lemma wakeup_closes cl b cl' b' :
  wakeup cl b = Some (cl', b') ->
  cl' = list_to_set (waiting b) ∪ cl /\ b' = set_waiting [] b.
Proof.
  unfold wakeup. destruct (close_all (waiting b) cl) as [cl1|] eqn:Hc;
    [|discriminate].
  intros H; inversion H; subst. split; [|reflexivity].
  now apply close_all_closes.
Qed.

Lemma wakeup_total s :
  handles_ok s -> is_Some (wakeup (closed s) (biz s)).
Proof.
  intros (Hnd & Hopen & _). unfold wakeup.
  destruct (close_all_open (waiting (biz s)) (closed s) Hnd) as [cl' ->];
    [|eauto].
  intros c Hc. now apply Hopen.
Qed.

Lemma initSys_handles_ok tag : handles_ok (initSys tag).
Proof.
  unfold handles_ok; cbn. split; [constructor|].
  split; intros c Hc; [inversion Hc|now apply not_elem_of_empty in Hc].
Qed.

Lemma fill_at_handles_ok i answer s s' evs :
  handles_ok s -> fill_at i answer s = Some (s', evs) -> handles_ok s'.
Proof.
  intros Hok (f & f' & cl' & b' & Hi & Hf & ->)%fill_at_inv.
  destruct Hok as (Hnd & Hopen & Hmade).
  assert (Hwake : forall b0 cl1 b1,
             waiting b0 = waiting (biz s) ->
             wakeup (closed s) b0 = Some (cl1, b1) ->
             waiting b1 = [] /\ forall c, c ∈ cl1 -> (c < made s)%nat).
  { intros b0 cl1 b1 Hw0 (-> & ->)%wakeup_closes. split; [reflexivity|].
    intros c Hc. rewrite Hw0 in Hc.
    apply elem_of_union in Hc as [Hc%elem_of_list_to_set|Hc];
      [now apply Hopen|now apply Hmade]. }
  unfold handles_ok. cbn [biz closed made].
  destruct f as [n|n|n|seg], answer as [r|]; cbn [fillSegments_step] in Hf;
    try discriminate Hf.
  - destruct (length (segments (biz s)) <=? 1)%nat; inversion Hf; subst;
      repeat split; auto; apply Hopen; auto.
  - destruct (newSegment r (biz s)); [|destruct (3 <? add64 n 1)];
      inversion Hf; subst; repeat split; auto; apply Hopen; auto.
  - destruct (wakeup (closed s) (biz s)) as [[cl1 b1]|] eqn:Hw; [|discriminate].
    destruct (Hwake _ _ _ eq_refl Hw) as [Hnil Hlt].
    inversion Hf; subst. cbn [waiting set_isAllocating]. rewrite Hnil.
    split; [constructor|]. split; [intros c Hc; inversion Hc|exact Hlt].
  - destruct (wakeup (closed s) _) as [[cl1 b1]|] eqn:Hw; [|discriminate].
    destruct (Hwake (set_segments (segments (biz s) ++ [seg]) (biz s))
                cl1 b1 eq_refl Hw) as [Hnil Hlt].
    destruct (1 <? length (segments b1))%nat; inversion Hf; subst;
      cbn [waiting set_isAllocating]; rewrite Hnil;
      (split; [constructor|]); (split; [intros c Hc; inversion Hc|exact Hlt]).
Qed.

Lemma step_handles_ok a s s' evs :
  handles_ok s -> step a s = Some (s', evs) -> handles_ok s'.
Proof.
  intros Hok Hstep. destruct a as [|c|i|i r]; cbn [step] in Hstep;
    [| |eapply fill_at_handles_ok; eassumption..].
  - destruct Hok as (Hnd & Hopen & Hmade).
    destruct (nextId_enter (made s) (biz s)) as [[[b1 spawn] out]|] eqn:He;
      [|discriminate].
    apply nextId_enter_frame in He as (_ & _ & _ & _ & _ & Hw).
    unfold handles_ok.
    destruct out; inversion Hstep; subst; clear Hstep;
      cbn [biz closed made]; rewrite Hw.
    + repeat split; auto; apply Hopen; auto.
    + split; [|split].
      * apply NoDup_app. split; [assumption|]. split; [|apply NoDup_singleton].
        intros c Hc ->%list_elem_of_singleton.
        destruct (Hopen _ Hc) as [_ Hlt]. lia.
      * intros c [Hc| ->%list_elem_of_singleton]%elem_of_app.
        -- destruct (Hopen _ Hc). split; [assumption|lia].
        -- split; [|lia]. intros Hc%Hmade. lia.
      * intros c Hc%Hmade. lia.
  - destruct Hok as (Hnd & Hopen & Hmade).
    destruct (decide (c ∈ parked s)); [|discriminate].
    destruct (nextId_retry (biz s)) as [[b1 [id err]]|] eqn:He; [|discriminate].
    apply nextId_retry_frame in He as (_ & _ & _ & Hw & _).
    inversion Hstep; subst; clear Hstep. unfold handles_ok.
    cbn [biz closed made]. rewrite Hw. repeat split; auto; apply Hopen; auto.
Qed.

Lemma run_handles_ok acts s s' evs :
  handles_ok s -> run acts s = Some (s', evs) -> handles_ok s'.
Proof.
  intros Hs Hrun.
  apply (run_invariant handles_ok (fun _ => True)
           (fun a s0 s1 evs0 _ => step_handles_ok a s0 s1 evs0)
           acts s s' evs (Forall_True_actions acts) Hs Hrun).
Qed.

(** No step panics: a caller can always enter, a parked caller can
    always resume, and a refill goroutine can always take its next step,
    given the store's answer exactly when it asks for one. *)
Lemma step_total s :
  handles_ok s ->
  is_Some (step ACall s) /\
  (forall c, c ∈ parked s -> is_Some (step (AResume c) s)) /\
  (forall i f, fillers s !! i = Some f ->
     match f with
     | FFetch _ => forall r, is_Some (step (AFetch i r) s)
     | _ => is_Some (step (AFill i) s)
     end).
Proof.
  intros Hok. split; [|split].
  - cbn [step]. destruct (nextId_enter_total (made s) (biz s))
      as [[[b1 spawn] out] ->]. destruct out; eauto.
  - intros c Hc. cbn [step]. destruct (decide (c ∈ parked s)); [|contradiction].
    destruct (nextId_retry_total (biz s)) as [[b1 [id err]] ->]. eauto.
  - intros i f Hi. destruct f as [n|n|n|seg]; [|intros r|..];
      cbn [step]; unfold fill_at; rewrite Hi; cbn [fillSegments_step].
    + destruct (length (segments (biz s)) <=? 1)%nat; eauto.
    + destruct (newSegment r (biz s)); [|destruct (3 <? add64 n 1)]; eauto.
    + destruct (wakeup_total s Hok) as [[cl1 b1] ->]. eauto.
    + assert (Hw : is_Some (wakeup (closed s)
                     (set_segments (segments (biz s) ++ [seg]) (biz s)))).
      { destruct (wakeup_total s Hok) as [[cl1 b1] Hw]. revert Hw.
        unfold wakeup. cbn [waiting set_segments].
        destruct (close_all (waiting (biz s)) (closed s)); [eauto|discriminate]. }
      destruct Hw as [[cl1 b1] ->].
      destruct (1 <? length (segments b1))%nat; eauto.
Qed.

(** X1.  Nothing that can happen after a cold start panics.  In every
    state the allocator of a tag can reach, a new caller gets through the
    first critical section of [nextId], every parked caller gets through
    the second, and the refill goroutine gets through its next step
    whatever the store answers: no pop from an empty buffer, no channel
    closed twice. *)
Lemma reachable_never_panics tag acts s evs :
  run acts (initSys tag) = Some (s, evs) ->
  is_Some (step ACall s) /\
  (forall c, c ∈ parked s -> is_Some (step (AResume c) s)) /\
  (forall i f, fillers s !! i = Some f ->
     match f with
     | FFetch _ => forall r, is_Some (step (AFetch i r) s)
     | _ => is_Some (step (AFill i) s)
     end).
Proof.
  intros Hrun. apply step_total.
  exact (run_handles_ok _ _ _ _ (initSys_handles_ok tag) Hrun).
Qed.

(** A caller is parked and the refill goroutine holds a segment. *)
Lemma reachable_never_panics_witness :
  exists s evs,
    run [ACall; AFill 0; AFetch 0 (granted 100 100)] (initSys "t")
    = Some (s, evs) /\
    is_Some (step ACall s) /\ is_Some (step (AResume 0%nat) s) /\
    is_Some (step (AFill 0) s).
Proof.
  destruct (run [ACall; AFill 0; AFetch 0 (granted 100 100)] (initSys "t"))
    as [[s evs]|] eqn:Hrun; [|vm_compute in Hrun; discriminate Hrun].
  exists s, evs. split; [reflexivity|].
  destruct (reachable_never_panics "t" _ s evs Hrun) as (Hcall & Hres & Hfill).
  assert (Hs : parked s = {[0%nat]} /\
               fillers s = [FAppend (mkSegment 0 0 100)])
    by (vm_compute in Hrun; inversion Hrun; split; reflexivity).
  destruct Hs as [Hp Hf].
  split; [exact Hcall|]. split.
  - apply Hres. rewrite Hp. now apply elem_of_singleton.
  - apply (Hfill 0%nat (FAppend (mkSegment 0 0 100))). now rewrite Hf.
Defined.

(** ** The refill goroutine's failure counter *)

Lemma advances_app evs1 evs2 :
  advances (evs1 ++ evs2) = advances evs1 ++ advances evs2.
Proof.
  induction evs1 as [|e evs1 IH]; [reflexivity|].
  destruct e; cbn [app advances]; rewrite ?IH; reflexivity.
Qed.

Lemma failures_in_a_row_snoc oks : forall acc ok,
  failures_in_a_row acc (oks ++ [ok])
  = if ok then 0 else failures_in_a_row acc oks + 1.
Proof.
  induction oks as [|o oks IH]; intros acc ok.
  - now destruct ok.
  - destruct o; cbn [app failures_in_a_row]; apply IH.
Qed.

Lemma failures_in_a_row_bound oks : forall acc,
  0 <= acc -> 0 <= failures_in_a_row acc oks <= acc + Z.of_nat (length oks).
Proof.
  induction oks as [|o oks IH]; intros acc Hacc; cbn [failures_in_a_row length].
  - lia.
  - destruct o; [specialize (IH 0)|specialize (IH (acc + 1))]; lia.
Qed.

(** A step of a caller while a refill goroutine runs: it starts no second
    one, and shows no store call and no exit. *)
Lemma caller_step_quiet a s s1 evs1 :
  match a with ACall | AResume _ => True | _ => False end ->
  isAllocating (biz s) = true ->
  step a s = Some (s1, evs1) ->
  fillers s1 = fillers s /\ advances evs1 = [] /\
  existsb is_exit evs1 = false.
Proof.
  intros Ha Hflag Hstep. destruct a as [|c|i|i r]; try contradiction;
    cbn [step] in Hstep.
  - destruct (nextId_enter (made s) (biz s)) as [[[b1 spawn] out]|] eqn:He;
      [|discriminate].
    apply nextId_enter_frame in He as (_ & _ & Hsp & _).
    rewrite Hflag, andb_false_r in Hsp. subst spawn.
    destruct out; inversion Hstep; subst; repeat split.
  - destruct (decide (c ∈ parked s)); [|discriminate].
    destruct (nextId_retry (biz s)) as [[b1 [id [msg|]]]|]; [| |discriminate];
      inversion Hstep; subst; repeat split.
Qed.

(** What a step does to the goroutine and its counter; and what holds
    when the step is the goroutine's last. *)
Lemma step_refilling a s s1 pre evs1 :
  single_flight s -> refilling s pre ->
  step a s = Some (s1, evs1) ->
  if existsb is_exit evs1
  then fillers s1 = [] /\ isAllocating (biz s1) = false /\
       ((2 <= length (segments (biz s1)))%nat \/
        failures_in_a_row 0 (advances pre) = 4 /\
        a = AFill 0 /\ waiting (biz s1) = [] /\
        closed s1 = list_to_set (waiting (biz s)) ∪ closed s)
  else refilling s1 (pre ++ evs1).
Proof.
  intros Hinv (f & Hfs & Hcount & Hf) Hstep.
  assert (Hflag : isAllocating (biz s) = true).
  { apply single_flight_bound in Hinv as (_ & _ & Hiff). apply Hiff.
    now rewrite Hfs. }
  assert (Hcaller : match a with ACall | AResume _ => True | _ => False end ->
                    if existsb is_exit evs1 then False else refilling s1 (pre ++ evs1)).
  { intros Ha.
    destruct (caller_step_quiet a s s1 evs1 Ha Hflag Hstep) as (Hf1 & Hadv & ->).
    exists f. rewrite Hf1, advances_app, Hadv, app_nil_r. auto. }
  destruct a as [|c|i|i r]; cbn [step] in Hstep;
    [specialize (Hcaller I); now destruct (existsb is_exit evs1)..| |].
  all: clear Hcaller;
    apply fill_at_inv in Hstep as (f0 & f' & cl' & b' & Hi & Hstep & ->);
    destruct (single_flight_lookup s i f0 Hinv Hi) as (-> & Hfs0 & _ & Hlen);
    rewrite Hfs in Hfs0; inversion Hfs0; subst f0; clear Hfs0;
    cbn [biz fillers closed]; rewrite Hfs;
    destruct f as [n|n|n|seg]; cbn [fillSegments_step] in Hstep;
    try discriminate Hstep; cbn [failTimes_of] in Hcount.
  - (* the look at the buffer *)
    destruct (Nat.leb_spec (length (segments (biz s))) 1); [|lia].
    injection Hstep as <- <- <- <-. cbn. exists (FFetch n).
    rewrite app_nil_r. auto.
  - (* the give-up *)
    destruct (wakeup (closed s) (biz s)) as [[cl1 b1]|] eqn:Hw; [|discriminate].
    apply wakeup_closes in Hw as [-> ->]. injection Hstep as <- <- <- <-. cbn.
    repeat split. right. rewrite <- Hcount. repeat split. exact Hf.
  - (* the append *)
    destruct (wakeup (closed s) _) as [[cl1 b1]|] eqn:Hw; [|discriminate].
    apply wakeup_closes in Hw as [-> ->].
    cbn [segments set_waiting set_segments] in Hstep.
    destruct (Nat.ltb_spec 1 (length (segments (biz s) ++ [seg])));
      injection Hstep as <- <- <- <-; cbn.
    + repeat split. left. lia.
    + exists (FLoop 0). rewrite advances_app. cbn. rewrite app_nil_r.
      repeat split; lia.
  - (* the store call *)
    destruct (newSegment r (biz s)) as [seg|e].
    + injection Hstep as <- <- <- <-. cbn. exists (FAppend seg).
      rewrite advances_app. cbn [advances].
      now rewrite failures_in_a_row_snoc.
    + assert (Hn1 : add64 n 1 = n + 1).
      { apply add64_exact. unfold int64, min_int64, max_int64. lia. }
      rewrite Hn1 in Hstep.
      destruct (Z.ltb_spec 3 (n + 1)); injection Hstep as <- <- <- <-; cbn;
        [exists (FGiveUp (n + 1))|exists (FLoop (n + 1))];
        rewrite advances_app; cbn [advances];
        rewrite failures_in_a_row_snoc, <- Hcount; cbn [failTimes_of];
        repeat split; lia.
Qed.

Lemma run_refilling acts : forall s pre s1 evs,
  single_flight s -> refilling s pre ->
  run acts s = Some (s1, evs) ->
  existsb is_exit evs = false ->
  single_flight s1 /\ refilling s1 (pre ++ evs).
Proof.
  induction acts as [|a acts IH]; intros s pre s1 evs Hinv Hre Hrun Hquiet.
  - inversion Hrun; subst. now rewrite app_nil_r.
  - cbn [run] in Hrun.
    destruct (step a s) as [[s' evs1]|] eqn:Hstep; [|discriminate].
    destruct (run acts s') as [[s2 evs2]|] eqn:Hrest; [|discriminate].
    inversion Hrun; subst; clear Hrun.
    rewrite existsb_app in Hquiet. apply orb_false_iff in Hquiet as [Hq1 Hq2].
    pose proof (step_refilling a s s' pre evs1 Hinv Hre Hstep) as Hre'.
    rewrite Hq1 in Hre'.
    rewrite app_assoc.
    exact (IH s' (pre ++ evs1) s1 evs2
             (step_single_flight _ _ _ _ Hinv Hstep) Hre' Hrest Hq2).
Qed.

(** What a step shows of the store is what the store answered: a call of
    the store shows its outcome, and no other step shows one. *)
Lemma step_advances a s s' evs :
  step a s = Some (s', evs) ->
  advances evs = store_outcomes (bizTag (biz s)) [a].
Proof.
  intros Hstep. destruct a as [|c|i|i r]; cbn [step store_outcomes] in *.
  - destruct (nextId_enter (made s) (biz s)) as [[[b1 spawn] out]|];
      [|discriminate].
    destruct out, spawn; injection Hstep as <- <-; reflexivity.
  - destruct (decide (c ∈ parked s)) as [Hin|]; [|discriminate].
    destruct (nextId_retry (biz s)) as [[b1 [id [e|]]]|]; [| |discriminate];
      injection Hstep as <- <-; reflexivity.
  - apply fill_at_inv in Hstep as (f & f' & cl' & b' & _ & Hf & _).
    destruct f as [n|n|n|seg]; cbn [fillSegments_step] in Hf;
      try discriminate Hf.
    + destruct (length (segments (biz s)) <=? 1)%nat;
        injection Hf as <- <- <- <-; reflexivity.
    + destruct (wakeup (closed s) (biz s)) as [[cl1 b1]|]; [|discriminate].
      injection Hf as <- <- <- <-. reflexivity.
    + destruct (wakeup (closed s) _) as [[cl1 b1]|]; [|discriminate].
      destruct (1 <? length (segments b1))%nat; injection Hf as <- <- <- <-;
        reflexivity.
  - apply fill_at_inv in Hstep as (f & f' & cl' & b' & _ & Hf & _).
    destruct f as [n|n|n|seg]; cbn [fillSegments_step] in Hf;
      try discriminate Hf.
    unfold newSegment, store_ok in *.
    destruct (Data_NextId r (bizTag (biz s))) as [[maxId stp] [e|]];
      [destruct (3 <? add64 n 1)|]; injection Hf as <- <- <- <-; reflexivity.
Qed.

Lemma store_outcomes_cons tag a acts :
  store_outcomes tag (a :: acts)
  = store_outcomes tag [a] ++ store_outcomes tag acts.
Proof. now destruct a. Qed.

(** Along a schedule the store calls shown are, one for one and in
    order, the answers of the store that the schedule carries. *)
Lemma run_advances acts : forall s s' evs,
  run acts s = Some (s', evs) ->
  advances evs = store_outcomes (bizTag (biz s)) acts.
Proof.
  induction acts as [|a acts IH]; intros s s' evs Hrun.
  - now inversion Hrun.
  - cbn [run] in Hrun.
    destruct (step a s) as [[s1 evs1]|] eqn:Hstep; [|discriminate].
    destruct (run acts s1) as [[s2 evs2]|] eqn:Hrest; [|discriminate].
    inversion Hrun; subst; clear Hrun.
    rewrite advances_app, store_outcomes_cons.
    rewrite (step_advances _ _ _ _ Hstep), (IH _ _ _ Hrest).
    now rewrite (step_bizTag _ _ _ _ Hstep).
Qed.

(** C8.  Take a refill goroutine from its start to any point before its
    end, along a schedule that carries the store's answers.  Its
    [failTimes] is the number of failed advances in a row that those
    answers end with, and the store calls it shows are those answers.
    The head of the loop passes the counter on as it is.  A call of the
    store that fails adds one to the counter; one that succeeds leaves the
    goroutine holding the segment granted, which its next step appends to
    the buffer, waking the queued callers, before it goes on with
    [failTimes] at 0 or, the buffer holding 2 segments, ends.  Once the
    failures in a row exceed 3 they are 4, and the goroutine's next step
    closes every queued handle, empties the queue, clears [isAllocating]
    and ends.  And whenever the goroutine ends, the buffer holds at least
    2 segments or the store was asked at least 4 times. *)
Theorem fillSegments_failure_budget
    (s0 : Sys) (acts : list Action) (s1 : Sys) (evs : list Event) :
  single_flight s0 -> handles_ok s0 -> fillers s0 = [FLoop 0] ->
  run acts s0 = Some (s1, evs) ->
  existsb is_exit evs = false ->
  (exists f, fillers s1 = [f] /\
             failTimes_of f
             = failures_in_a_row 0 (store_outcomes (bizTag (biz s0)) acts)) /\
  advances evs = store_outcomes (bizTag (biz s0)) acts /\
  (forall n s2 evs2,
     fillers s1 = [FLoop n] ->
     step (AFill 0) s1 = Some (s2, evs2) ->
     fillers s2 = [FFetch n] /\ biz s2 = biz s1) /\
  (forall n r s2 evs2,
     fillers s1 = [FFetch n] ->
     step (AFetch 0 r) s1 = Some (s2, evs2) ->
     n = failures_in_a_row 0 (store_outcomes (bizTag (biz s0)) acts) /\
     segments (biz s2) = segments (biz s1) /\
     match Data_NextId r (bizTag (biz s0)) with
     | (_, _, Some _) =>
         fillers s2 = [if 3 <? n + 1 then FGiveUp (n + 1) else FLoop (n + 1)]
     | (maxId, stp, None) =>
         fillers s2 = [FAppend (mkSegment 0 (sub64 maxId stp) maxId)]
     end) /\
  (forall seg s2 evs2,
     fillers s1 = [FAppend seg] ->
     step (AFill 0) s1 = Some (s2, evs2) ->
     segments (biz s2) = segments (biz s1) ++ [seg] /\
     waiting (biz s2) = [] /\
     (forall c, c ∈ waiting (biz s1) -> c ∈ closed s2) /\
     (fillers s2 = [FLoop 0] /\ isAllocating (biz s2) = true /\
      (length (segments (biz s2)) <= 1)%nat \/
      fillers s2 = [] /\ isAllocating (biz s2) = false /\
      (2 <= length (segments (biz s2)))%nat)) /\
  (3 < failures_in_a_row 0 (store_outcomes (bizTag (biz s0)) acts) ->
   failures_in_a_row 0 (store_outcomes (bizTag (biz s0)) acts) = 4 /\
   exists s2 evs2,
     step (AFill 0) s1 = Some (s2, evs2) /\
     existsb is_exit evs2 = true /\
     fillers s2 = [] /\ isAllocating (biz s2) = false /\
     waiting (biz s2) = [] /\
     (forall c, c ∈ waiting (biz s1) -> c ∈ closed s2)) /\
  (forall a s2 evs2,
     step a s1 = Some (s2, evs2) ->
     existsb is_exit evs2 = true ->
     fillers s2 = [] /\ isAllocating (biz s2) = false /\
     ((2 <= length (segments (biz s2)))%nat \/
      (4 <= length (store_outcomes (bizTag (biz s0)) acts))%nat)).
Proof.
  intros Hinv0 Hh0 Hf0 Hrun Hquiet.
  assert (Hre0 : refilling s0 []).
  { exists (FLoop 0). repeat split; [assumption|lia..]. }
  destruct (run_refilling acts s0 [] s1 evs Hinv0 Hre0 Hrun Hquiet)
    as [Hinv1 Hre1]. cbn [app] in Hre1.
  pose proof (run_handles_ok _ _ _ _ Hh0 Hrun) as Hh1.
  pose proof (run_advances _ _ _ _ Hrun) as Hadv.
  assert (Htag : bizTag (biz s1) = bizTag (biz s0)).
  { apply (run_invariant (fun s => bizTag (biz s) = bizTag (biz s0))
             (fun _ => True)
             (fun a sa sb evsb _ Ha Hs =>
                eq_trans (step_bizTag a sa sb evsb Hs) Ha)
             acts s0 s1 evs (Forall_True_actions acts) eq_refl Hrun). }
  assert (Hexit : forall a s2 evs2,
             step a s1 = Some (s2, evs2) ->
             existsb is_exit evs2 = true ->
             fillers s2 = [] /\ isAllocating (biz s2) = false /\
             ((2 <= length (segments (biz s2)))%nat \/
              failures_in_a_row 0 (advances evs) = 4 /\
              a = AFill 0 /\ waiting (biz s2) = [] /\
              closed s2 = list_to_set (waiting (biz s1)) ∪ closed s1)).
  { intros a s2 evs2 Hstep Hex.
    pose proof (step_refilling a s1 s2 evs evs2 Hinv1 Hre1 Hstep) as H.
    now rewrite Hex in H. }
  destruct Hre1 as (f & Hf1 & Hcount & Hbound).
  rewrite Hadv in Hcount, Hexit.
  split; [now exists f|]. split; [exact Hadv|].
  split; [|split; [|split; [|split]]].
  - (* the head of the loop *)
    intros n s2 evs2 Hfn Hstep. rewrite Hf1 in Hfn. inversion Hfn; subst f.
    cbn [step] in Hstep. unfold fill_at in Hstep. rewrite Hf1 in Hstep.
    cbn [lookup list_lookup fillSegments_step] in Hstep.
    assert (Hlen : (length (segments (biz s1)) <= 1)%nat)
      by (unfold single_flight in Hinv1; rewrite Hf1 in Hinv1; apply Hinv1).
    apply Nat.leb_le in Hlen. rewrite Hlen in Hstep.
    injection Hstep as <- <-. split; reflexivity.
  - (* one call of the store *)
    intros n r s2 evs2 Hfn Hstep. rewrite Hf1 in Hfn. inversion Hfn; subst f.
    cbn [failTimes_of] in Hcount. split; [exact Hcount|].
    cbn [step] in Hstep. unfold fill_at in Hstep. rewrite Hf1 in Hstep.
    cbn [lookup list_lookup fillSegments_step] in Hstep.
    assert (Hn1 : add64 n 1 = n + 1).
    { apply add64_exact. unfold int64, min_int64, max_int64. lia. }
    rewrite Hn1 in Hstep. unfold newSegment in Hstep. rewrite Htag in Hstep.
    destruct (Data_NextId r (bizTag (biz s0))) as [[maxId stp] [e|]];
      [destruct (3 <? n + 1)|]; injection Hstep as <- <-; split; reflexivity.
  - (* the append *)
    intros seg s2 evs2 Hfa Hstep. rewrite Hf1 in Hfa. inversion Hfa; subst f.
    cbn [step] in Hstep. unfold fill_at in Hstep. rewrite Hf1 in Hstep.
    cbn [lookup list_lookup fillSegments_step] in Hstep.
    destruct (wakeup (closed s1) _) as [[cl1 b1]|] eqn:Hw; [|discriminate].
    pose proof (wakeup_closes _ _ _ _ Hw) as [Hcl _].
    apply wakeup_frame in Hw as (Hs & Hflag & _ & Hq).
    cbn [segments set_segments isAllocating waiting] in Hs, Hflag, Hcl.
    assert (Hrunning : isAllocating (biz s1) = true).
    { apply single_flight_bound in Hinv1 as (_ & _ & Hiff). apply Hiff.
      now rewrite Hf1. }
    assert (Hwoken : forall c, c ∈ waiting (biz s1) -> c ∈ cl1).
    { intros c Hc. rewrite Hcl. apply elem_of_union. left.
      now apply elem_of_list_to_set. }
    destruct (Nat.ltb_spec 1 (length (segments b1))) as [Hfull|Hlow];
      injection Hstep as <- <-;
      cbn [biz fillers closed segments waiting isAllocating set_isAllocating];
      rewrite Hs in *; (split; [reflexivity|]); (split; [exact Hq|]);
      (split; [exact Hwoken|]).
    + right. repeat split. lia.
    + left. split; [reflexivity|]. split; [now rewrite Hflag|lia].
  - (* the give-up *)
    intros Hover. rewrite <- Hcount in Hover |- *.
    destruct f as [n|n|n|seg]; cbn [failTimes_of] in *; try lia.
    split; [assumption|].
    destruct (step_total s1 Hh1) as (_ & _ & Hfill).
    specialize (Hfill 0%nat (FGiveUp n)). rewrite Hf1 in Hfill.
    destruct (Hfill eq_refl) as [[s2 evs2] Hstep].
    assert (Hex : existsb is_exit evs2 = true).
    { revert Hstep. cbn [step]. unfold fill_at. rewrite Hf1.
      cbn [lookup list_lookup fillSegments_step].
      destruct (wakeup (closed s1) (biz s1)) as [[cl1 b1]|]; [|discriminate].
      intros H; inversion H; subst. reflexivity. }
    destruct (Hexit _ _ _ Hstep Hex) as (Hnone & Hflag & Hcase).
    exists s2, evs2. repeat split; try assumption.
    + destruct Hcase as [Hlen|(_ & _ & Hw & _)]; [|assumption].
      exfalso. revert Hstep Hlen. cbn [step]. unfold fill_at. rewrite Hf1.
      cbn [lookup list_lookup fillSegments_step].
      destruct (wakeup (closed s1) (biz s1)) as [[cl1 b1]|] eqn:Hw;
        [|discriminate].
      apply wakeup_frame in Hw as (Hsegs & _).
      intros H; inversion H; subst. cbn [biz segments set_isAllocating].
      rewrite Hsegs. unfold single_flight in Hinv1. rewrite Hf1 in Hinv1. lia.
    + intros c Hc. revert Hstep. cbn [step]. unfold fill_at. rewrite Hf1.
      cbn [lookup list_lookup fillSegments_step].
      destruct (wakeup (closed s1) (biz s1)) as [[cl1 b1]|] eqn:Hw;
        [|discriminate].
      apply wakeup_closes in Hw as [-> _].
      intros H; inversion H; subst. cbn [closed].
      apply elem_of_union. left. now apply elem_of_list_to_set.
  - (* the end *)
    intros a s2 evs2 Hstep Hex.
    destruct (Hexit _ _ _ Hstep Hex) as (Hnone & Hflag & [Hlen|(H4 & _)]).
    + auto.
    + repeat split; try assumption. right.
      pose proof (failures_in_a_row_bound
                    (store_outcomes (bizTag (biz s0)) acts) 0 ltac:(lia)).
      lia.
Qed.

(** A goroutine that starts with one caller parked: the store fails
    twice and then grants [0, 100), which resets the count and is
    appended; the store then fails four times in a row, and the goroutine
    gives up and ends. *)
Lemma fillSegments_failure_budget_witness :
  let start :=
    mkSys (mkBizAlloc "t" [] true [0%nat]) [FLoop 0] ∅ {[0%nat]} 1%nat in
  let first :=
    [AFill 0; AFetch 0 refused; AFill 0; AFetch 0 refused;
     AFill 0; AFetch 0 (granted 100 100)] in
  let second :=
    [AFill 0; AFill 0; AFetch 0 refused; AFill 0; AFetch 0 refused;
     AFill 0; AFetch 0 refused; AFill 0; AFetch 0 refused] in
  (exists s1 evs s2 evs2,
      run first start = Some (s1, evs) /\
      store_outcomes "t" first = [false; false; true] /\
      fillers s1 = [FAppend (mkSegment 0 0 100)] /\
      failures_in_a_row 0 (store_outcomes "t" first) = 0 /\
      step (AFill 0) s1 = Some (s2, evs2) /\
      segments (biz s2) = [mkSegment 0 0 100] /\ fillers s2 = [FLoop 0]) /\
  (exists s1 evs s2 evs2,
      run (first ++ second) start = Some (s1, evs) /\
      store_outcomes "t" (first ++ second)
      = [false; false; true; false; false; false; false] /\
      fillers s1 = [FGiveUp 4] /\
      step (AFill 0) s1 = Some (s2, evs2) /\
      fillers s2 = [] /\ isAllocating (biz s2) = false /\
      waiting (biz s2) = []).
Proof.
  intros start first second.
  assert (Hsf : single_flight start)
    by (unfold single_flight; cbn; split; [reflexivity|lia]).
  assert (Hh : handles_ok start).
  { unfold handles_ok; cbn. split; [apply NoDup_singleton|].
    split; intros c Hc.
    - apply list_elem_of_singleton in Hc as ->.
      split; [apply not_elem_of_empty|lia].
    - now apply not_elem_of_empty in Hc. }
  split.
  - destruct (run first start) as [[s1 evs]|] eqn:Hrun;
      [|vm_compute in Hrun; discriminate Hrun].
    assert (Hs1 : existsb is_exit evs = false /\
                  fillers s1 = [FAppend (mkSegment 0 0 100)] /\
                  segments (biz s1) = [])
      by (vm_compute in Hrun; inversion Hrun; repeat split).
    destruct Hs1 as (Hquiet & Hf1 & Hb1).
    destruct (fillSegments_failure_budget start first s1 evs Hsf Hh eq_refl
                Hrun Hquiet) as ((f & Hf & Hcount) & _ & _ & _ & Happend & _).
    rewrite Hf1 in Hf. inversion Hf; subst f. cbn [failTimes_of] in Hcount.
    destruct (step (AFill 0) s1) as [[s2 evs2]|] eqn:Hstep.
    + destruct (Happend _ s2 evs2 Hf1 eq_refl)
        as (Hsegs & _ & _ & [(Hloop & _)|(_ & _ & Hlen)]).
      * exists s1, evs, s2, evs2. rewrite Hsegs, Hb1.
        repeat split; try reflexivity; assumption.
      * rewrite Hsegs, Hb1 in Hlen. cbn in Hlen. lia.
    + exfalso. vm_compute in Hrun. inversion Hrun; subst.
      vm_compute in Hstep. discriminate Hstep.
  - destruct (run (first ++ second) start) as [[s1 evs]|] eqn:Hrun;
      [|vm_compute in Hrun; discriminate Hrun].
    assert (Hs1 : existsb is_exit evs = false /\ fillers s1 = [FGiveUp 4])
      by (vm_compute in Hrun; inversion Hrun; repeat split).
    destruct Hs1 as (Hquiet & Hf1).
    destruct (fillSegments_failure_budget start (first ++ second) s1 evs Hsf Hh
                eq_refl Hrun Hquiet) as (_ & _ & _ & _ & _ & Hgive & _).
    destruct Hgive as (_ & s2 & evs2 & Hstep & _ & Hnone & Hflag & Hw & _);
      [vm_compute; reflexivity|].
    exists s1, evs, s2, evs2. repeat split; try reflexivity; assumption.
Defined.

(** ** One call of [nextId] *)

Lemma select_wait_bounded closedAfter timer :
  select_wait closedAfter timer <= timer.
Proof. unfold select_wait. destruct closedAfter; lia. Qed.

Lemma filter_spawn_log (p : CallEvent -> bool) (spawn : bool) l :
  p CSpawn = false ->
  List.filter p ((if spawn then [CSpawn] else []) ++ l) = List.filter p l.
Proof. intros Hp. destruct spawn; cbn; now rewrite ?Hp. Qed.

(** [nextId] always returns. *)
Lemma nextId_total env b : is_Some (nextId env b).
Proof.
  unfold nextId.
  destruct (nextId_enter_total (handle env) b) as [[[b1 spawn] out] ->].
  destruct out as [id|]; [eauto|].
  destruct (nextId_retry_total (meanwhile env b1)) as [[b3 [id [e|]]] ->]; eauto.
Qed.

(** The slow path of [nextId], taken when the count is 0. *)
Lemma nextId_slow_path env b :
  leftCount b = 0 ->
  let spawn := ((length (segments b) <=? 1)%nat && negb (isAllocating b)) in
  let b1 := set_waiting (waiting b ++ [handle env])
              (if spawn then set_isAllocating true b else b) in
  let b2 := meanwhile env b1 in
  exists r,
    nextId env b = Some r /\
    nextId_enter (handle env) b = Some (b1, spawn, Queued) /\
    waiting b1 = waiting b ++ [handle env] /\
    List.filter is_enqueue (log r) = [CEnqueue (handle env)] /\
    (exists spent,
        List.filter is_wait (log r) = [CWait (handle env) waitTimeout spent] /\
        spent <= 2 * time_Second) /\
    List.filter is_retry (log r) = [CRetry (leftCount b2)] /\
    (leftCount b2 <> 0 ->
     exists id b3, popNextId b2 = Some (id, b3) /\
                   ret_id r = id /\ ret_err r = None /\ after r = b3) /\
    (leftCount b2 = 0 ->
     ret_err r = Some "no available id"%string /\ after r = b2).
Proof.
  intros Hzero spawn b1 b2.
  assert (Henter : nextId_enter (handle env) b = Some (b1, spawn, Queued)).
  { unfold nextId_enter. rewrite Hzero. cbn [Z.eqb]. subst b1 spawn.
    now destruct ((length (segments b) <=? 1)%nat && negb (isAllocating b)). }
  assert (Hw : waiting b1 = waiting b ++ [handle env]) by reflexivity.
  unfold nextId. rewrite Henter. fold b2.
  assert (Hspent : select_wait (closedAfter env) waitTimeout <= 2 * time_Second)
    by apply select_wait_bounded.
  unfold nextId_retry.
  destruct (Z.eqb_spec (leftCount b2) 0) as [Hz|Hnz].
  - eexists. split; [reflexivity|]. cbn [log ret_err after].
    rewrite !filter_spawn_log by reflexivity. cbn.
    repeat split; eauto; try contradiction.
  - destruct (popNextId_nonempty b2 (leftCount_nonzero b2 Hnz)) as [[id b3] Hpop].
    rewrite Hpop. eexists. split; [reflexivity|]. cbn [log ret_id ret_err after].
    rewrite <- !app_assoc, !filter_spawn_log by reflexivity. cbn.
    repeat split; eauto; try contradiction.
    intros _. now exists id, b3.
Qed.

(** The fast path: an ID at once, and no handle, no wait, no retry. *)
Lemma nextId_fast_path_log env b r :
  leftCount b <> 0 -> nextId env b = Some r ->
  ret_err r = None /\
  List.filter is_enqueue (log r) = [] /\ List.filter is_wait (log r) = [] /\
  List.filter is_retry (log r) = [].
Proof.
  intros Hnz. unfold nextId, nextId_enter.
  destruct (Z.eqb_spec (leftCount b) 0); [contradiction|].
  destruct (popNextId b) as [[id b1]|]; [|discriminate].
  intros H; inversion H; subst. cbn.
  now destruct ((length (segments b1) <=? 1)%nat && negb (isAllocating b1)).
Qed.

(** C7, with [<> 0] for [> 0].  A call of [nextId] always returns, and
    never enqueues, waits or retries more than once.  When it finds the
    count at 0, it appends exactly one handle to [waiting], waits once, on
    that handle and a timer of 2 seconds, for no longer than the 2
    seconds, and tests the count once more: if the count is then not 0 it
    pops an ID and returns it with a nil error, and if it is 0 it returns
    the error "no available id" and leaves the allocator as it found it. *)
Theorem nextId_waits_once (env : CallEnv) (b : BizAlloc) :
  exists r,
    nextId env b = Some r /\
    (length (List.filter is_enqueue (log r)) <= 1)%nat /\
    (length (List.filter is_wait (log r)) <= 1)%nat /\
    (length (List.filter is_retry (log r)) <= 1)%nat /\
    (leftCount b = 0 ->
     let spawn := ((length (segments b) <=? 1)%nat && negb (isAllocating b)) in
     let b1 := set_waiting (waiting b ++ [handle env])
                 (if spawn then set_isAllocating true b else b) in
     let b2 := meanwhile env b1 in
     nextId_enter (handle env) b = Some (b1, spawn, Queued) /\
     waiting b1 = waiting b ++ [handle env] /\
     List.filter is_enqueue (log r) = [CEnqueue (handle env)] /\
     (exists spent,
         List.filter is_wait (log r) = [CWait (handle env) waitTimeout spent] /\
         spent <= 2 * time_Second) /\
     List.filter is_retry (log r) = [CRetry (leftCount b2)] /\
     (leftCount b2 <> 0 ->
      exists id b3, popNextId b2 = Some (id, b3) /\
                    ret_id r = id /\ ret_err r = None /\ after r = b3) /\
     (leftCount b2 = 0 ->
      ret_err r = Some "no available id"%string /\ after r = b2)).
Proof.
  destruct (Z.eq_dec (leftCount b) 0) as [Hzero|Hnz].
  - destruct (nextId_slow_path env b Hzero)
      as (r & Hcall & Henter & Hw & Henq & (spent & Hwait & Hspent) & Hretry
          & Hpop & Herr).
    exists r. split; [exact Hcall|].
    split; [rewrite Henq; cbn; lia|]. split; [rewrite Hwait; cbn; lia|].
    split; [rewrite Hretry; cbn; lia|]. intros _. cbv zeta.
    exact (conj Henter (conj Hw (conj Henq
             (conj (ex_intro _ spent (conj Hwait Hspent))
                (conj Hretry (conj Hpop Herr)))))).
  - destruct (nextId_total env b) as [r Hcall].
    destruct (nextId_fast_path_log env b r Hnz Hcall) as (_ & He & Hw & Hr).
    exists r. split; [exact Hcall|]. rewrite He, Hw, Hr. cbn [length].
    split; [lia|]. split; [lia|]. split; [lia|]. contradiction.
Qed.

Lemma nextId_waits_once_witness :
  exists r,
    nextId (mkCallEnv 7%nat (Some 5000)
              (fun b => set_waiting [] (set_segments [mkSegment 0 0 100] b)) 0)
           (newBizAlloc "t") = Some r /\
    ret_id r = 0 /\ ret_err r = None /\
    log r = [CSpawn; CEnqueue 7%nat; CWait 7%nat 2000000000 5000; CRetry 100;
             CPop 0].
Proof.
  destruct (nextId_waits_once
              (mkCallEnv 7%nat (Some 5000)
                 (fun b => set_waiting [] (set_segments [mkSegment 0 0 100] b)) 0)
              (newBizAlloc "t"))
    as (r & Hcall & _).
  exists r. split; [exact Hcall|].
  vm_compute in Hcall. inversion Hcall. repeat split.
Defined.

(** The claim of C7 as worded, with [> 0], fails when the count is
    negative.  On a store row with step -1, while the caller waits the
    refill goroutine appends [{offset 0, left 10, right 9}] and wakes the
    caller; the count is then -1, not above 0, and the call returns ID 10
    with a nil error where the claim has it fail with "no available id".
    The same is seen of the goroutines together. *)
Lemma nextId_retry_negative_count :
  let refill := fun b => set_waiting [] (set_segments [mkSegment 0 10 9] b) in
  let b2 := refill (mkBizAlloc "t" [] true [0%nat]) in
  leftCount (newBizAlloc "t") = 0 /\
  leftCount b2 = -1 /\ ~ (leftCount b2 > 0) /\
  (exists r,
      nextId (mkCallEnv 0%nat (Some 0) refill 0) (newBizAlloc "t") = Some r /\
      ret_id r = 10 /\ ret_err r = None /\
      ret_err r <> Some "no available id"%string) /\
  (exists s evs s' evs',
      run [ACall; AFill 0; AFetch 0 (granted 9 (-1)); AFill 0] (initSys "t")
      = Some (s, evs) /\
      biz s = b2 /\
      step (AResume 0%nat) s = Some (s', evs') /\
      evs' = [EvServe 10 true; EvReturn 10 None]).
Proof.
  cbv zeta. split; [reflexivity|]. split; [reflexivity|].
  split; [vm_compute; discriminate|]. split.
  - eexists. split; [vm_compute; reflexivity|]. cbn.
    repeat split. discriminate.
  - eexists _, _, _, _. split; [vm_compute; reflexivity|].
    split; [reflexivity|]. split; [vm_compute; reflexivity|]. reflexivity.
Qed.

(** When the buffer has IDs, what [nextId] returns is the front segment's
    [left + offset]. *)
Lemma nextId_fast_path env b r s0 rest :
  leftCount b <> 0 -> segments b = s0 :: rest ->
  nextId env b = Some r ->
  ret_id r = add64 (left s0) (offset s0) /\ ret_err r = None.
Proof.
  intros Hnz Hb. unfold nextId, nextId_enter.
  destruct (Z.eqb_spec (leftCount b) 0); [contradiction|].
  rewrite (popNextId_front b s0 rest Hb).
  intros H; inversion H; subst. split; reflexivity.
Qed.

(** ** The registry *)

(** C9.  [Alloc.NextId] always returns, and the ID it returns is the one
    [nextId] drew from the tag's allocator plus the clock's milliseconds,
    in [int64] (their exact sum when that fits).  When the buffer has IDs
    the ID drawn is the front segment's [left + offset]. *)
Theorem Alloc_NextId_adds_clock (env : CallEnv) (tag : string) (alloc : Alloc) :
  exists bizAlloc r alloc',
    bizAlloc = default (newBizAlloc tag) (alloc !! tag) /\
    nextId env bizAlloc = Some r /\
    Alloc_NextId env tag alloc
    = Some (alloc', (add64 (ret_id r) (now env), ret_err r)) /\
    alloc' !! tag = Some (after r) /\
    (int64 (ret_id r + now env) ->
     add64 (ret_id r) (now env) = ret_id r + now env) /\
    (forall s0 rest,
        leftCount bizAlloc <> 0 -> segments bizAlloc = s0 :: rest ->
        ret_id r = add64 (left s0) (offset s0) /\ ret_err r = None).
Proof.
  unfold Alloc_NextId.
  destruct (alloc !! tag) as [b|] eqn:Hlook;
    [destruct (nextId_total env b) as [r Hr]; exists b, r
    |destruct (nextId_total env (newBizAlloc tag)) as [r Hr];
     exists (newBizAlloc tag), r];
    rewrite Hr; eexists;
    (split; [reflexivity|]); (split; [reflexivity|]);
    (split; [reflexivity|]); (split; [apply lookup_insert_eq|]);
    (split; [apply add64_exact|]);
    intros s0 rest Hnz Hb; exact (nextId_fast_path env _ r s0 rest Hnz Hb Hr).
Qed.

(** [Alloc.NextId] always returns, and the registry it leaves holds the
    tag. *)
Lemma Alloc_NextId_registers env tag alloc :
  exists alloc' r,
    Alloc_NextId env tag alloc = Some (alloc', r) /\ is_Some (alloc' !! tag).
Proof.
  unfold Alloc_NextId.
  destruct (alloc !! tag) as [b|];
    [destruct (nextId_total env b) as [r ->]
    |destruct (nextId_total env (newBizAlloc tag)) as [r ->]];
    eexists _, _; (split; [reflexivity|]); eexists; apply lookup_insert_eq.
Qed.

(** C10.  For a tag the registry does not hold, [Alloc.LeftCount] returns
    0 and leaves the registry as it was, the tag still absent, whereas
    [Alloc.NextId] leaves a registry that holds the tag. *)
Theorem Alloc_LeftCount_unknown_tag (tag : string) (alloc : Alloc) :
  alloc !! tag = None ->
  Alloc_LeftCount tag alloc = (alloc, 0) /\
  (fst (Alloc_LeftCount tag alloc)) !! tag = None /\
  (forall env, exists alloc' r,
      Alloc_NextId env tag alloc = Some (alloc', r) /\
      is_Some (alloc' !! tag)).
Proof.
  intros Hnone. unfold Alloc_LeftCount. rewrite Hnone.
  split; [reflexivity|]. split; [exact Hnone|].
  intros env. apply Alloc_NextId_registers.
Qed.

Lemma Alloc_LeftCount_unknown_tag_witness :
  Alloc_LeftCount "orders" InitAlloc = (InitAlloc, 0).
Proof.
  apply (Alloc_LeftCount_unknown_tag "orders" InitAlloc). reflexivity.
Defined.

(** [Alloc.LeftCount] never changes the registry, known tag or not. *)
Lemma Alloc_LeftCount_frame tag alloc : fst (Alloc_LeftCount tag alloc) = alloc.
Proof. unfold Alloc_LeftCount. now destruct (alloc !! tag). Qed.

(** ** More on the goroutines of one tag *)

(** Induction over a schedule, with what the steps show. *)
Lemma run_events (P : Sys -> Prop) (ok : Action -> Prop) (Q : Event -> Prop) :
  (forall a s s' evs,
      ok a -> P s -> step a s = Some (s', evs) -> P s' /\ Forall Q evs) ->
  forall acts s s' evs,
    Forall ok acts -> P s -> run acts s = Some (s', evs) ->
    P s' /\ Forall Q evs.
Proof.
  intros Hstep acts. induction acts as [|a acts IH]; intros s s' evs Hok HP Hrun.
  - inversion Hrun; subst. split; [exact HP|constructor].
  - cbn [run] in Hrun. inversion Hok as [|? ? Ha Hacts]; subst.
    destruct (step a s) as [[s1 evs1]|] eqn:Hs; [|discriminate].
    destruct (run acts s1) as [[s2 evs2]|] eqn:Hr; [|discriminate].
    inversion Hrun; subst.
    destruct (Hstep a s s1 evs1 Ha HP Hs) as [HP1 HQ1].
    destruct (IH s1 s' evs2 Hacts HP1 Hr) as [HP2 HQ2].
    split; [exact HP2|]. apply Forall_app. split; assumption.
Qed.

(** X2.  In every state the allocator of a tag can reach, [isAllocating]
    is set exactly when a goroutine runs [fillSegments], and there is then
    just that one: the flag is never left set by a goroutine that has
    ended, nor cleared under one that still runs. *)
Theorem isAllocating_iff_refill_running
    (tag : string) (acts : list Action) (s : Sys) (evs : list Event) :
  run acts (initSys tag) = Some (s, evs) ->
  (isAllocating (biz s) = true <-> exists f, fillers s = [f]) /\
  (isAllocating (biz s) = false <-> fillers s = []).
Proof.
  intros Hrun.
  pose proof (run_single_flight acts _ _ _ (initSys_single_flight tag) Hrun)
    as Hinv.
  unfold single_flight in Hinv.
  destruct (fillers s) as [|f [|f2 fs]]; [| |contradiction];
    destruct Hinv as [Hflag _]; rewrite Hflag.
  - split; split; try reflexivity; try discriminate.
    intros [f Hf]. discriminate Hf.
  - split; split; try reflexivity; try discriminate. intros _. now exists f.
Qed.

Lemma isAllocating_iff_refill_running_witness :
  exists s evs,
    run [ACall; AFill 0; AFetch 0 refused] (initSys "t") = Some (s, evs) /\
    isAllocating (biz s) = true /\ fillers s = [FLoop 1].
Proof.
  destruct (run [ACall; AFill 0; AFetch 0 refused] (initSys "t"))
    as [[s evs]|] eqn:Hrun; [|vm_compute in Hrun; discriminate Hrun].
  exists s, evs. split; [reflexivity|].
  assert (Hf : fillers s = [FLoop 1])
    by (vm_compute in Hrun; now inversion Hrun).
  split; [|exact Hf].
  apply (isAllocating_iff_refill_running "t" _ s evs Hrun). now exists (FLoop 1).
Defined.



(** *** Parked callers *)

Lemma fill_at_parked_ok i answer s s' evs :
  parked_ok s -> fill_at i answer s = Some (s', evs) ->
  parked_ok s' /\
  (existsb is_wake evs = true ->
   waiting (biz s') = [] /\ forall c, c ∈ parked s' -> c ∈ closed s').
Proof.
  intros Hok (f & f' & cl' & b' & Hi & Hf & ->)%fill_at_inv.
  assert (Hwake : forall b0 cl1 b1,
             waiting b0 = waiting (biz s) ->
             wakeup (closed s) b0 = Some (cl1, b1) ->
             waiting b1 = [] /\ forall c, c ∈ parked s -> c ∈ cl1).
  { intros b0 cl1 b1 Hw0 (-> & ->)%wakeup_closes. split; [reflexivity|].
    intros c Hc. rewrite Hw0. apply elem_of_union.
    destruct (Hok c Hc) as [Hq|Hcl]; [left; now apply elem_of_list_to_set|now right]. }
  unfold parked_ok. cbn [biz closed parked].
  destruct f as [n|n|n|seg], answer as [r|]; cbn [fillSegments_step] in Hf;
    try discriminate Hf.
  - destruct (length (segments (biz s)) <=? 1)%nat; injection Hf as <- <- <- <-;
      (split; [exact Hok|discriminate]).
  - destruct (newSegment r (biz s)); [|destruct (3 <? add64 n 1)];
      injection Hf as <- <- <- <-; (split; [exact Hok|discriminate]).
  - destruct (wakeup (closed s) (biz s)) as [[cl1 b1]|] eqn:Hw; [|discriminate].
    destruct (Hwake _ _ _ eq_refl Hw) as [Hnil Hcl].
    injection Hf as <- <- <- <-. cbn [waiting set_isAllocating].
    split; [intros c Hc; right; now apply Hcl|]. intros _. now split.
  - destruct (wakeup (closed s) _) as [[cl1 b1]|] eqn:Hw; [|discriminate].
    destruct (Hwake (set_segments (segments (biz s) ++ [seg]) (biz s))
                cl1 b1 eq_refl Hw) as [Hnil Hcl].
    destruct (1 <? length (segments b1))%nat; injection Hf as <- <- <- <-;
      cbn [waiting set_isAllocating];
      (split; [intros c Hc; right; now apply Hcl|]); intros _; now split.
Qed.

Lemma step_parked_ok a s s' evs :
  parked_ok s -> step a s = Some (s', evs) ->
  parked_ok s' /\
  (existsb is_wake evs = true ->
   waiting (biz s') = [] /\ forall c, c ∈ parked s' -> c ∈ closed s').
Proof.
  intros Hok Hstep. destruct a as [|c|i|i r]; cbn [step] in Hstep;
    [| |eapply fill_at_parked_ok; eassumption..].
  - destruct (nextId_enter (made s) (biz s)) as [[[b1 spawn] out]|] eqn:He;
      [|discriminate].
    apply nextId_enter_frame in He as (_ & _ & _ & _ & _ & Hw).
    unfold parked_ok.
    destruct out; injection Hstep as <- <-; cbn [biz closed parked];
      rewrite Hw.
    + split; [exact Hok|].
      destruct spawn; cbn; discriminate.
    + split.
      * intros c [->%elem_of_singleton|Hc]%elem_of_union.
        -- left. apply elem_of_app. right. now left.
        -- destruct (Hok c Hc) as [Hq|Hcl]; [left|now right].
           apply elem_of_app. now left.
      * destruct spawn; cbn; discriminate.
  - destruct (decide (c ∈ parked s)); [|discriminate].
    destruct (nextId_retry (biz s)) as [[b1 [id err]]|] eqn:He; [|discriminate].
    apply nextId_retry_frame in He as (_ & _ & _ & Hw & _).
    injection Hstep as <- <-. unfold parked_ok. cbn [biz closed parked].
    rewrite Hw. split.
    + intros c' [Hc' _]%elem_of_difference. now apply Hok.
    + destruct err; cbn; discriminate.
Qed.

Lemma initSys_parked_ok tag : parked_ok (initSys tag).
Proof. intros c Hc. now apply not_elem_of_empty in Hc. Qed.

Lemma run_parked_ok acts s s' evs :
  parked_ok s -> run acts s = Some (s', evs) -> parked_ok s'.
Proof.
  intros Hs Hrun.
  apply (run_invariant parked_ok (fun _ => True)
           (fun a s0 s1 evs0 _ H0 H1 => proj1 (step_parked_ok a s0 s1 evs0 H0 H1))
           acts s s' evs (Forall_True_actions acts) Hs Hrun).
Qed.

(** The steps of [fillSegments] that call [wakeup] show it. *)
Lemma wakeup_step_shows i f s s' evs :
  fillers s !! i = Some f ->
  match f with FGiveUp _ | FAppend _ => True | _ => False end ->
  step (AFill i) s = Some (s', evs) ->
  existsb is_wake evs = true.
Proof.
  intros Hi Hf Hstep. cbn [step] in Hstep. unfold fill_at in Hstep.
  rewrite Hi in Hstep.
  destruct f as [n|n|n|seg]; try contradiction;
    cbn [fillSegments_step] in Hstep.
  - destruct (wakeup (closed s) (biz s)) as [[cl1 b1]|]; [|discriminate].
    injection Hstep as <- <-. reflexivity.
  - destruct (wakeup (closed s) _) as [[cl1 b1]|]; [|discriminate].
    destruct (1 <? length (segments b1))%nat; injection Hstep as <- <-;
      reflexivity.
Qed.

(** X4.  No wakeup is lost.  In every state the allocator of a tag can
    reach, the handle of each caller that is parked in the [select] is
    still in the [waiting] queue or already closed; and the step of the
    refill goroutine that calls [wakeup], after an append or on giving up,
    leaves the queue empty and the handle of every parked caller closed,
    so that each of them leaves its [select] without waiting for the
    timer. *)
Theorem no_lost_wakeup
    (tag : string) (acts : list Action) (s : Sys) (evs : list Event) :
  run acts (initSys tag) = Some (s, evs) ->
  (forall c, c ∈ parked s -> c ∈ waiting (biz s) \/ c ∈ closed s) /\
  (forall i f s' evs',
      fillers s !! i = Some f ->
      match f with FGiveUp _ | FAppend _ => True | _ => False end ->
      step (AFill i) s = Some (s', evs') ->
      existsb is_wake evs' = true /\
      waiting (biz s') = [] /\ forall c, c ∈ parked s' -> c ∈ closed s').
Proof.
  intros Hrun.
  pose proof (run_parked_ok _ _ _ _ (initSys_parked_ok tag) Hrun) as Hok.
  split; [exact Hok|].
  intros i f s' evs' Hi Hf Hstep.
  pose proof (wakeup_step_shows i f s s' evs' Hi Hf Hstep) as Hwake.
  split; [exact Hwake|].
  exact (proj2 (step_parked_ok (AFill i) s s' evs' Hok Hstep) Hwake).
Qed.

(** Two callers park on a cold start; the append wakes both. *)
Lemma no_lost_wakeup_witness :
  exists s evs s' evs',
    run [ACall; ACall; AFill 0; AFetch 0 (granted 100 100)] (initSys "t")
    = Some (s, evs) /\
    step (AFill 0) s = Some (s', evs') /\
    parked s' = {[0%nat; 1%nat]} /\
    waiting (biz s') = [] /\
    forall c, c ∈ parked s' -> c ∈ closed s'.
Proof.
  destruct (run [ACall; ACall; AFill 0; AFetch 0 (granted 100 100)]
              (initSys "t")) as [[s evs]|] eqn:Hrun;
    [|vm_compute in Hrun; discriminate Hrun].
  destruct (step (AFill 0) s) as [[s' evs']|] eqn:Hstep;
    [|vm_compute in Hrun; inversion Hrun; subst; vm_compute in Hstep;
      discriminate Hstep].
  exists s, evs, s', evs'. split; [reflexivity|]. split; [exact Hstep|].
  assert (Hs' : parked s' = {[0%nat; 1%nat]} /\
                fillers s !! 0%nat = Some (FAppend (mkSegment 0 0 100))).
  { vm_compute in Hrun. inversion Hrun; subst. vm_compute in Hstep.
    inversion Hstep; subst. split; reflexivity. }
  destruct Hs' as [Hp Hf]. split; [exact Hp|].
  exact (proj2 (proj2 (no_lost_wakeup "t" _ s evs Hrun) 0%nat _ s' evs'
                  Hf I Hstep)).
Defined.

(** *** The order of all the IDs served *)

Lemma served_ids_skip evs1 evs2 :
  forallb (fun e => negb (is_serve e)) evs1 = true ->
  served_ids (evs1 ++ evs2) = served_ids evs2.
Proof.
  induction evs1 as [|e evs1 IH]; [reflexivity|].
  cbn [forallb]. rewrite andb_true_iff. intros [He Hrest].
  destruct e; try discriminate He; cbn [app served_ids]; auto.
Qed.

Lemma ascending_cons a ids :
  Forall (fun b => a < b) ids -> ascending ids -> ascending (a :: ids).
Proof.
  intros Hall Hasc [|i] [|j] x y Hij Hi Hj; cbn in Hi, Hj; try lia.
  - inversion Hi; subst.
    exact (proj1 (Forall_lookup _ _) Hall j y Hj).
  - apply (Hasc i j x y); [lia|assumption..].
Qed.

Lemma ascending_NoDup ids : ascending ids -> NoDup ids.
Proof.
  intros Hasc. apply NoDup_alt. intros i j x Hi Hj.
  destruct (Nat.lt_trichotomy i j) as [Hlt|[Heq|Hgt]]; [|exact Heq|].
  - pose proof (Hasc i j x x Hlt Hi Hj). lia.
  - pose proof (Hasc j i x x Hgt Hj Hi). lia.
Qed.

Lemma rising_weaken lo lo' segs hi :
  lo' <= lo -> rising lo segs hi -> rising lo' segs hi.
Proof.
  destruct segs as [|s segs]; cbn [rising]; [lia|].
  intros Hle (Hlo & Hok & Hrest). repeat split; try assumption; try apply Hok.
  lia.
Qed.

Lemma rising_snoc segs : forall lo hw seg hi,
  rising lo segs hw -> hw <= cursor seg -> seg_ok seg -> right seg <= hi ->
  rising lo (segs ++ [seg]) hi.
Proof.
  induction segs as [|s segs IH]; intros lo hw seg hi; cbn [app rising].
  - intros Hlo Hc Hok Hhi. split; [lia|]. split; [exact Hok|exact Hhi].
  - intros (Hlo & Hs & Hrest) Hc Hok Hhi.
    split; [exact Hlo|]. split; [exact Hs|]. exact (IH _ _ _ _ Hrest Hc Hok Hhi).
Qed.

Lemma rising_app_l segs1 : forall lo segs2 hi,
  rising lo (segs1 ++ segs2) hi -> exists hi', rising lo segs1 hi'.
Proof.
  induction segs1 as [|s segs1 IH]; intros lo segs2 hi; cbn [app rising].
  - intros _. exists lo. lia.
  - intros (Hlo & Hs & Hrest). destruct (IH _ _ _ Hrest) as [hi' Hhi'].
    exists hi'. auto.
Qed.

(** What the goroutines hold is the buffer and, under single flight, the
    one segment on its way into it. *)
Lemma caller_step_chain a s s' evs :
  match a with ACall | AResume _ => True | _ => False end ->
  step a s = Some (s', evs) ->
  (exists id retired evs' s0 rest,
      evs = EvServe id retired :: evs' /\
      forallb (fun e => negb (is_serve e)) evs' = true /\
      chain s = s0 :: rest /\ id = cursor s0 /\
      (chain s' = rest /\ right s0 <= add64 (cursor s0) 1
       \/ chain s' = advanced s0 :: rest /\ add64 (cursor s0) 1 < right s0))
  \/ (forallb (fun e => negb (is_serve e)) evs = true /\ chain s' = chain s).
Proof.
  intros Ha Hstep. unfold chain.
  assert (Hpend : flat_map pending (fillers s') = flat_map pending (fillers s)).
  { destruct a as [|c|i|i r]; try contradiction; cbn [step] in Hstep.
    - destruct (nextId_enter (made s) (biz s)) as [[[b1 [|]] out]|];
        [| |discriminate]; destruct out; injection Hstep as <- <-;
        cbn [fillers]; rewrite ?flat_map_app; cbn; now rewrite ?app_nil_r.
    - destruct (decide (c ∈ parked s)); [|discriminate].
      destruct (nextId_retry (biz s)) as [[b1 [id err]]|]; [|discriminate].
      now injection Hstep as <- <-. }
  rewrite Hpend.
  destruct (step_serves a s s' evs Hstep)
    as [(id & retired & evs' & s0 & rest & -> & Hno & Hb & -> & Hcase)
       |(Hno & more & Hmore)].
  - left. exists (cursor s0), retired, evs', s0, (rest ++ flat_map pending (fillers s)).
    rewrite Hb. split; [reflexivity|]. split; [exact Hno|].
    split; [reflexivity|]. split; [reflexivity|].
    destruct Hcase as [(_ & -> & Hge)|(_ & -> & Hlt)]; [left|right]; auto.
  - right. split; [exact Hno|].
    assert (Hsame : segments (biz s') = segments (biz s)); [|now rewrite Hsame].
    destruct a as [|c|i|i r]; try contradiction; cbn [step] in Hstep.
    + destruct (nextId_enter (made s) (biz s)) as [[[b1 spawn] [id|]]|] eqn:He;
        try discriminate; injection Hstep as <- <-; [discriminate Hno|].
      apply nextId_enter_queued in He as (_ & _ & ->). cbn [biz segments set_waiting].
      apply segments_if_set_isAllocating.
    + destruct (decide (c ∈ parked s)); [|discriminate].
      unfold nextId_retry in Hstep. destruct (leftCount (biz s) =? 0).
      * now injection Hstep as <- <-.
      * destruct (popNextId (biz s)) as [[id bp]|]; [|discriminate].
        injection Hstep as <- <-. discriminate Hno.
Qed.

Lemma fill_step_chain i answer s s' evs :
  single_flight s ->
  fill_at i answer s = Some (s', evs) ->
  forallb (fun e => negb (is_serve e)) evs = true /\
  chain s' = chain s ++ match answer with
                        | Some r => match newSegment r (biz s) with
                                    | inl seg => [seg]
                                    | inr _ => []
                                    end
                        | None => []
                        end.
Proof.
  intros Hinv Hfill.
  pose proof Hfill as (f & f' & cl' & b' & Hi & Hf & ->)%fill_at_inv.
  destruct (single_flight_lookup s i f Hinv Hi) as (-> & Hfs & _ & _).
  unfold chain. cbn [biz fillers]. rewrite Hfs.
  destruct f as [n|n|n|seg], answer as [r|]; cbn [fillSegments_step] in Hf;
    try discriminate Hf.
  - destruct (length (segments (biz s)) <=? 1)%nat; injection Hf as <- <- <- <-;
      cbn; now rewrite !app_nil_r.
  - destruct (newSegment r (biz s)) as [seg|e]; [|destruct (3 <? add64 n 1)];
      injection Hf as <- <- <- <-; cbn; now rewrite ?app_nil_r.
  - destruct (wakeup (closed s) (biz s)) as [[cl1 b1]|] eqn:Hw; [|discriminate].
    apply wakeup_frame in Hw as (Hs & _). injection Hf as <- <- <- <-.
    cbn. now rewrite Hs, !app_nil_r.
  - destruct (wakeup (closed s) _) as [[cl1 b1]|] eqn:Hw; [|discriminate].
    apply wakeup_frame in Hw as (Hs & _). cbn in Hs.
    destruct (1 <? length (segments b1))%nat; injection Hf as <- <- <- <-;
      cbn; now rewrite Hs, !app_nil_r.
Qed.

Lemma newSegment_rising r b seg maxId step hw :
  Data_NextId r (bizTag b) = (maxId, step, None) ->
  int64 maxId -> hw <= sub64 maxId step < maxId ->
  newSegment r b = inl seg ->
  hw <= cursor seg /\ seg_ok seg /\ right seg = maxId.
Proof.
  intros Hdata Hm [Hlo Hlt] Hseg.
  assert (Hok : seg_ok seg).
  { apply (newSegment_seg_ok r b seg); [|exact Hseg].
    unfold grant_ok. rewrite Hdata. split; assumption. }
  unfold newSegment in Hseg. rewrite Hdata in Hseg. inversion Hseg; subst.
  split; [|split; [exact Hok|reflexivity]].
  unfold cursor, add64. cbn [left offset]. rewrite Z.add_0_r.
  rewrite wrap_exact by apply wrap_range. exact Hlo.
Qed.

(** From a state whose segments rise from [lo] to [hw], along a schedule
    whose grants ascend from [hw]: every ID served is at or above [lo], and
    the IDs ascend. *)
Lemma served_ascending_from tag acts :
  forall s s' evs lo hw,
    grants_ascend tag hw acts ->
    single_flight s -> bizTag (biz s) = tag ->
    rising lo (chain s) hw ->
    run acts s = Some (s', evs) ->
    Forall (fun a => lo <= a) (served_ids evs) /\
    ascending (served_ids evs) /\
    exists lo' hw', rising lo' (chain s') hw'.
Proof.
  induction acts as [|act acts IH]; intros s s' evs lo hw Hg Hinv Htag Hrise Hrun.
  { inversion Hrun; subst. split; [constructor|].
    split; [intros i j a b _ Hi; discriminate|]. now exists lo, hw. }
  cbn [run] in Hrun.
  destruct (step act s) as [[s1 evs1]|] eqn:Hstep; [|discriminate].
  destruct (run acts s1) as [[s2 evs2]|] eqn:Hrest; [|discriminate].
  inversion Hrun; subst; clear Hrun.
  pose proof (step_single_flight _ _ _ _ Hinv Hstep) as Hinv1.
  pose proof (step_bizTag _ _ _ _ Hstep) as Htag1.
  assert (Hcaller :
    match act with ACall | AResume _ => True | _ => False end ->
    grants_ascend (bizTag (biz s)) hw acts ->
    Forall (fun a => lo <= a) (served_ids (evs1 ++ evs2)) /\
    ascending (served_ids (evs1 ++ evs2)) /\
    exists lo' hw', rising lo' (chain s') hw').
  { intros Ha Hg'.
    destruct (caller_step_chain act s s1 evs1 Ha Hstep)
      as [(id & retired & evs' & s0 & rest & -> & Hno & Hc & -> & Hcase)
         |(Hno & Hsame)].
    - rewrite Hc in Hrise. destruct Hrise as (Hlo & Hs0 & Hrest0).
      pose proof (seg_ok_cursor_advanced s0 Hs0) as Hadv.
      assert (Hlt : cursor s0 < right s0) by apply Hs0.
      assert (Hrise1 : rising (cursor s0 + 1) (chain s1) hw).
      { destruct Hcase as [[-> _]|[-> Hkept]].
        - apply (rising_weaken (right s0)); [lia|exact Hrest0].
        - cbn [rising]. split; [lia|]. split; [now apply seg_ok_kept|].
          exact Hrest0. }
      destruct (IH s1 s' evs2 _ hw Hg' Hinv1 Htag1 Hrise1 Hrest)
        as (Hlow & Hasc & Hend).
      cbn [app served_ids]. rewrite (served_ids_skip _ _ Hno).
      split; [|split; [|exact Hend]].
      + constructor; [exact Hlo|].
        eapply Forall_impl; [exact Hlow|]. cbn. intros; lia.
      + apply ascending_cons; [|exact Hasc].
        eapply Forall_impl; [exact Hlow|]. cbn. intros; lia.
    - rewrite <- Hsame in Hrise.
      rewrite (served_ids_skip _ _ Hno).
      exact (IH s1 s' evs2 lo hw Hg' Hinv1 Htag1 Hrise Hrest). }
  destruct act as [|c|i|i r]; cbn [grants_ascend] in Hg;
    [exact (Hcaller I Hg)..| |]; clear Hcaller; cbn [step] in Hstep;
    destruct (fill_step_chain _ _ _ _ _ Hinv Hstep) as [Hno Hchain];
    rewrite (served_ids_skip _ _ Hno).
  - rewrite app_nil_r in Hchain. rewrite <- Hchain in Hrise.
    exact (IH s1 s' evs2 lo hw Hg Hinv1 Htag1 Hrise Hrest).
  - destruct (Data_NextId r (bizTag (biz s))) as [[maxId stp] [e|]] eqn:Hdata.
    + assert (Hnew : newSegment r (biz s) = inr e)
        by (unfold newSegment; now rewrite Hdata).
      rewrite Hnew, app_nil_r in Hchain. rewrite <- Hchain in Hrise.
      exact (IH s1 s' evs2 lo hw Hg Hinv1 Htag1 Hrise Hrest).
    + destruct Hg as (Hm & Hwin & Hg').
      assert (Hnew : newSegment r (biz s)
                     = inl (mkSegment 0 (sub64 maxId stp) maxId))
        by (unfold newSegment; now rewrite Hdata).
      destruct (newSegment_rising r (biz s) _ maxId stp hw Hdata Hm Hwin Hnew)
        as (Hc & Hok & Hr).
      rewrite Hnew in Hchain.
      assert (Hrise1 : rising lo (chain s1) maxId).
      { rewrite Hchain. apply (rising_snoc _ lo hw); auto. cbn. lia. }
      exact (IH s1 s' evs2 lo maxId Hg' Hinv1 Htag1 Hrise1 Hrest).
Qed.

(** *** The count and the buffer *)

Lemma leftCount_ids_left b : leftCount b = wrap (ids_left (segments b)).
Proof.
  rewrite leftCount_sum. unfold exact_remaining, ids_left.
  induction (segments b) as [|s segs IH]; [reflexivity|].
  cbn [map fold_right].
  rewrite <- wrap_add_r, IH, wrap_add_r.
  unfold cursor, add64.
  replace (right s - wrap (left s + offset s)
           + fold_right Z.add 0 (map (fun s0 => right s0 - wrap (left s0 + offset s0)) segs))
    with (right s
          + fold_right Z.add 0 (map (fun s0 => right s0 - wrap (left s0 + offset s0)) segs)
          - wrap (left s + offset s)) by lia.
  rewrite wrap_sub_r. f_equal. lia.
Qed.

Lemma rising_ids_left segs : forall lo hi,
  rising lo segs hi ->
  0 <= ids_left segs /\
  forall s0 rest, segs = s0 :: rest ->
    1 <= ids_left segs <= max_int64 - cursor s0.
Proof.
  induction segs as [|s segs IH]; intros lo hi; cbn [rising].
  - intros _. split; [reflexivity|]. intros s0 rest H. discriminate H.
  - intros (Hlo & Hok & Hrest). destruct (IH _ _ Hrest) as [Hnn Hfront].
    destruct Hok as [(_ & _ & Hr) [_ Hlt]].
    assert (Hup : ids_left segs <= max_int64 - right s).
    { destruct segs as [|s1 segs1].
      - unfold ids_left; cbn. unfold int64 in Hr. lia.
      - destruct (Hfront s1 segs1 eq_refl) as [_ Hle].
        destruct Hrest as (Hle1 & _). lia. }
    unfold ids_left in *. cbn [map fold_right].
    split; [lia|]. intros s0 rest H. inversion H; subst. lia.
Qed.

Lemma wrap_nonzero z : 1 <= z <= max_int64 - min_int64 -> wrap z <> 0.
Proof.
  unfold wrap, modulus, max_int64, min_int64. intros Hz.
  destruct (Z_lt_le_dec z (2 ^ 63)) as [Hsmall|Hbig].
  - rewrite Z.mod_small by lia. lia.
  - replace (z + 2 ^ 63) with (z - 2 ^ 63 + 1 * 2 ^ 64) by lia.
    rewrite Z.mod_add by lia. rewrite Z.mod_small by lia. lia.
Qed.

Lemma rising_live lo segs hi : rising lo segs hi -> Forall live segs.
Proof.
  revert lo. induction segs as [|s segs IH]; intros lo; cbn [rising];
    [constructor|].
  intros (_ & Hok & Hrest). constructor; [apply Hok|exact (IH _ Hrest)].
Qed.

(** X6.  When the windows the store grants ascend, [leftCount] is 0
    exactly when the buffer is empty, in every state the allocator of a
    tag can reach: it is the number of IDs the buffer holds, the sum of
    [right - cursor], brought into [int64]; every segment in the buffer is
    live; and the retry of a call returns an error only on an empty
    buffer, the error being "no available id", and leaves the allocator as
    it is. *)
Theorem leftCount_zero_iff_empty
    (tag : string) (acts : list Action) (s : Sys) (evs : list Event) :
  grants_ascend tag min_int64 acts ->
  run acts (initSys tag) = Some (s, evs) ->
  (leftCount (biz s) = 0 <-> segments (biz s) = []) /\
  leftCount (biz s) = wrap (ids_left (segments (biz s))) /\
  (ids_left (segments (biz s)) <= max_int64 ->
   leftCount (biz s) = ids_left (segments (biz s))) /\
  Forall live (segments (biz s)) /\
  (forall b' id e,
      nextId_retry (biz s) = Some (b', (id, Some e)) ->
      segments (biz s) = [] /\ e = "no available id"%string /\
      id = 0 /\ b' = biz s).
Proof.
  intros Hg Hrun.
  assert (Hrise0 : rising min_int64 (chain (initSys tag)) min_int64)
    by (cbn; lia).
  destruct (served_ascending_from tag acts _ _ _ _ _ Hg
              (initSys_single_flight tag) eq_refl Hrise0 Hrun)
    as (_ & _ & lo & hw & Hrise).
  apply rising_app_l in Hrise as [hi Hrise].
  destruct (rising_ids_left _ _ _ Hrise) as [Hnn Hfront].
  assert (Hiff : leftCount (biz s) = 0 <-> segments (biz s) = []).
  { split; [|apply leftCount_empty].
    rewrite leftCount_ids_left. intros Hzero.
    destruct (segments (biz s)) as [|s0 rest] eqn:Hb; [reflexivity|].
    exfalso. revert Hzero. apply wrap_nonzero.
    destruct (Hfront s0 rest eq_refl) as [Hlow Hup].
    pose proof (cursor_range s0) as [Hc _]. lia. }
  split; [exact Hiff|]. split; [apply leftCount_ids_left|].
  split.
  { intros Hfit. rewrite leftCount_ids_left. apply wrap_exact.
    unfold int64, min_int64. unfold max_int64 in Hfit |- *. lia. }
  split; [exact (rising_live _ _ _ Hrise)|].
  intros b' id e Hretry. unfold nextId_retry in Hretry.
  destruct (Z.eqb_spec (leftCount (biz s)) 0) as [Hz|Hnz].
  - inversion Hretry; subst. split; [now apply Hiff|]. repeat split.
  - destruct (popNextId (biz s)) as [[id' bp]|]; discriminate Hretry.
Qed.

Lemma leftCount_zero_iff_empty_witness :
  exists s evs,
    run [ACall; AFill 0; AFetch 0 (granted 2 2); AFill 0; AResume 0%nat; ACall]
        (initSys "t") = Some (s, evs) /\
    segments (biz s) = [] /\ leftCount (biz s) = 0.
Proof.
  destruct (run [ACall; AFill 0; AFetch 0 (granted 2 2); AFill 0; AResume 0%nat;
                 ACall] (initSys "t"))
    as [[s evs]|] eqn:Hrun; [|vm_compute in Hrun; discriminate Hrun].
  exists s, evs. split; [reflexivity|].
  assert (Hsegs : segments (biz s) = [])
    by (vm_compute in Hrun; now inversion Hrun).
  split; [exact Hsegs|].
  refine (proj2 (proj1 (leftCount_zero_iff_empty "t" _ s evs _ Hrun)) Hsegs).
  vm_compute. repeat split; discriminate.
Defined.

(** *** A store that fails *)

Lemma newSegment_store_fails r b seg :
  store_fails (bizTag b) r -> newSegment r b = inl seg -> False.
Proof.
  unfold store_fails, newSegment.
  destruct (Data_NextId r (bizTag b)) as [[maxId stp] [e|]];
    [discriminate|contradiction].
Qed.

Lemma step_no_store tag a s s' evs :
  answers store_fails tag a ->
  bizTag (biz s) = tag /\ everywhere (fun _ => False) s ->
  step a s = Some (s', evs) ->
  (bizTag (biz s') = tag /\ everywhere (fun _ => False) s') /\
  Forall shows_no_id evs.
Proof.
  intros Ha Hs Hstep.
  split.
  { exact (step_keeps (fun _ => False) store_fails (fun _ H _ => H)
             newSegment_store_fails tag a s s' evs Ha Hs Hstep). }
  destruct Hs as [Htag [Hsegs Hfill]].
  assert (Hnil : segments (biz s) = [])
    by (destruct (segments (biz s)); [reflexivity|now inversion Hsegs]).
  assert (Hzero : leftCount (biz s) = 0) by now apply leftCount_empty.
  destruct a as [|c|i|i r]; cbn [step] in Hstep.
  - unfold nextId_enter in Hstep. rewrite Hzero in Hstep. cbn [Z.eqb] in Hstep.
    injection Hstep as <- <-.
    destruct ((length (segments (biz s)) <=? 1)%nat && negb (isAllocating (biz s)));
      repeat constructor.
  - destruct (decide (c ∈ parked s)); [|discriminate].
    unfold nextId_retry in Hstep. rewrite Hzero in Hstep. cbn [Z.eqb] in Hstep.
    injection Hstep as <- <-. repeat constructor.
  - apply fill_at_inv in Hstep as (f & f' & cl' & b' & Hi & Hf & ->).
    pose proof (Forall_lookup_1 _ _ _ _ Hfill Hi) as Hfi.
    destruct f as [n|n|n|seg]; [| | |contradiction];
      cbn [fillSegments_step] in Hf; try discriminate Hf.
    + destruct (length (segments (biz s)) <=? 1)%nat; injection Hf as <- <- <- <-;
        repeat constructor.
    + destruct (wakeup (closed s) (biz s)) as [[cl1 b1]|]; [|discriminate].
      injection Hf as <- <- <- <-. repeat constructor.
  - apply fill_at_inv in Hstep as (f & f' & cl' & b' & Hi & Hf & ->).
    pose proof (Forall_lookup_1 _ _ _ _ Hfill Hi) as Hfi.
    destruct f as [n|n|n|seg]; [| | |contradiction];
      cbn [fillSegments_step] in Hf; try discriminate Hf.
    destruct (newSegment r (biz s)) as [seg|e] eqn:Hnew.
    + exfalso. cbn in Ha. rewrite <- Htag in Ha.
      exact (newSegment_store_fails _ _ _ Ha Hnew).
    + destruct (3 <? add64 n 1); injection Hf as <- <- <- <-; repeat constructor.
Qed.

(** X7.  IDs come from the store only.  Along a schedule on which every
    advance of the store fails (the tag has no row, the database is
    down), the buffer stays empty, no ID is served, and every call that
    returns returns 0 and the error "no available id": in the state
    reached a new call parks, and the retry of a parked one fails. *)
Theorem no_store_no_ids
    (tag : string) (acts : list Action) (s : Sys) (evs : list Event) :
  Forall (answers store_fails tag) acts ->
  run acts (initSys tag) = Some (s, evs) ->
  segments (biz s) = [] /\ served_ids evs = [] /\
  (forall id err, In (EvReturn id err) evs ->
     id = 0 /\ err = Some "no available id"%string) /\
  nextId_retry (biz s) = Some (biz s, (0, Some "no available id"%string)) /\
  (exists b1 spawn,
      nextId_enter (made s) (biz s) = Some (b1, spawn, Queued)).
Proof.
  intros Hacts Hrun.
  destruct (run_events
              (fun s => bizTag (biz s) = tag /\ everywhere (fun _ => False) s)
              (answers store_fails tag) shows_no_id
              (step_no_store tag) acts _ s evs Hacts
              (initSys_everywhere (fun _ => False) tag) Hrun)
    as [[_ [Hsegs _]] Hevs].
  assert (Hnil : segments (biz s) = [])
    by (destruct (segments (biz s)); [reflexivity|now inversion Hsegs]).
  assert (Hzero : leftCount (biz s) = 0) by now apply leftCount_empty.
  split; [exact Hnil|]. split; [|split; [|split]].
  - clear Hrun. induction Hevs as [|e evs' He _ IH]; [reflexivity|].
    destruct e; cbn in He |- *; try contradiction; exact IH.
  - intros id err Hin.
    exact (proj1 (List.Forall_forall _ _) Hevs _ Hin).
  - unfold nextId_retry. now rewrite Hzero.
  - unfold nextId_enter. rewrite Hzero. cbn [Z.eqb]. eauto.
Qed.

(** A cold start against a store that is down: the caller parks, the
    refill goroutine fails four times and gives up, the caller resumes. *)
Lemma no_store_no_ids_witness :
  exists s evs,
    run [ACall; AFill 0; AFetch 0 refused; AFill 0; AFetch 0 refused;
         AFill 0; AFetch 0 refused; AFill 0; AFetch 0 refused; AFill 0;
         AResume 0%nat]
        (initSys "t") = Some (s, evs) /\
    In (EvReturn 0 (Some "no available id"%string)) evs /\
    served_ids evs = [] /\ fillers s = [].
Proof.
  destruct (run [ACall; AFill 0; AFetch 0 refused; AFill 0; AFetch 0 refused;
                 AFill 0; AFetch 0 refused; AFill 0; AFetch 0 refused; AFill 0;
                 AResume 0%nat] (initSys "t"))
    as [[s evs]|] eqn:Hrun; [|vm_compute in Hrun; discriminate Hrun].
  exists s, evs. split; [reflexivity|].
  split; [vm_compute in Hrun; inversion Hrun; cbn; tauto|].
  split.
  - refine (proj1 (proj2 (no_store_no_ids "t" _ s evs _ Hrun))).
    repeat first [apply List.Forall_nil | apply List.Forall_cons; [exact I|]].
  - vm_compute in Hrun. now inversion Hrun.
Defined.

(** *** The refill goroutine by itself *)





(** *** What a refill adds *)

Lemma exact_remaining_app segs1 segs2 :
  exact_remaining (segs1 ++ segs2)
  = exact_remaining segs1 + exact_remaining segs2.
Proof.
  unfold exact_remaining. induction segs1 as [|s segs1 IH]; cbn; [reflexivity|].
  cbn in IH. rewrite IH. lia.
Qed.

(** X9.  A successful refill adds [step] IDs.  When the store answers an
    advance with [(maxId, step)], the call of the store leaves the buffer
    as it is, and the append that follows puts the segment
    [{0, maxId - step, maxId}] at the back of the buffer and raises
    [leftCount] by [step], in [int64] arithmetic. *)
Theorem refill_adds_step
    (i : nat) (r : TxReplies) (s s1 s2 : Sys) (evs1 evs2 : list Event)
    (maxId stp : Z) :
  Data_NextId r (bizTag (biz s)) = (maxId, stp, None) ->
  step (AFetch i r) s = Some (s1, evs1) ->
  step (AFill i) s1 = Some (s2, evs2) ->
  segments (biz s1) = segments (biz s) /\
  segments (biz s2)
  = segments (biz s) ++ [mkSegment 0 (sub64 maxId stp) maxId] /\
  leftCount (biz s2) = add64 (leftCount (biz s)) stp.
Proof.
  intros Hdata Hfetch Happend. cbn [step] in Hfetch, Happend.
  apply fill_at_inv in Hfetch as (f & f' & cl' & b' & Hi & Hf & ->).
  assert (Hnew : newSegment r (biz s) = inl (mkSegment 0 (sub64 maxId stp) maxId))
    by (unfold newSegment; now rewrite Hdata).
  destruct f as [n|n|n|seg]; cbn [fillSegments_step] in Hf; try discriminate Hf.
  rewrite Hnew in Hf. injection Hf as <- <- <- <-.
  apply fill_at_inv in Happend as (f1 & f1' & cl1' & b1' & Hi1 & Hf1 & ->).
  cbn [fillers biz closed] in Hi1, Hf1.
  assert (Hlen : (i < length (fillers s))%nat)
    by (apply lookup_lt_is_Some; eauto).
  rewrite list_lookup_insert_eq in Hi1 by exact Hlen.
  injection Hi1 as <-. cbn [fillSegments_step] in Hf1.
  destruct (wakeup (closed s) _) as [[cl2 b2]|] eqn:Hw; [|discriminate].
  apply wakeup_frame in Hw as (Hs & _). cbn in Hs.
  assert (Hb2 : segments b1' = segments b2)
    by (destruct (1 <? length (segments b2))%nat; now injection Hf1 as <- <- <- <-).
  cbn [biz]. split; [reflexivity|]. rewrite Hb2, Hs. split; [reflexivity|].
  rewrite !leftCount_sum, Hb2, Hs, exact_remaining_app. unfold add64.
  rewrite wrap_add_l. unfold exact_remaining at 2. cbn. unfold sub64.
  replace (exact_remaining (segments (biz s)) + (maxId - wrap (maxId - stp) - 0 + 0))
    with (exact_remaining (segments (biz s)) + maxId - wrap (maxId - stp)) by lia.
  rewrite wrap_sub_r. f_equal. lia.
Qed.

Lemma refill_adds_step_witness :
  exists s1 evs1 s2 evs2,
    step (AFetch 0 (granted 300 100))
         (mkSys (mkBizAlloc "t" [mkSegment 40 100 200] true []) [FFetch 0] ∅ ∅ 0%nat)
    = Some (s1, evs1) /\
    step (AFill 0) s1 = Some (s2, evs2) /\
    leftCount (biz s2) = 60 + 100.
Proof.
  destruct (step (AFetch 0 (granted 300 100))
              (mkSys (mkBizAlloc "t" [mkSegment 40 100 200] true []) [FFetch 0]
                 ∅ ∅ 0%nat)) as [[s1 evs1]|] eqn:Hfetch;
    [|vm_compute in Hfetch; discriminate Hfetch].
  destruct (step (AFill 0) s1) as [[s2 evs2]|] eqn:Happend;
    [|vm_compute in Hfetch; inversion Hfetch; subst; vm_compute in Happend;
      discriminate Happend].
  exists s1, evs1, s2, evs2. split; [reflexivity|]. split; [exact Happend|].
  destruct (refill_adds_step 0 (granted 300 100) _ s1 s2 evs1 evs2 300 100
              eq_refl Hfetch Happend) as (_ & _ & ->).
  reflexivity.
Defined.

(** *** [wakeup] *)

Lemma close_all_Some cs : forall cl cl',
  close_all cs cl = Some cl' ->
  NoDup cs /\ forall c, c ∈ cs -> c ∉ cl.
Proof.
  induction cs as [|c cs IH]; intros cl cl'; cbn [close_all].
  - intros _. split; [constructor|]. intros c Hc. inversion Hc.
  - destruct (decide (c ∈ cl)) as [|Hopen]; [discriminate|].
    intros [Hnd Hrest]%IH. split.
    + constructor; [|exact Hnd]. intros Hc. apply (Hrest c Hc).
      apply elem_of_union. left. now apply elem_of_singleton.
    + intros c' [->|Hc']%elem_of_cons; [exact Hopen|].
      intros Hin. apply (Hrest c' Hc'). apply elem_of_union. now right.
Qed.

(** X10.  [wakeup] panics exactly when the queue holds a handle twice or
    holds one that is closed already.  Otherwise it closes the queued
    handles and no other, empties the queue, and leaves the buffer and
    [isAllocating] alone. *)
Theorem wakeup_panics_iff (cl : gset chan) (b : BizAlloc) :
  (wakeup cl b = None <->
   ~ (NoDup (waiting b) /\ forall c, c ∈ waiting b -> c ∉ cl)) /\
  (forall cl' b',
      wakeup cl b = Some (cl', b') ->
      cl' = list_to_set (waiting b) ∪ cl /\ waiting b' = [] /\
      segments b' = segments b /\ isAllocating b' = isAllocating b).
Proof.
  split.
  - unfold wakeup. split.
    + intros Hnone [Hnd Hopen].
      destruct (close_all_open (waiting b) cl Hnd Hopen) as [cl' Hcl'].
      rewrite Hcl' in Hnone. discriminate Hnone.
    + intros Hnot. destruct (close_all (waiting b) cl) as [cl'|] eqn:Hc;
        [|reflexivity].
      contradiction Hnot. exact (close_all_Some _ _ _ Hc).
  - intros cl' b' Hw. pose proof (wakeup_closes _ _ _ _ Hw) as [Hcl _].
    apply wakeup_frame in Hw as (Hs & Hf & _ & Hq). auto.
Qed.

(** *** The registry and the other tags *)

(** X11.  [Alloc.NextId] for one tag leaves the allocators of all other
    tags as they are, and removes no tag: the registry it leaves holds the
    tags it held, and this one. *)
Theorem Alloc_NextId_other_tags
    (env : CallEnv) (tag : string) (alloc alloc' : Alloc) (r : Z * error) :
  Alloc_NextId env tag alloc = Some (alloc', r) ->
  (forall tag', tag' <> tag -> alloc' !! tag' = alloc !! tag') /\
  dom alloc' = {[tag]} ∪ dom alloc.
Proof.
  unfold Alloc_NextId. intros H.
  destruct (alloc !! tag) as [b|] eqn:Hlook.
  - destruct (nextId env b) as [res|]; [|discriminate].
    injection H as <- <-. split.
    + intros tag' Hne. now apply lookup_insert_ne.
    + apply dom_insert_L.
  - destruct (nextId env (newBizAlloc tag)) as [res|]; [|discriminate].
    injection H as <- <-. split.
    + intros tag' Hne.
      rewrite (lookup_insert_ne (<[tag:=newBizAlloc tag]> alloc)) by congruence.
      now apply lookup_insert_ne.
    + unfold Alloc in *. rewrite !dom_insert_L. rewrite (assoc_L (∪)).
      now rewrite (idemp_L (∪)).
Qed.

Lemma Alloc_NextId_other_tags_witness :
  exists alloc' r,
    Alloc_NextId (mkCallEnv 0%nat None (fun b => b) 1700000000000) "orders"
      (<["users" := mkBizAlloc "users" [mkSegment 0 0 10] false []]> InitAlloc)
    = Some (alloc', r) /\
    alloc' !! "users"%string
    = Some (mkBizAlloc "users" [mkSegment 0 0 10] false []).
Proof.
  destruct (Alloc_NextId (mkCallEnv 0%nat None (fun b => b) 1700000000000)
              "orders"
              (<["users" := mkBizAlloc "users" [mkSegment 0 0 10] false []]>
                 InitAlloc)) as [[alloc' r]|] eqn:Hcall;
    [|vm_compute in Hcall; discriminate Hcall].
  exists alloc', r. split; [reflexivity|].
  rewrite (proj1 (Alloc_NextId_other_tags _ _ _ _ _ Hcall) "users"%string)
    by discriminate.
  reflexivity.
Defined.

(** *** Every ID of every window, once *)

Lemma window_ids_empty l r : r <= l -> window_ids l r = [].
Proof.
  intros Hle. unfold window_ids.
  replace (Z.to_nat (r - l)) with 0%nat by lia. reflexivity.
Qed.

Lemma window_ids_cons l r : l < r -> window_ids l r = l :: window_ids (l + 1) r.
Proof.
  intros Hlt. unfold window_ids.
  replace (Z.to_nat (r - l)) with (S (Z.to_nat (r - (l + 1)))) by lia.
  cbn [seq map]. f_equal; [lia|].
  rewrite <- seq_shift, map_map. apply map_ext. intros k. lia.
Qed.

Lemma held_app segs1 segs2 : held (segs1 ++ segs2) = held segs1 ++ held segs2.
Proof. unfold held. apply flat_map_app. Qed.

(** From a state whose segments satisfy the invariant: the IDs served,
    then those still held, are those held before, then those granted. *)
Lemma served_held_from tag acts :
  forall s s' evs,
    Forall (action_ok tag) acts ->
    single_flight s -> bizTag (biz s) = tag /\ buffer_ok s ->
    run acts s = Some (s', evs) ->
    served_ids evs ++ held (chain s') = held (chain s) ++ granted_ids tag acts.
Proof.
  induction acts as [|act acts IH]; intros s s' evs Hacts Hinv Hs Hrun.
  { inversion Hrun; subst. cbn. now rewrite app_nil_r. }
  cbn [run] in Hrun. inversion Hacts as [|? ? Hact Hacts']; subst.
  destruct (step act s) as [[s1 evs1]|] eqn:Hstep; [|discriminate].
  destruct (run acts s1) as [[s2 evs2]|] eqn:Hrest; [|discriminate].
  inversion Hrun; subst; clear Hrun.
  pose proof (step_single_flight _ _ _ _ Hinv Hstep) as Hinv1.
  pose proof (step_buffer_ok _ _ _ _ _ Hact Hs Hstep) as Hs1.
  specialize (IH s1 s' evs2 Hacts' Hinv1 Hs1 Hrest).
  destruct Hs as [Htag [Hsegs Hfill]].
  assert (Hcaller :
    match act with ACall | AResume _ => True | _ => False end ->
    served_ids (evs1 ++ evs2) ++ held (chain s')
    = held (chain s) ++ granted_ids tag acts).
  { intros Ha.
    destruct (caller_step_chain act s s1 evs1 Ha Hstep)
      as [(id & retired & evs' & s0 & rest & -> & Hno & Hc & -> & Hcase)
         |(Hno & Hsame)].
    - cbn [app served_ids]. rewrite (served_ids_skip _ _ Hno).
      rewrite IH, Hc.
      assert (Hs0 : seg_ok s0).
      { unfold chain in Hc. destruct (segments (biz s)) as [|s0' rest'] eqn:Hb.
        - exfalso. destruct (step_serves _ _ _ _ Hstep)
            as [(? & ? & ? & ? & ? & _ & _ & Hb' & _)|(Hno' & _)];
            [rewrite Hb in Hb'; discriminate Hb'|discriminate Hno'].
        - cbn in Hc. inversion Hc; subst. now inversion Hsegs. }
      pose proof (seg_ok_cursor_advanced s0 Hs0) as Hadv.
      rewrite cursor_advance in Hadv.
      assert (Hlt : cursor s0 < right s0) by apply Hs0.
      unfold held at 2. cbn [flat_map]. fold (held rest).
      rewrite (window_ids_cons _ _ Hlt), <- !app_comm_cons. f_equal.
      destruct Hcase as [[-> Hge]|[-> Hkept]].
      + rewrite window_ids_empty by lia. reflexivity.
      + unfold held at 1. cbn [flat_map]. fold (held rest).
        rewrite cursor_advance, Hadv. cbn [right advanced]. reflexivity.
    - rewrite (served_ids_skip _ _ Hno), IH, Hsame. reflexivity. }
  destruct act as [|c|i|i r]; cbn [granted_ids];
    [exact (Hcaller I)..| |]; clear Hcaller;
    cbn [step] in Hstep;
    destruct (fill_step_chain _ _ _ _ _ Hinv Hstep) as [Hno Hchain];
    rewrite (served_ids_skip _ _ Hno), IH, Hchain.
  - now rewrite app_nil_r.
  - rewrite <- Htag. unfold newSegment.
    destruct (Data_NextId r (bizTag (biz s))) as [[maxId stp] [e|]].
    + now rewrite app_nil_r.
    + rewrite held_app, <- app_assoc. f_equal. unfold held. cbn [flat_map].
      rewrite app_nil_r. unfold cursor, add64. cbn [left offset right].
      rewrite Z.add_0_r, wrap_exact by apply wrap_range. reflexivity.
Qed.

(** X18.  The allocator hands out the IDs of the windows it was granted,
    all of them, each once, in order.  Provided every window the store
    grants is not empty, in every state the allocator of a tag can reach
    the IDs served so far, followed by the IDs that the buffer and the
    segment about to be appended still hold, are the IDs of the granted
    windows [maxId - step, maxId), window after window: none is skipped
    and none is served twice. *)
Theorem served_are_the_granted
    (tag : string) (acts : list Action) (s : Sys) (evs : list Event) :
  Forall (action_ok tag) acts ->
  run acts (initSys tag) = Some (s, evs) ->
  served_ids evs ++ held (chain s) = granted_ids tag acts.
Proof.
  intros Hacts Hrun.
  exact (served_held_from tag acts _ _ _ Hacts (initSys_single_flight tag)
           (initSys_buffer_ok tag) Hrun).
Qed.

Lemma served_are_the_granted_witness :
  exists s evs,
    run [ACall; AFill 0; AFetch 0 (granted 3 3); AFill 0; AResume 0%nat;
         AFill 0; AFetch 0 (granted 6 3); ACall]
        (initSys "t") = Some (s, evs) /\
    served_ids evs = [0; 1] /\ held (chain s) = [2; 3; 4; 5].
Proof.
  destruct (run [ACall; AFill 0; AFetch 0 (granted 3 3); AFill 0; AResume 0%nat;
                 AFill 0; AFetch 0 (granted 6 3); ACall] (initSys "t"))
    as [[s evs]|] eqn:Hrun; [|vm_compute in Hrun; discriminate Hrun].
  exists s, evs. split; [reflexivity|].
  assert (Hserved : served_ids evs = [0; 1])
    by (vm_compute in Hrun; now inversion Hrun).
  split; [exact Hserved|].
  assert (Hok : Forall (action_ok "t")
                   [ACall; AFill 0; AFetch 0 (granted 3 3); AFill 0;
                    AResume 0%nat; AFill 0; AFetch 0 (granted 6 3); ACall])
    by check_schedule.
  pose proof (served_are_the_granted "t" _ s evs Hok Hrun) as Hall.
  rewrite Hserved in Hall.
  change (granted_ids _ _) with [0; 1; 2; 3; 4; 5] in Hall.
  now inversion Hall.
Defined.

(** Ascending windows are windows that are not empty. *)
Lemma grants_ascend_action_ok tag acts : forall hw,
  grants_ascend tag hw acts -> Forall (action_ok tag) acts.
Proof.
  induction acts as [|a acts IH]; intros hw Hg; [constructor|].
  destruct a as [|c|i|i r]; cbn [grants_ascend] in Hg;
    try (constructor; [exact I|exact (IH hw Hg)]).
  assert (Hok : action_ok tag (AFetch i r) /\
                exists hw', grants_ascend tag hw' acts).
  { unfold action_ok, answers, grant_ok.
    destruct (Data_NextId r tag) as [[maxId stp] [e|]].
    - split; [exact I|eauto].
    - destruct Hg as (Hm & Hwin & Hg'). split; [split; [exact Hm|lia]|eauto]. }
  destruct Hok as [Hok [hw' Hg']]. constructor; [exact Hok|exact (IH hw' Hg')].
Qed.

(** X5.  When the windows the store grants to this process ascend (each
    not empty, each at or above the end of the one before), the IDs that
    the allocator of a tag serves, taken in the order of the pops and
    across all segments, strictly increase; so no ID is served twice.
    They are the first of the IDs of the windows granted. *)
Theorem served_ids_ascending
    (tag : string) (acts : list Action) (s : Sys) (evs : list Event) :
  grants_ascend tag min_int64 acts ->
  run acts (initSys tag) = Some (s, evs) ->
  ascending (served_ids evs) /\ NoDup (served_ids evs) /\
  exists later, served_ids evs ++ later = granted_ids tag acts.
Proof.
  intros Hg Hrun.
  assert (Hrise : rising min_int64 (chain (initSys tag)) min_int64)
    by (cbn; lia).
  destruct (served_ascending_from tag acts _ _ _ _ _ Hg
              (initSys_single_flight tag) eq_refl Hrise Hrun) as (_ & Hasc & _).
  split; [exact Hasc|]. split; [now apply ascending_NoDup|].
  exists (held (chain s)).
  exact (served_held_from tag acts _ _ _ (grants_ascend_action_ok _ _ _ Hg)
           (initSys_single_flight tag) (initSys_buffer_ok tag) Hrun).
Qed.

(** Two segments of two IDs each, the second fetched while the first is
    being served. *)
Lemma served_ids_ascending_witness :
  exists s evs,
    run [ACall; AFill 0; AFetch 0 (granted 2 2); AFill 0; AResume 0%nat;
         AFill 0; AFetch 0 (granted 4 2); ACall; AFill 0; ACall; ACall]
        (initSys "t") = Some (s, evs) /\
    served_ids evs = [0; 1; 2; 3] /\
    ascending (served_ids evs) /\ NoDup (served_ids evs).
Proof.
  destruct (run [ACall; AFill 0; AFetch 0 (granted 2 2); AFill 0; AResume 0%nat;
                 AFill 0; AFetch 0 (granted 4 2); ACall; AFill 0; ACall; ACall]
                (initSys "t"))
    as [[s evs]|] eqn:Hrun; [|vm_compute in Hrun; discriminate Hrun].
  exists s, evs. split; [reflexivity|]. split.
  - vm_compute in Hrun. inversion Hrun. reflexivity.
  - assert (Hg : grants_ascend "t" min_int64
                   [ACall; AFill 0; AFetch 0 (granted 2 2); AFill 0;
                    AResume 0%nat; AFill 0; AFetch 0 (granted 4 2); ACall;
                    AFill 0; ACall; ACall])
      by (vm_compute; repeat split; discriminate).
    destruct (served_ids_ascending "t" _ s evs Hg Hrun) as (Hasc & Hnd & _).
    split; assumption.
Defined.

(** *** Goroutines started and ended *)

Lemma count_events_app p evs1 evs2 :
  count_events p (evs1 ++ evs2) = (count_events p evs1 + count_events p evs2)%nat.
Proof. unfold count_events. now rewrite List.filter_app, length_app. Qed.

Lemma step_goroutines a s s' evs :
  single_flight s -> step a s = Some (s', evs) ->
  (count_events is_spawn evs + length (fillers s)
   = count_events is_exit evs + length (fillers s'))%nat.
Proof.
  intros Hinv Hstep. destruct a as [|c|i|i r]; cbn [step] in Hstep.
  - destruct (nextId_enter (made s) (biz s)) as [[[b1 spawn] out]|];
      [|discriminate].
    destruct out, spawn; injection Hstep as <- <-; cbn [fillers];
      rewrite ?length_app; cbn; lia.
  - destruct (decide (c ∈ parked s)) as [Hin|]; [|discriminate].
    destruct (nextId_retry (biz s)) as [[b1 [id [e|]]]|]; [| |discriminate];
      injection Hstep as <- <-; cbn; lia.
  - apply fill_at_inv in Hstep as (f & f' & cl' & b' & Hi & Hf & ->).
    destruct (single_flight_lookup s i f Hinv Hi) as (-> & Hfs & _ & _).
    cbn [fillers]. rewrite Hfs.
    destruct f as [n|n|n|seg]; cbn [fillSegments_step] in Hf; try discriminate Hf.
    + destruct (length (segments (biz s)) <=? 1)%nat; injection Hf as <- <- <- <-;
        cbn; lia.
    + destruct (wakeup (closed s) (biz s)) as [[cl1 b1]|]; [|discriminate].
      injection Hf as <- <- <- <-. cbn. lia.
    + destruct (wakeup (closed s) _) as [[cl1 b1]|]; [|discriminate].
      destruct (1 <? length (segments b1))%nat; injection Hf as <- <- <- <-;
        cbn; lia.
  - apply fill_at_inv in Hstep as (f & f' & cl' & b' & Hi & Hf & ->).
    destruct (single_flight_lookup s i f Hinv Hi) as (-> & Hfs & _ & _).
    cbn [fillers]. rewrite Hfs.
    destruct f as [n|n|n|seg]; cbn [fillSegments_step] in Hf; try discriminate Hf.
    destruct (newSegment r (biz s)); [|destruct (3 <? add64 n 1)];
      injection Hf as <- <- <- <-; cbn; lia.
Qed.

Lemma run_goroutines acts : forall s s' evs,
  single_flight s -> run acts s = Some (s', evs) ->
  (count_events is_spawn evs + length (fillers s)
   = count_events is_exit evs + length (fillers s'))%nat.
Proof.
  induction acts as [|a acts IH]; intros s s' evs Hinv Hrun.
  - inversion Hrun; subst. cbn. lia.
  - cbn [run] in Hrun.
    destruct (step a s) as [[s1 evs1]|] eqn:Hstep; [|discriminate].
    destruct (run acts s1) as [[s2 evs2]|] eqn:Hrest; [|discriminate].
    inversion Hrun; subst; clear Hrun.
    pose proof (step_goroutines _ _ _ _ Hinv Hstep).
    pose proof (IH _ _ _ (step_single_flight _ _ _ _ Hinv Hstep) Hrest).
    rewrite !count_events_app. lia.
Qed.

(** X19.  No goroutine is lost.  Along every schedule from a cold start,
    the [fillSegments] goroutines started are those that have ended and
    the one, if any, that runs: the number of [go bizAlloc.fillSegments()]
    executed is the number of goroutines ended, or one more. *)
Theorem refill_goroutines_accounted
    (tag : string) (acts : list Action) (s : Sys) (evs : list Event) :
  run acts (initSys tag) = Some (s, evs) ->
  count_events is_spawn evs
  = (count_events is_exit evs + length (fillers s))%nat /\
  (count_events is_exit evs <= count_events is_spawn evs
   <= count_events is_exit evs + 1)%nat.
Proof.
  intros Hrun.
  pose proof (run_goroutines acts _ _ _ (initSys_single_flight tag) Hrun) as Hn.
  pose proof (run_single_flight acts _ _ _ (initSys_single_flight tag) Hrun)
    as Hinv.
  apply single_flight_bound in Hinv as (_ & Hone & _).
  cbn in Hn. lia.
Qed.

Lemma refill_goroutines_accounted_witness :
  exists s evs,
    run [ACall; AFill 0; AFetch 0 (granted 1 1); AFill 0;
         AFill 0; AFetch 0 (granted 2 1); AFill 0; AResume 0%nat; ACall]
        (initSys "t") = Some (s, evs) /\
    count_events is_spawn evs = 2%nat /\ count_events is_exit evs = 1%nat /\
    length (fillers s) = 1%nat.
Proof.
  destruct (run [ACall; AFill 0; AFetch 0 (granted 1 1); AFill 0;
                 AFill 0; AFetch 0 (granted 2 1); AFill 0; AResume 0%nat; ACall]
                (initSys "t"))
    as [[s evs]|] eqn:Hrun; [|vm_compute in Hrun; discriminate Hrun].
  exists s, evs. split; [reflexivity|].
  destruct (refill_goroutines_accounted "t" _ s evs Hrun) as [Heq _].
  assert (Hex : count_events is_exit evs = 1%nat /\ length (fillers s) = 1%nat)
    by (vm_compute in Hrun; inversion Hrun; split; reflexivity).
  destruct Hex as [Hex Hf]. rewrite Heq, Hex, Hf. repeat split.
Defined.

(** ** The transaction of [Data.NextId] *)

(** Settles the conjuncts of the statement below on a path that ends in
    [ROLLBACK] or at the failed [BeginTx]. *)
Ltac failed_path :=
  cbn; repeat match goal with |- _ /\ _ => split end;
  first
    [ reflexivity
    | solve [intuition congruence]
    | intros _; right; split; [reflexivity|discriminate]
    | let H := fresh "Hin" in intros H; cbn in H; solve [intuition discriminate] ].

(** X12.  [Data.NextId] ends the transaction it begins, once.  The error
    it returns is the one of the value-returning embedding.  When
    [BeginTx] fails it makes no other call on the database.  When
    [BeginTx] succeeds, exactly one of [Commit] and [Rollback] is called,
    once: [Commit] when every call before it succeeded and the [UPDATE]
    changed a row, the error returned being [Commit]'s; [Rollback]
    otherwise, with an error returned.  So a nil error means the advance
    was committed.  The row is read only after it was advanced and only if
    the [UPDATE] changed a row. *)
Theorem Data_NextId_ends_transaction
    (table : string) (r : TxReplies) (bizTag : string) :
  let calls := fst (Data_NextId_calls table r bizTag) in
  let err := snd (Data_NextId_calls table r bizTag) in
  err = snd (Data_NextId r bizTag) /\
  (beginTx r <> None -> calls = [DbBeginTx; DbCancel]) /\
  (beginTx r = None ->
   List.filter ends_tx calls = [DbCommit] /\ err = commit r \/
   List.filter ends_tx calls = [DbRollback] /\ err <> None) /\
  (err = None -> List.filter ends_tx calls = [DbCommit]) /\
  (In DbCommit calls ->
   exists maxId stp,
     scanRow r = inl (maxId, stp) /\
     Data_NextId r bizTag = (maxId, stp, commit r)) /\
  (In (DbQueryRowScan bizTag) calls ->
   fst (rowsAffected r) <> 0 /\
   exists pre post,
     calls = pre ++ DbQueryRowScan bizTag :: post /\ In (DbExec bizTag) pre).
Proof.
  cbv zeta. unfold Data_NextId_calls, Data_NextId.
  generalize (update_query table) (select_query table). intros u q.
  destruct r as [b pu eu [n ra] ps sc cm]. cbn [beginTx prepareUpdate execUpdate
    rowsAffected prepareSelect scanRow commit fst snd].
  destruct b as [e|]; [failed_path|].
  destruct pu as [e|]; [failed_path|].
  destruct eu as [e|]; [failed_path|].
  destruct ra as [e|]; [failed_path|].
  destruct (Z.eqb_spec n 0) as [Hz|Hnz]; [failed_path|].
  destruct ps as [e|]; [failed_path|].
  destruct sc as [[maxId stp]|e].
  - cbn. split; [reflexivity|]. split; [intros H; now contradiction H|].
    split; [intros _; left; split; reflexivity|].
    split; [intros _; reflexivity|].
    split; [intros _; now exists maxId, stp|].
    intros _. split; [exact Hnz|].
    exists [DbBeginTx; DbPrepare u; DbExec bizTag; DbRowsAffected; DbPrepare q],
           [DbCommit; DbStmtClose u; DbCancel].
    split; [reflexivity|]. cbn. tauto.
  - cbn. split; [reflexivity|]. split; [intros H; now contradiction H|].
    split; [intros _; right; split; [reflexivity|discriminate]|].
    split; [discriminate|].
    split; [intros H; cbn in H; intuition discriminate|].
    intros _. split; [exact Hnz|].
    exists [DbBeginTx; DbPrepare u; DbExec bizTag; DbRowsAffected; DbPrepare q],
           [DbRollback; DbStmtClose u; DbCancel].
    split; [reflexivity|]. cbn. tauto.
Qed.

(** ** The handlers *)

(** [nextId] fails in one way only, and then returns 0. *)
Lemma nextId_error env b r e :
  nextId env b = Some r -> ret_err r = Some e ->
  ret_id r = 0 /\ e = "no available id"%string.
Proof.
  unfold nextId.
  destruct (nextId_enter (handle env) b) as [[[b1 spawn] [id|]]|];
    [| |discriminate].
  - intros H; inversion H; subst. discriminate.
  - unfold nextId_retry.
    destruct (leftCount (meanwhile env b1) =? 0).
    + intros H; inversion H; subst. cbn. intros He; inversion He; subst. auto.
    + destruct (popNextId (meanwhile env b1)) as [[id b3]|]; [|discriminate].
      intros H; inversion H; subst. discriminate.
Qed.

Lemma Alloc_NextId_error env tag alloc alloc' id e :
  Alloc_NextId env tag alloc = Some (alloc', (id, Some e)) ->
  id = add64 0 (now env) /\ e = "no available id"%string.
Proof.
  unfold Alloc_NextId.
  destruct (alloc !! tag) as [b|].
  - destruct (nextId env b) as [r|] eqn:Hr; [|discriminate].
    intros H; inversion H; subst.
    destruct (nextId_error env b r e Hr) as [-> ->]; auto.
  - destruct (nextId env (newBizAlloc tag)) as [r|] eqn:Hr; [|discriminate].
    intros H; inversion H; subst.
    destruct (nextId_error env _ r e Hr) as [-> ->]; auto.
Qed.

(** The loop calls [Alloc.NextId] for as long as the call succeeds with
    the ID 0. *)
Lemma handleAlloc_loop_done envs : forall tag alloc alloc' id err,
  handleAlloc_loop envs tag alloc = Some (alloc', Some (id, err)) ->
  is_Some (alloc' !! tag) /\
  match err with
  | None => id <> 0
  | Some e =>
      e = "no available id"%string /\
      exists env, In env envs /\ id = add64 0 (now env)
  end.
Proof.
  induction envs as [|env envs IH]; intros tag alloc alloc' id err;
    cbn [handleAlloc_loop]; [discriminate|].
  destruct (Alloc_NextId_registers env tag alloc) as (alloc1 & [id1 err1] & Hcall & Hreg).
  rewrite Hcall. destruct err1 as [e|].
  - intros H; inversion H; subst. split; [exact Hreg|].
    destruct (Alloc_NextId_error _ _ _ _ _ _ Hcall) as [-> ->].
    split; [reflexivity|]. exists env. split; [now left|reflexivity].
  - destruct (Z.eqb_spec id1 0) as [Hz|Hnz].
    + intros H. destruct (IH _ _ _ _ _ H) as [Hr Herr]. split; [exact Hr|].
      destruct err as [e|]; [|exact Herr].
      destruct Herr as (-> & env' & Hin & ->).
      split; [reflexivity|]. exists env'. split; [now right|reflexivity].
    + intros H; inversion H; subst. split; [exact Hreg|exact Hnz].
Qed.



(** X14.  A response of [handleAlloc] with status 200 carries an ID.
    What is written is then the body alone, the encoding of
    [{err_no: 0, msg: "success", id: id}] with [id] not 0, and the
    registry holds the allocator of the tag asked for. *)
Theorem handleAlloc_ok_has_id
    (json_Marshal : AllocResponse -> option string) (req : Request)
    (envs : list CallEnv) (alloc alloc' : Alloc) (w : list Written) :
  handleAlloc json_Marshal req envs alloc = Some (Responded alloc' w) ->
  status_of w = 200 ->
  exists id bytes,
    id <> 0 /\ w = [Write bytes] /\
    json_Marshal (mkAllocResponse 0 "success" id) = Some bytes /\
    Values_Get (Form req) "biz_tag" <> ""%string /\
    is_Some (alloc' !! Values_Get (Form req) "biz_tag").
Proof.
  unfold handleAlloc.
  destruct (ParseForm req) as [e|].
  { intros H; inversion H; subst. discriminate. }
  destruct (decide (Values_Get (Form req) "biz_tag" = ""%string)) as [|Htag].
  { intros H; inversion H; subst. discriminate. }
  destruct (handleAlloc_loop envs (Values_Get (Form req) "biz_tag") alloc)
    as [[alloc1 [[id err]|]]|] eqn:Hloop; try discriminate.
  intros H; inversion H; subst; clear H.
  destruct (handleAlloc_loop_done _ _ _ _ _ _ Hloop) as [Hreg Herr].
  destruct err as [e|]; [discriminate|].
  unfold handleAlloc_RESP.
  destruct (json_Marshal (mkAllocResponse 0 "success" id)) as [bytes|] eqn:Hb;
    [|discriminate].
  intros _. exists id, bytes. repeat split; auto.
Qed.

(** The first ID drawn is 0 at clock 0 and is skipped; the second is
    returned. *)
Lemma handleAlloc_ok_has_id_witness :
  exists alloc' id bytes,
    handleAlloc (fun resp => Some (Msg resp))
      (mkRequest None {["biz_tag"%string := ["t"%string]]})
      [mkCallEnv 0%nat None (fun b => b) 0; mkCallEnv 0%nat None (fun b => b) 0]
      (<["t"%string := mkBizAlloc "t" [mkSegment 0 0 10] true []]> InitAlloc)
    = Some (Responded alloc' [Write bytes]) /\
    id <> 0 /\ Some (Msg (mkAllocResponse 0 "success" id)) = Some bytes.
Proof.
  destruct (handleAlloc (fun resp => Some (Msg resp))
      (mkRequest None {["biz_tag"%string := ["t"%string]]})
      [mkCallEnv 0%nat None (fun b => b) 0; mkCallEnv 0%nat None (fun b => b) 0]
      (<["t"%string := mkBizAlloc "t" [mkSegment 0 0 10] true []]> InitAlloc))
    as [[alloc' w|alloc']|] eqn:Hcall;
    [|vm_compute in Hcall; discriminate Hcall..].
  assert (Hst : status_of w = 200)
    by (vm_compute in Hcall; inversion Hcall; reflexivity).
  destruct (handleAlloc_ok_has_id _ _ _ _ _ _ Hcall Hst)
    as (id & bytes & Hid & -> & Hm & _).
  exists alloc', id, bytes. split; [reflexivity|]. split; assumption.
Defined.

(** X15.  When the request names a tag and the response of [handleAlloc]
    is not 200, the allocator had no ID to give.  With an encoder that
    does not fail, what is written is the status 500 and the encoding of
    [{err_no: -1, msg: "no available id", id: id}], where [id] is not 0
    but the millisecond clock of the failed call, to which
    [Alloc.NextId] adds the 0 that [nextId] returns with its error. *)
Theorem handleAlloc_error_carries_clock
    (json_Marshal : AllocResponse -> option string) (req : Request)
    (envs : list CallEnv) (alloc alloc' : Alloc) (w : list Written) :
  (forall resp, is_Some (json_Marshal resp)) ->
  ParseForm req = None -> Values_Get (Form req) "biz_tag" <> ""%string ->
  handleAlloc json_Marshal req envs alloc = Some (Responded alloc' w) ->
  status_of w <> 200 ->
  exists env bytes,
    In env envs /\
    w = [WriteHeader 500; Write bytes] /\
    json_Marshal
      (mkAllocResponse (-1) "no available id" (add64 0 (now env)))
    = Some bytes /\
    is_Some (alloc' !! Values_Get (Form req) "biz_tag").
Proof.
  intros Hm Hparse Htag. unfold handleAlloc. rewrite Hparse.
  destruct (decide (Values_Get (Form req) "biz_tag" = ""%string));
    [contradiction|].
  destruct (handleAlloc_loop envs (Values_Get (Form req) "biz_tag") alloc)
    as [[alloc1 [[id err]|]]|] eqn:Hloop; try discriminate.
  intros H; inversion H; subst; clear H.
  destruct (handleAlloc_loop_done _ _ _ _ _ _ Hloop) as [Hreg Herr].
  unfold handleAlloc_RESP. destruct err as [e|].
  - destruct Herr as (-> & env & Hin & ->). intros _.
    destruct (Hm (mkAllocResponse (-1) "no available id" (add64 0 (now env))))
      as [bytes Hb].
    exists env, bytes. rewrite Hb. repeat split; auto.
  - destruct (Hm (mkAllocResponse 0 "success" id)) as [bytes ->].
    intros Hst. now contradiction Hst.
Qed.

(** A cold start with no refill in time: the call waits out its timer and
    fails, at clock 1700000000000. *)
Lemma handleAlloc_error_carries_clock_witness :
  exists alloc',
    handleAlloc (fun resp => Some (Msg resp))
      (mkRequest None {["biz_tag"%string := ["t"%string]]})
      [mkCallEnv 0%nat None (fun b => b) 1700000000000] InitAlloc
    = Some (Responded alloc' [WriteHeader 500; Write "no available id"]).
Proof.
  destruct (handleAlloc (fun resp => Some (Msg resp))
      (mkRequest None {["biz_tag"%string := ["t"%string]]})
      [mkCallEnv 0%nat None (fun b => b) 1700000000000] InitAlloc)
    as [[alloc' w|alloc']|] eqn:Hcall;
    [|vm_compute in Hcall; discriminate Hcall..].
  assert (Hst : status_of w <> 200)
    by (vm_compute in Hcall; inversion Hcall; discriminate).
  assert (Htag : Values_Get {["biz_tag"%string := ["t"%string]]} "biz_tag"
                 <> ""%string) by (vm_compute; discriminate).
  destruct (handleAlloc_error_carries_clock (fun resp => Some (Msg resp))
              (mkRequest None {["biz_tag"%string := ["t"%string]]})
              [mkCallEnv 0%nat None (fun b => b) 1700000000000] InitAlloc
              alloc' w
              (fun resp => ex_intro _ (Msg resp) eq_refl) eq_refl
              Htag Hcall Hst)
    as (env & bytes & _ & -> & Hb & _).
  exists alloc'. cbn in Hb. inversion Hb. reflexivity.
Defined.

(** X16.  [handleHealth] only reads: it leaves the registry as it found
    it, whatever the request.  A health check for a tag the registry does
    not hold is therefore answered with the error "no available id"
    (status 500, [left] 0) however often it is repeated, until some
    [handleAlloc] has created the tag's allocator and started its
    refill. *)
Theorem handleHealth_only_reads
    (json_Marshal : HealthResponse -> option string) (req : Request)
    (alloc : Alloc) :
  fst (handleHealth json_Marshal req alloc) = alloc /\
  (ParseForm req = None ->
   Values_Get (Form req) "biz_tag" <> ""%string ->
   alloc !! Values_Get (Form req) "biz_tag" = None ->
   snd (handleHealth json_Marshal req alloc)
   = handleHealth_RESP json_Marshal 0 (Some "no available id"%string) /\
   status_of (snd (handleHealth json_Marshal req alloc)) = 500 /\
   forall bytes,
     In (Write bytes) (snd (handleHealth json_Marshal req alloc)) ->
     json_Marshal (mkHealthResponse (-1) "no available id" 0) = Some bytes).
Proof.
  unfold handleHealth. split.
  - destruct (ParseForm req); [reflexivity|].
    destruct (decide (Values_Get (Form req) "biz_tag" = ""%string));
      [reflexivity|].
    unfold Alloc_LeftCount.
    destruct (alloc !! Values_Get (Form req) "biz_tag") as [b|]; cbn.
    + now destruct (leftCountWithMutex b =? 0).
    + reflexivity.
  - intros -> Htag Hnone.
    destruct (decide (Values_Get (Form req) "biz_tag" = ""%string));
      [contradiction|].
    unfold Alloc_LeftCount. rewrite Hnone. cbn [Z.eqb snd].
    split; [reflexivity|]. split; [reflexivity|].
    unfold handleHealth_RESP. intros bytes.
    destruct (json_Marshal (mkHealthResponse (-1) "no available id" 0));
      cbn; intros [H|[H|[]]]; try discriminate H. now inversion H.
Qed.

(** X17.  For a tag the registry holds, and with an encoder that does
    not fail, [handleHealth] answers 200 exactly when [leftCount] is not
    0, a negative count included; the body is the encoding of
    [{err_no: 0, msg: "success", left: count}] then, and of
    [{err_no: -1, msg: "no available id", left: 0}] otherwise. *)
Theorem handleHealth_ok_iff_count
    (json_Marshal : HealthResponse -> option string) (req : Request)
    (alloc : Alloc) (b : BizAlloc) :
  (forall resp, is_Some (json_Marshal resp)) ->
  ParseForm req = None ->
  Values_Get (Form req) "biz_tag" <> ""%string ->
  alloc !! Values_Get (Form req) "biz_tag" = Some b ->
  (status_of (snd (handleHealth json_Marshal req alloc)) = 200
   <-> leftCount b <> 0) /\
  exists bytes,
    bodies (snd (handleHealth json_Marshal req alloc)) = [bytes] /\
    json_Marshal
      (if leftCount b =? 0
       then mkHealthResponse (-1) "no available id" 0
       else mkHealthResponse 0 "success" (leftCount b))
    = Some bytes.
Proof.
  intros Hm Hparse Htag Hlook. unfold handleHealth. rewrite Hparse.
  destruct (decide (Values_Get (Form req) "biz_tag" = ""%string));
    [contradiction|].
  unfold Alloc_LeftCount, leftCountWithMutex. rewrite Hlook.
  destruct (Z.eqb_spec (leftCount b) 0) as [Hz|Hnz];
    cbn [snd]; unfold handleHealth_RESP.
  - rewrite Hz.
    destruct (Hm (mkHealthResponse (-1) "no available id" 0)) as [bytes Hb].
    rewrite Hb. cbn. split; [|now exists bytes].
    split; [discriminate|intros H; now contradiction H].
  - destruct (Hm (mkHealthResponse 0 "success" (leftCount b))) as [bytes Hb].
    rewrite Hb. cbn. split; [|now exists bytes].
    split; [intros _; exact Hnz|reflexivity].
Qed.

Lemma handleHealth_ok_iff_count_witness :
  status_of
    (snd (handleHealth (fun resp => Some (Health_Msg resp))
            (mkRequest None {["biz_tag"%string := ["t"%string]]})
            (<["t"%string := mkBizAlloc "t" [mkSegment 3 0 10] false []]>
               InitAlloc))) = 200.
Proof.
  apply (handleHealth_ok_iff_count (fun resp => Some (Health_Msg resp))
           (mkRequest None {["biz_tag"%string := ["t"%string]]})
           (<["t"%string := mkBizAlloc "t" [mkSegment 3 0 10] false []]> InitAlloc)
           (mkBizAlloc "t" [mkSegment 3 0 10] false [])).
  - intros resp. now eexists.
  - reflexivity.
  - vm_compute. discriminate.
  - reflexivity.
  - vm_compute. discriminate.
Defined.
